(** * Scroll restoration: a shallow embedding of the cache and the
      save / restore orchestration

    The development follows [scroll-restoration.ts] and [helpers.ts]:
    JavaScript objects used as insertion-ordered maps are association
    lists, module-level mutable state is threaded through a small state
    and exception monad, and every call that leaves the module
    ([window.scrollTo], [sessionStorage.setItem], [dispatchEvent], ...)
    is appended to an effect log. *)

From Stdlib Require Import String Ascii List ZArith Bool Arith Lia.
From Stdlib Require Import DecimalString DecimalNat.
Import ListNotations.
Open Scope string_scope.
Set Warnings "-register-all".

(** ** JavaScript strings *)

Module Js.

(** A string is truthy exactly when it is not empty. *)
Definition truthy (s : string) : bool :=
  match s with EmptyString => false | String _ _ => true end.

(** The one-character string holding a double quote. *)
Definition dquote : string := String (ascii_of_nat 34) "".

(** [Array.prototype.join] on an array of strings. *)
Fixpoint join (parts : list string) (sep : string) : string :=
  match parts with
  | [] => ""
  | [p] => p
  | p :: rest => p ++ sep ++ join rest sep
  end.

(** The scanning loop of [String.prototype.split] for a non-empty
    separator: [skip] counts the characters of a separator that has just
    been matched and that are still to be dropped, [cur] is the piece
    being accumulated. *)
Fixpoint split_from (sep : string) (skip : nat) (cur : string) (s : string)
  : list string :=
  match s with
  | EmptyString => [cur]
  | String c s' =>
      match skip with
      | S k => split_from sep k cur s'
      | O =>
          if prefix sep s
          then cur :: split_from sep (String.length sep - 1) "" s'
          else split_from sep 0 (cur ++ String c "") s'
      end
  end.

Fixpoint chars (s : string) : list string :=
  match s with
  | EmptyString => []
  | String c s' => String c "" :: chars s'
  end.

(** [s.split(sep)]; the empty separator splits into characters. *)
Definition split (s sep : string) : list string :=
  match sep with
  | EmptyString => chars s
  | _ => split_from sep 0 "" s
  end.

Definition lower_ascii (c : ascii) : ascii :=
  let n := nat_of_ascii c in
  if Nat.leb 65 n && Nat.leb n 90 then ascii_of_nat (n + 32) else c.

(** [String.prototype.toLowerCase] on text made of ASCII characters,
    as the names of the HTML elements are: the letters A to Z are
    lowered, every other character is kept. *)
Fixpoint toLowerCase (s : string) : string :=
  match s with
  | EmptyString => EmptyString
  | String c s' => String (lower_ascii c) (toLowerCase s')
  end.

(** Decimal rendering of an index inside a template literal. *)
Definition of_nat (n : nat) : string :=
  NilZero.string_of_uint (Nat.to_uint n).

(** [Array.prototype.indexOf] on node identities: the position of the
    first match, or [-1]. *)
Fixpoint indexOf (xs : list nat) (x : nat) : Z :=
  match xs with
  | [] => (-1)%Z
  | y :: ys =>
      if Nat.eqb y x then 0%Z
      else match indexOf ys x with
           | Zneg _ => (-1)%Z
           | i => (i + 1)%Z
           end
  end.

End Js.

(** ** Numbers

    Scroll offsets are only stored, compared with zero by [||] and
    handed back; the model keeps [NaN] (the placeholder written by the
    scroll tracker) and the integers. *)

Inductive number : Type :=
| NaN
| Num (z : Z).

Definition number_eqb (a b : number) : bool :=
  match a, b with
  | NaN, NaN => true
  | Num x, Num y => Z.eqb x y
  | _, _ => false
  end.

(** [v || 0] for [v] a number or [undefined]. *)
Definition or_zero (v : option number) : number :=
  match v with
  | Some (Num z) => if Z.eqb z 0 then Num 0 else Num z
  | Some NaN => Num 0
  | None => Num 0
  end.

(** ** Objects used as maps

    Property order is insertion order for keys that are not array
    indices, and assigning an existing property keeps its place. The
    keys that the module inserts are selectors and composite keys, none
    of which is an array index. *)

Section Obj.
Context {A : Type}.

Definition obj := list (string * A).

Fixpoint obj_get (k : string) (o : obj) : option A :=
  match o with
  | [] => None
  | (k', v) :: o' => if String.eqb k' k then Some v else obj_get k o'
  end.

Fixpoint obj_set (k : string) (v : A) (o : obj) : obj :=
  match o with
  | [] => [(k, v)]
  | (k', v') :: o' =>
      if String.eqb k' k then (k', v) :: o' else (k', v') :: obj_set k v o'
  end.

Fixpoint obj_delete (k : string) (o : obj) : obj :=
  match o with
  | [] => []
  | (k', v') :: o' =>
      if String.eqb k' k then obj_delete k o' else (k', v') :: obj_delete k o'
  end.

Definition obj_keys (o : obj) : list string := map fst o.

(** A JavaScript object holds each property once. *)
Definition obj_wf (o : obj) : Prop := NoDup (obj_keys o).
End Obj.
Arguments obj A : clear implicits.

(** ** shapes.ts *)

Record HistoryState := { key : option string }.

Record Location := {
  href : string;
  pathname : string;
  search : string;
  hash : string;
  loc_state : option HistoryState
}.

Record ScrollEntry := { scrollX : number; scrollY : number }.

Definition CacheValue := obj ScrollEntry.

Record CacheState := { cached : CacheValue; next : CacheValue }.

Inductive NonNullableUpdater (T : Type) : Type :=
| UpdaterValue (v : T)
| UpdaterFunction (f : T -> T).
Arguments UpdaterValue {T} v.
Arguments UpdaterFunction {T} f.

(** ** constants.ts *)

(** Modelled from the spec: [constants.ts] is not among the sources; the
    storage key is the one the test suite seeds
    (['scroll-restoration-v2']). *)
Definition storageKey : string := "scroll-restoration-v2".

(** Modelled from the spec: the window sentinel of [constants.ts], as it
    appears in the composite keys of the test suite
    ([`${locationKey}___window`]). *)
Definition windowKey : string := "window".

(** Modelled from the spec: the delimiter of [constants.ts], the triple
    underscore of the composite keys of the test suite. *)
Definition delimiter : string := "___".

(** Modelled from the spec: the names of the save-requested and
    restore-requested window events of [constants.ts]; only their
    identity matters. *)
Inductive EventName : Type :=
| SCROLL_SAVE_EVENT
| SCROLL_RESTORE_EVENT.

(** ** helpers.ts *)

Definition functionalUpdate {T : Type} (updater : NonNullableUpdater T) (value : T) : T :=
  match updater with
  | UpdaterFunction f => f value
  | UpdaterValue v => v
  end.

(** ** The DOM as seen by the module

    A node carries its identity, what the code reads from it and its
    chain of parents. [children] lists the identities of the element
    children, in document order. *)

Inductive Node : Type := mkNode {
  node_id : nat;
  nodeName : string;
  tagName : string;
  scroll_restoration_id : option string;
  scrollLeft : number;
  scrollTop : number;
  children : list nat;
  parentNode : option Node
}.

(** One level of the path:
    [`${current.tagName}:nth-child(${indexOf(current) + 1})`]. *)
Definition nth_child_part (current parent : Node) : string :=
  tagName current ++ ":nth-child("
    ++ Js.of_nat (Z.to_nat (Js.indexOf (children parent) (node_id current) + 1))
    ++ ")".

(** The [while] loop of [getCssSelector]; [path.unshift] is a cons. *)
Fixpoint getCssSelector_loop (current : Node) (path : list string) : list string :=
  match current with
  | mkNode _ _ _ _ _ _ _ None => path
  | mkNode _ _ _ _ _ _ _ (Some parent) =>
      if String.eqb (nodeName parent) "HTML" then path
      else getCssSelector_loop parent (nth_child_part current parent :: path)
  end.

Definition getCssSelector (el : Node) : string :=
  Js.toLowerCase (Js.join (getCssSelector_loop el []) " > ").

(** ** Exceptions *)

Inductive exn : Type :=
| SyntaxError
| TypeError.

(** How a call ends: with a value, or by throwing. *)
Inductive completion (A E : Type) : Type :=
| Normal (a : A)
| Throw (e : E).
Arguments Normal {A E} a.
Arguments Throw {A E} e.

(** What the module reads from the browser when an operation runs.
    [document.querySelector(selectors)] returns the first matching
    element, [null] when there is none, and throws (a [SyntaxError]) when
    the string is not a valid selector. *)
Record Env := {
  window_defined : bool;
  window_scrollX : number;
  window_scrollY : number;
  window_location : Location;
  sessionStorage : option (string -> option string);
  querySelector : string -> completion (option Node) exn
}.

Inductive EventTarget : Type :=
| TargetDocument
| TargetWindow
| TargetElement (el : Node).

Definition target_eqb (a b : EventTarget) : bool :=
  match a, b with
  | TargetDocument, TargetDocument => true
  | TargetWindow, TargetWindow => true
  | TargetElement x, TargetElement y => Nat.eqb (node_id x) (node_id y)
  | _, _ => false
  end.

Record ScrollRestorationOptions := {
  getKey : option (Location -> string);
  scrollBehavior : option string;
  getCurrentLocation : option (Env -> Location)
}.

(** The callbacks handed to [requestAnimationFrame] by [handleNavigation]. *)
Inductive FrameCallback : Type :=
| FrameOuter
| FrameRestore.

(** Calls that leave the module, in program order, and the exceptions
    that escape a listener or a frame callback and are reported by the
    host. [SessionStorageSetItem] carries the state that [JSON.stringify]
    is applied to. *)
Inductive Effect : Type :=
| ScrollToOptions (top left : number) (behavior : option string)
| ScrollToXY (x y : number)
| SetScrollLeft (element : nat) (v : number)
| SetScrollTop (element : nat) (v : number)
| SessionStorageSetItem (k : string) (serialized : CacheState)
| DispatchEvent (name : EventName)
| OnNavigate (prev : Location)
| RequestAnimationFrame (cb : FrameCallback)
| ReportError (e : exn).

(** [set] is either the empty function or the persisting updater. *)
Inductive CacheSet : Type :=
| SetNoop
| SetPersist.

Record Cache := { state : CacheState; set : CacheSet }.

Record World := {
  cache : Cache;
  weakScrolledElements : list EventTarget;
  locationRef : Location;
  lastLocation : Location;
  frames : list FrameCallback;
  effects : list Effect
}.

(** ** State and exceptions

    A computation ends with a value and a world, or throws and leaves
    the world it had reached: what was assigned or called before the
    exception stays done. *)

Definition M (A : Type) : Type := World -> completion (A * World) (exn * World).

Definition ret {A} (a : A) : M A := fun w => Normal (a, w).

Definition bind {A B} (m : M A) (k : A -> M B) : M B :=
  fun w =>
    match m w with
    | Normal (a, w') => k a w'
    | Throw ew => Throw ew
    end.

Notation "x <- m ;; k" := (bind m (fun x => k))
  (at level 61, m at next level, right associativity).
Notation "m ;;; k" := (bind m (fun _ => k))
  (at level 61, right associativity).

Definition throw {A} (e : exn) : M A := fun w => Throw (e, w).

(** A call to the platform from inside a computation. *)
Definition lift {A} (c : completion A exn) : M A :=
  fun w =>
    match c with
    | Normal a => Normal (a, w)
    | Throw e => Throw (e, w)
    end.

Definition with_cache (c : Cache) (w : World) : World :=
  {| cache := c; weakScrolledElements := weakScrolledElements w;
     locationRef := locationRef w; lastLocation := lastLocation w;
     frames := frames w; effects := effects w |}.

Definition with_weakScrolledElements (s : list EventTarget) (w : World) : World :=
  {| cache := cache w; weakScrolledElements := s;
     locationRef := locationRef w; lastLocation := lastLocation w;
     frames := frames w; effects := effects w |}.

Definition with_locationRef (l : Location) (w : World) : World :=
  {| cache := cache w; weakScrolledElements := weakScrolledElements w;
     locationRef := l; lastLocation := lastLocation w;
     frames := frames w; effects := effects w |}.

Definition with_lastLocation (l : Location) (w : World) : World :=
  {| cache := cache w; weakScrolledElements := weakScrolledElements w;
     locationRef := locationRef w; lastLocation := l;
     frames := frames w; effects := effects w |}.

Definition with_frames (fs : list FrameCallback) (w : World) : World :=
  {| cache := cache w; weakScrolledElements := weakScrolledElements w;
     locationRef := locationRef w; lastLocation := lastLocation w;
     frames := fs; effects := effects w |}.

(** The world after the calls [es] have been made. *)
Definition add_effects (es : list Effect) (w : World) : World :=
  {| cache := cache w; weakScrolledElements := weakScrolledElements w;
     locationRef := locationRef w; lastLocation := lastLocation w;
     frames := frames w; effects := effects w ++ es |}.

Definition get_cache : M Cache := fun w => Normal (cache w, w).
Definition put_cache (c : Cache) : M unit := fun w => Normal (tt, with_cache c w).
Definition put_weakScrolledElements (s : list EventTarget) : M unit :=
  fun w => Normal (tt, with_weakScrolledElements s w).
Definition put_locationRef (l : Location) : M unit :=
  fun w => Normal (tt, with_locationRef l w).
Definition put_lastLocation (l : Location) : M unit :=
  fun w => Normal (tt, with_lastLocation l w).
Definition push_frame (cb : FrameCallback) : M unit :=
  fun w => Normal (tt, with_frames (frames w ++ [cb]) w).
Definition emit (e : Effect) : M unit := fun w => Normal (tt, add_effects [e] w).

(** What the host does when a listener or a frame callback throws: the
    exception is reported and does not reach whoever dispatched the
    event or ran the frame. *)
Definition report (m : M unit) : M unit :=
  fun w =>
    match m w with
    | Normal r => Normal r
    | Throw (e, w') => Normal (tt, add_effects [ReportError e] w')
    end.

(** [for (const k in o) body] over the keys enumerated when the loop starts. *)
Fixpoint for_in (keys : list string) (body : string -> M unit) : M unit :=
  match keys with
  | [] => ret tt
  | k :: rest => body k ;;; for_in rest body
  end.

(** ** The cache *)

Definition default_state : CacheState := {| cached := []; next := [] |}.

(** [cache.set(updater)]: the empty function of the fallback cache, or
    the functional update followed by the synchronous write. The write
    is taken to succeed: a storage that refuses it (quota, access) is
    outside the model. *)
Definition cache_set (updater : NonNullableUpdater CacheState) : M unit :=
  c <- get_cache ;;
  match set c with
  | SetNoop => ret tt
  | SetPersist =>
      let st := functionalUpdate updater (state c) in
      put_cache {| state := st; set := SetPersist |} ;;;
      emit (SessionStorageSetItem storageKey st)
  end.

Definition defaultGetKey (location : Location) : string :=
  match loc_state location with
  | Some {| key := Some k |} => if Js.truthy k then k else href location
  | _ => href location
  end.

Definition defaultGetCurrentLocation (env : Env) : Location :=
  if window_defined env then window_location env
  else {| href := ""; pathname := ""; search := ""; hash := ""; loc_state := None |}.

(** ** JSON.parse

    The platform's parser, on byte strings (a JavaScript string is
    represented by its UTF-8 bytes; an escaped code unit is stored
    encoded, a surrogate pair as one code point). A number keeps its
    decimal mantissa and exponent. *)

Module JSON.

Inductive json : Type :=
| JNull
| JBool (b : bool)
| JNumber (mantissa exponent : Z)
| JString (s : string)
| JArray (elements : list json)
| JObject (members : list (string * json)).

Definition is_ws (c : ascii) : bool :=
  match nat_of_ascii c with
  | 9 | 10 | 13 | 32 => true
  | _ => false
  end.

Fixpoint skip_ws (s : string) : string :=
  match s with
  | String c r => if is_ws c then skip_ws r else s
  | EmptyString => s
  end.

Definition digit (c : ascii) : option Z :=
  let n := nat_of_ascii c in
  if Nat.leb 48 n && Nat.leb n 57 then Some (Z.of_nat (n - 48)) else None.

Definition hex (c : ascii) : option N :=
  let n := nat_of_ascii c in
  if Nat.leb 48 n && Nat.leb n 57 then Some (N.of_nat (n - 48))
  else if Nat.leb 65 n && Nat.leb n 70 then Some (N.of_nat (n - 55))
  else if Nat.leb 97 n && Nat.leb n 102 then Some (N.of_nat (n - 87))
  else None.

(** The longest run of digits at the head of [s]: its value after [acc],
    how many digits were read, and the rest. *)
Fixpoint digits (s : string) (acc : Z) (count : nat) : Z * nat * string :=
  match s with
  | String c r =>
      match digit c with
      | Some d => digits r (acc * 10 + d) (S count)
      | None => (acc, count, s)
      end
  | EmptyString => (acc, count, s)
  end.

Definition parse_exponent (s : string) : option (Z * string) :=
  match s with
  | String c r =>
      if Ascii.eqb c "e" || Ascii.eqb c "E" then
        let '(sign, r1) :=
          match r with
          | String "+" r' => (1%Z, r')
          | String "-" r' => ((-1)%Z, r')
          | _ => (1%Z, r)
          end in
        match digits r1 0 0 with
        | (_, O, _) => None
        | (e, _, rest) => Some ((sign * e)%Z, rest)
        end
      else Some (0%Z, s)
  | EmptyString => Some (0%Z, s)
  end.

Definition parse_fraction (m : Z) (s : string) : option (Z * Z * string) :=
  match s with
  | String "." r =>
      match digits r m 0 with
      | (_, O, _) => None
      | (m', n, rest) => Some (m', (- Z.of_nat n)%Z, rest)
      end
  | _ => Some (m, 0%Z, s)
  end.

(** An optional minus sign, an integer part without a leading zero, an
    optional fraction and an optional exponent. *)
Definition parse_number (s : string) : option (json * string) :=
  let '(sign, s1) :=
    match s with
    | String "-" r => ((-1)%Z, r)
    | _ => (1%Z, s)
    end in
  let int_part :=
    match s1 with
    | String "0" r => Some (0%Z, r)
    | _ => match digits s1 0 0 with
           | (_, O, _) => None
           | (m, _, rest) => Some (m, rest)
           end
    end in
  match int_part with
  | None => None
  | Some (m, s2) =>
      match parse_fraction m s2 with
      | None => None
      | Some (m', shift, s3) =>
          match parse_exponent s3 with
          | None => None
          | Some (e, s4) => Some (JNumber (sign * m') (e + shift), s4)
          end
      end
  end.

(** What a string literal is made of before encoding: a byte copied from
    the text, or a code unit written as an escape. *)
Inductive item : Type :=
| Byte (c : ascii)
| Unit (u : N).

Definition byte_of (n : N) : ascii := ascii_of_N n.

Definition utf8 (cp : N) : string :=
  (if cp <? 128 then String (byte_of cp) ""
   else if cp <? 2048 then
     String (byte_of (192 + cp / 64)) (String (byte_of (128 + cp mod 64)) "")
   else if cp <? 65536 then
     String (byte_of (224 + cp / 4096))
       (String (byte_of (128 + (cp / 64) mod 64))
          (String (byte_of (128 + cp mod 64)) ""))
   else
     String (byte_of (240 + cp / 262144))
       (String (byte_of (128 + (cp / 4096) mod 64))
          (String (byte_of (128 + (cp / 64) mod 64))
             (String (byte_of (128 + cp mod 64)) ""))))%N.

Definition is_high (u : N) : bool := ((55296 <=? u) && (u <? 56320))%N.
Definition is_low (u : N) : bool := ((56320 <=? u) && (u <? 57344))%N.

Fixpoint encode (items : list item) : string :=
  match items with
  | [] => ""
  | Byte c :: rest => String c (encode rest)
  | Unit u :: rest =>
      match rest with
      | Unit v :: rest' =>
          if is_high u && is_low v
          then utf8 (65536 + (u - 55296) * 1024 + (v - 56320))%N ++ encode rest'
          else utf8 u ++ encode rest
      | _ => utf8 u ++ encode rest
      end
  end.

(** The characters after the opening quote, up to the closing one. *)
Fixpoint string_body (s : string) (acc : list item) : option (string * string) :=
  match s with
  | EmptyString => None
  | String c r =>
      if Nat.eqb (nat_of_ascii c) 34 then Some (encode (rev acc), r)
      else if Nat.eqb (nat_of_ascii c) 92 then
        match r with
        | String e r' =>
            let simple (u : N) := string_body r' (Unit u :: acc) in
            match nat_of_ascii e with
            | 34 => simple 34%N
            | 92 => simple 92%N
            | 47 => simple 47%N
            | 98 => simple 8%N
            | 102 => simple 12%N
            | 110 => simple 10%N
            | 114 => simple 13%N
            | 116 => simple 9%N
            | 117 =>
                match r' with
                | String h1 (String h2 (String h3 (String h4 r''))) =>
                    match hex h1, hex h2, hex h3, hex h4 with
                    | Some a, Some b, Some c', Some d =>
                        string_body r'' (Unit (a * 4096 + b * 256 + c' * 16 + d)%N :: acc)
                    | _, _, _, _ => None
                    end
                | _ => None
                end
            | _ => None
            end
        | EmptyString => None
        end
      else if Nat.ltb (nat_of_ascii c) 32 then None
      else string_body r (Byte c :: acc)
  end.

Definition parse_literal (lit : string) (v : json) (s : string) : option (json * string) :=
  if prefix lit s
  then Some (v, substring (String.length lit) (String.length s - String.length lit) s)
  else None.

(** Assigning a member: a repeated name keeps its place and takes the
    last value. *)
Fixpoint add_member (k : string) (v : json) (ms : list (string * json)) :=
  match ms with
  | [] => [(k, v)]
  | (k', v') :: ms' =>
      if String.eqb k' k then (k', v) :: ms' else (k', v') :: add_member k v ms'
  end.

(** Recursive descent; every call made with less fuel has read at least
    one more character. *)
Fixpoint value (fuel : nat) (s : string) {struct fuel} : option (json * string) :=
  match fuel with
  | O => None
  | S f =>
      match skip_ws s with
      | String "{" r =>
          match skip_ws r with
          | String "}" r' => Some (JObject [], r')
          | r' => members f r' []
          end
      | String "[" r =>
          match skip_ws r with
          | String "]" r' => Some (JArray [], r')
          | r' => elements f r' []
          end
      | String (Ascii false true false false false true false false) r =>
          match string_body r [] with
          | Some (str, r') => Some (JString str, r')
          | None => None
          end
      | String "t" _ as s' => parse_literal "true" (JBool true) s'
      | String "f" _ as s' => parse_literal "false" (JBool false) s'
      | String "n" _ as s' => parse_literal "null" JNull s'
      | s' => parse_number s'
      end
  end
with members (fuel : nat) (s : string) (acc : list (string * json)) {struct fuel}
  : option (json * string) :=
  match fuel with
  | O => None
  | S f =>
      match skip_ws s with
      | String (Ascii false true false false false true false false) r =>
          match string_body r [] with
          | Some (k, r1) =>
              match skip_ws r1 with
              | String ":" r2 =>
                  match value f r2 with
                  | Some (v, r3) =>
                      match skip_ws r3 with
                      | String "," r4 => members f r4 (add_member k v acc)
                      | String "}" r4 => Some (JObject (add_member k v acc), r4)
                      | _ => None
                      end
                  | None => None
                  end
              | _ => None
              end
          | None => None
          end
      | _ => None
      end
  end
with elements (fuel : nat) (s : string) (acc : list json) {struct fuel}
  : option (json * string) :=
  match fuel with
  | O => None
  | S f =>
      match value f s with
      | Some (v, r) =>
          match skip_ws r with
          | String "," r' => elements f r' (acc ++ [v])
          | String "]" r' => Some (JArray (acc ++ [v]), r')
          | _ => None
          end
      | None => None
      end
  end.

(** [JSON.parse(text)]: one value between optional white space, or a
    [SyntaxError]. *)
Definition parse (text : string) : option json :=
  match value (2 * String.length text + 2) text with
  | Some (v, rest) =>
      match skip_ws rest with
      | EmptyString => Some v
      | _ => None
      end
  | None => None
  end.

(** A number literal denotes zero when its mantissa is zero or when it
    is at most [2^-1075], which rounds to zero. *)
Definition number_is_zero (m e : Z) : bool :=
  (Z.eqb m 0 || (Z.ltb e 0 && Z.leb (Z.abs m * 2 ^ 1075) (10 ^ (- e))))%Z.

(** ToBoolean on a parsed value. *)
Definition truthy (v : json) : bool :=
  match v with
  | JNull => false
  | JBool b => b
  | JNumber m e => negb (number_is_zero m e)
  | JString s => Js.truthy s
  | JArray _ => true
  | JObject _ => true
  end.

End JSON.

(** ** createCache *)

Definition default_json : JSON.json :=
  JSON.JObject [("cached", JSON.JObject []); ("next", JSON.JObject [])].

(** What [createCache] returns: the parsed value is taken as the state
    without any check of its shape. *)
Record LoadedCache := { loaded_state : JSON.json; loaded_set : CacheSet }.

Definition createCache (env : Env) : completion LoadedCache exn :=
  match (if window_defined env then sessionStorage env else None) with
  | None => Normal {| loaded_state := default_json; loaded_set := SetNoop |}
  | Some getItem =>
      let text :=
        match getItem storageKey with
        | Some item => if Js.truthy item then item else "null"
        | None => "null"
        end in
      match JSON.parse text with
      | None => Throw SyntaxError
      | Some v =>
          Normal {| loaded_state := if JSON.truthy v then v else default_json;
                    loaded_set := SetPersist |}
      end
  end.

(** The attribute selector
    [`[data-scroll-restoration-id="${id}"]`]. *)
Definition element_selector (attrId : string) : string :=
  "[data-scroll-restoration-id=" ++ Js.dquote ++ attrId ++ Js.dquote ++ "]".

(** ** The functions at the top level of the module

    The exported triggers and the closures of [defaultNavigationListener]
    reach a mounted hook only through [window.dispatchEvent], given here
    with the listeners that are registered, and through the callback of
    the listener. *)

Definition location_changed (currentLocation last : Location) : bool :=
  negb (String.eqb (pathname currentLocation) (pathname last))
  || negb (String.eqb (search currentLocation) (search last))
  || negb (String.eqb (hash currentLocation) (hash last)).

Module Toplevel.
Section Window.
Variable dispatchEvent : EventName -> M unit.

Definition saveCurrentScrollPositions (env : Env) : M unit :=
  if window_defined env then dispatchEvent SCROLL_SAVE_EVENT else ret tt.

Definition restoreScrollPositions (env : Env) : M unit :=
  if window_defined env then dispatchEvent SCROLL_RESTORE_EVENT else ret tt.

(** [checkForUrlChange] of the default navigation listener, with the
    callback it was registered with. *)
Definition checkForUrlChange (env : Env) (onNavigate : Location -> M unit) : M unit :=
  fun w =>
    let currentLocation := defaultGetCurrentLocation env in
    if location_changed currentLocation (lastLocation w) then
      let prevLocation := lastLocation w in
      (saveCurrentScrollPositions env ;;;
       put_lastLocation currentLocation ;;;
       emit (OnNavigate prevLocation) ;;;
       onNavigate prevLocation) w
    else ret tt w.

Definition handlePopState (env : Env) (onNavigate : Location -> M unit) : M unit :=
  checkForUrlChange env onNavigate.

End Window.
End Toplevel.

(** ** useScrollRestoration

    The closures of one mounted hook; [dispatchEvent] runs the listener
    that the hook registered on [window]. *)

Module useScrollRestoration.
Section Hook.
Variable options : ScrollRestorationOptions.

Definition getKey' : Location -> string :=
  match getKey options with
  | Some f => f
  | None => defaultGetKey
  end.

Definition getCurrentLocation' : Env -> Location :=
  match getCurrentLocation options with
  | Some f => f
  | None => defaultGetCurrentLocation
  end.

(** What the two assignments to [entry.scrollX] and [entry.scrollY]
    store; [document.querySelector] is called first and may throw. *)
Definition read_offsets (env : Env) (elementSelector : string) (entry : ScrollEntry)
  : completion ScrollEntry exn :=
  if String.eqb elementSelector windowKey then
    Normal {| scrollX := or_zero (Some (window_scrollX env));
              scrollY := or_zero (Some (window_scrollY env)) |}
  else if Js.truthy elementSelector then
    match querySelector env elementSelector with
    | Normal element =>
        Normal {| scrollX := or_zero (option_map scrollLeft element);
                  scrollY := or_zero (option_map scrollTop element) |}
    | Throw e => Throw e
    end
  else Normal entry.

(** The entry is an object held by [cache.state.next]: assigning its
    fields changes the state in place, whatever [cache.set] is. *)
Definition assign_entry (elementSelector : string) (entry : ScrollEntry) : M unit :=
  c <- get_cache ;;
  put_cache {| state := {| cached := cached (state c);
                           next := obj_set elementSelector entry (next (state c)) |};
               set := set c |}.

Definition composite (locationKey elementSelector : string) : string :=
  Js.join [locationKey; elementSelector] delimiter.

Definition save_body (env : Env) (locationKey elementSelector : string) : M unit :=
  c <- get_cache ;;
  match obj_get elementSelector (next (state c)) with
  | None => throw TypeError
  | Some entry0 =>
      entry <- lift (read_offsets env elementSelector entry0) ;;
      assign_entry elementSelector entry ;;;
      cache_set (UpdaterFunction (fun c =>
        let next := obj_delete elementSelector (next c) in
        {| cached := obj_set (composite locationKey elementSelector) entry (cached c);
           next := next |}))
  end.

Definition saveScrollPositions (env : Env) (currentLocation : Location) : M unit :=
  if negb (window_defined env) then ret tt
  else
    let locationKey := getKey' currentLocation in
    c <- get_cache ;;
    for_in (obj_keys (next (state c))) (save_body env locationKey).

(** One turn of the loop of [restoreScrollPositions]; the result is the
    new value of [windowRestored]. *)
Definition restore_body (env : Env) (locationKey : string) (windowRestored : bool)
           (cacheKey : string) : M bool :=
  c <- get_cache ;;
  match obj_get cacheKey (cached (state c)) with
  | None => throw TypeError
  | Some entry =>
      match Js.split cacheKey delimiter with
      | key :: rest =>
          if String.eqb key locationKey then
            match rest with
            | elementSelector :: _ =>
                if String.eqb elementSelector windowKey then
                  emit (ScrollToOptions (scrollY entry) (scrollX entry)
                                        (scrollBehavior options)) ;;;
                  ret true
                else if Js.truthy elementSelector then
                  found <- lift (querySelector env elementSelector) ;;
                  match found with
                  | Some element =>
                      emit (SetScrollLeft (node_id element) (scrollX entry)) ;;;
                      emit (SetScrollTop (node_id element) (scrollY entry)) ;;;
                      ret windowRestored
                  | None => ret windowRestored
                  end
                else ret windowRestored
            | [] => ret windowRestored
            end
          else ret windowRestored
      | [] => ret windowRestored
      end
  end.

Fixpoint restore_loop (env : Env) (locationKey : string) (keys : list string)
         (windowRestored : bool) : M bool :=
  match keys with
  | [] => ret windowRestored
  | cacheKey :: rest =>
      r <- restore_body env locationKey windowRestored cacheKey ;;
      restore_loop env locationKey rest r
  end.

Definition restoreScrollPositions (env : Env) (currentLocation : Location) : M unit :=
  if negb (window_defined env) then ret tt
  else
    let locationKey := getKey' currentLocation in
    c <- get_cache ;;
    windowRestored <- restore_loop env locationKey (obj_keys (cached (state c))) false ;;
    (if negb windowRestored then emit (ScrollToXY (Num 0) (Num 0)) else ret tt) ;;;
    cache_set (UpdaterFunction (fun c => {| cached := cached c; next := [] |})) ;;;
    put_weakScrolledElements [].

Definition requestAnimationFrame (cb : FrameCallback) : M unit :=
  emit (RequestAnimationFrame cb) ;;; push_frame cb.

Definition handleNavigation (env : Env) : M unit :=
  put_locationRef (getCurrentLocation' env) ;;;
  requestAnimationFrame FrameOuter.

(** Running a callback that the host took from the frame queue. *)
Definition run_frame (env : Env) (cb : FrameCallback) : M unit :=
  match cb with
  | FrameOuter => requestAnimationFrame FrameRestore
  | FrameRestore => fun w => restoreScrollPositions env (locationRef w) w
  end.

Fixpoint run_frames (env : Env) (cbs : list FrameCallback) : M unit :=
  match cbs with
  | [] => ret tt
  | cb :: rest => report (run_frame env cb) ;;; run_frames env rest
  end.

(** One animation frame: the host takes the queued callbacks and runs
    them, reporting the exception of a callback that throws; what they
    request goes to the next frame. *)
Definition animation_frame (env : Env) : M unit :=
  fun w => run_frames env (frames w) (with_frames [] w).

Definition scroll_selector (target : EventTarget) : string :=
  match target with
  | TargetDocument | TargetWindow => windowKey
  | TargetElement el =>
      match scroll_restoration_id el with
      | Some attrId =>
          if Js.truthy attrId then element_selector attrId
          else getCssSelector el
      | None => getCssSelector el
      end
  end.

Definition onScroll (target : EventTarget) : M unit :=
  fun w =>
    if existsb (target_eqb target) (weakScrolledElements w) then ret tt w
    else
      (put_weakScrolledElements (weakScrolledElements w ++ [target]) ;;;
       let elementSelector := scroll_selector target in
       c <- get_cache ;;
       match obj_get elementSelector (next (state c)) with
       | Some _ => ret tt
       | None =>
           cache_set (UpdaterFunction (fun c =>
             {| cached := cached c;
                next := obj_set elementSelector {| scrollX := NaN; scrollY := NaN |}
                                (next c) |}))
       end) w.

Definition handleScrollSave (env : Env) : M unit :=
  fun w => saveScrollPositions env (locationRef w) w.

Definition handleScrollRestore (env : Env) : M unit :=
  fun w => restoreScrollPositions env (locationRef w) w.

(** [window.dispatchEvent(new Event(name))] while the hook is mounted:
    the matching listener runs inside the call; an exception that it
    throws is reported and [dispatchEvent] returns. *)
Definition dispatchEvent (env : Env) (name : EventName) : M unit :=
  emit (DispatchEvent name) ;;;
  report (match name with
          | SCROLL_SAVE_EVENT => handleScrollSave env
          | SCROLL_RESTORE_EVENT => handleScrollRestore env
          end).

(** The functions of the top level, on a window whose listeners are
    those of this hook. *)
Definition saveCurrentScrollPositions (env : Env) : M unit :=
  Toplevel.saveCurrentScrollPositions (dispatchEvent env) env.

Definition restoreScrollPositions_trigger (env : Env) : M unit :=
  Toplevel.restoreScrollPositions (dispatchEvent env) env.

Definition checkForUrlChange (env : Env) (onNavigate : Location -> M unit) : M unit :=
  Toplevel.checkForUrlChange (dispatchEvent env) env onNavigate.

Definition handlePopState (env : Env) : M unit :=
  Toplevel.handlePopState (dispatchEvent env) env (fun _ => handleNavigation env).

End Hook.
End useScrollRestoration.

(** ** useElementScrollRestoration *)

Record ElementScrollRestorationOptions := {
  id : option string;
  getElement : option (Env -> option Node);
  element_getKey : option (Location -> string);
  element_getCurrentLocation : option (Env -> Location)
}.

Definition useElementScrollRestoration
           (options : ElementScrollRestorationOptions) (env : Env)
  : M (option ScrollEntry) :=
  let getKey := match element_getKey options with Some f => f | None => defaultGetKey end in
  let getCurrentLocation :=
    match element_getCurrentLocation options with
    | Some f => f
    | None => defaultGetCurrentLocation
    end in
  let location := getCurrentLocation env in
  let lookup (elementSelector : string) : M (option ScrollEntry) :=
    let restoreKey := getKey location in
    let cacheKey := Js.join [restoreKey; elementSelector] delimiter in
    c <- get_cache ;;
    ret (obj_get cacheKey (cached (state c))) in
  match (match id options with Some i => if Js.truthy i then Some i else None | None => None end) with
  | Some i => lookup (element_selector i)
  | None =>
      match (match getElement options with Some f => f env | None => None end) with
      | None => ret None
      | Some element => lookup (getCssSelector element)
      end
  end.

(** * Auxiliary definitions: what the loops compute *)

Import useScrollRestoration.

(** Whether [document.querySelector] takes a selector without
    throwing. *)
Definition accepts (env : Env) (selector : string) : bool :=
  match querySelector env selector with
  | Normal _ => true
  | Throw _ => false
  end.

(** The selectors that the save loop hands to [document.querySelector]:
    those that are neither the window sentinel nor empty. *)
Definition looked_up (elementSelector : string) : bool :=
  negb (String.eqb elementSelector windowKey) && Js.truthy elementSelector.

(** Every pending selector that the save loop looks up is accepted. *)
Definition save_accepts (env : Env) (pending : CacheValue) : bool :=
  forallb (fun sel => negb (looked_up sel) || accepts env sel) (obj_keys pending).

(** The exception at which the save loop stops, if any: the one thrown
    for the first pending selector that is rejected. *)
Fixpoint save_raises (env : Env) (pending : CacheValue) : option exn :=
  match pending with
  | [] => None
  | (k, e) :: rest =>
      match read_offsets env k e with
      | Normal _ => save_raises env rest
      | Throw x => Some x
      end
  end.

(** The pending entries that the loop migrates, in enumeration order:
    those before the first rejected selector. *)
Fixpoint migrated (env : Env) (pending : CacheValue) : CacheValue :=
  match pending with
  | [] => []
  | (k, e) :: rest =>
      match read_offsets env k e with
      | Normal _ => (k, e) :: migrated env rest
      | Throw _ => []
      end
  end.

(** The pending entries that are left: the first rejected selector and
    those after it. *)
Fixpoint uncommitted (env : Env) (pending : CacheValue) : CacheValue :=
  match pending with
  | [] => []
  | (k, e) :: rest =>
      match read_offsets env k e with
      | Normal _ => uncommitted env rest
      | Throw _ => pending
      end
  end.

(** The committed map after the loop. *)
Fixpoint committed (env : Env) (locationKey : string)
         (pending committedSoFar : CacheValue) : CacheValue :=
  match pending with
  | [] => committedSoFar
  | (k, e) :: rest =>
      match read_offsets env k e with
      | Normal entry =>
          committed env locationKey rest
            (obj_set (composite locationKey k) entry committedSoFar)
      | Throw _ => committedSoFar
      end
  end.

(** The states written to the storage, one per migrated selector. *)
Fixpoint save_writes (env : Env) (locationKey : string)
         (pending committedSoFar : CacheValue) : list Effect :=
  match pending with
  | [] => []
  | (k, e) :: rest =>
      match read_offsets env k e with
      | Normal entry =>
          let c := obj_set (composite locationKey k) entry committedSoFar in
          SessionStorageSetItem storageKey {| cached := c; next := rest |}
            :: save_writes env locationKey rest c
      | Throw _ => []
      end
  end.

(** How a loop ends in the world it has reached. *)
Definition finish (raised : option exn) (w : World)
  : completion (unit * World) (exn * World) :=
  match raised with
  | None => Normal (tt, w)
  | Some e => Throw (e, w)
  end.

(** What the host logs for a listener or a callback that ended with
    [raised]. *)
Definition reported (raised : option exn) : list Effect :=
  match raised with
  | Some e => [ReportError e]
  | None => []
  end.

Definition persisting (st : CacheState) : Cache := {| state := st; set := SetPersist |}.

(** A cache never holds pending entries when its [set] is the empty
    function: nothing can insert them. *)
Definition cache_ok (c : Cache) : Prop :=
  set c = SetNoop -> state c = default_state.

(** The live offsets of a selector as the specification words them: the
    window offsets for the sentinel, otherwise the offsets of the element
    the selector resolves to, zero when there is none. *)
Definition live_offsets (env : Env) (elementSelector : string) : ScrollEntry :=
  if String.eqb elementSelector windowKey then
    {| scrollX := or_zero (Some (window_scrollX env));
       scrollY := or_zero (Some (window_scrollY env)) |}
  else
    match querySelector env elementSelector with
    | Normal (Some element) =>
        {| scrollX := or_zero (Some (scrollLeft element));
           scrollY := or_zero (Some (scrollTop element)) |}
    | _ => {| scrollX := Num 0; scrollY := Num 0 |}
    end.

(** The selector that one turn of the restore loop hands to
    [document.querySelector], if any: the second piece of a composite
    key whose first piece is the location key, when it is neither the
    window sentinel nor empty. *)
Definition restore_query (locationKey cacheKey : string) : option string :=
  match Js.split cacheKey delimiter with
  | key :: elementSelector :: _ =>
      if String.eqb key locationKey && looked_up elementSelector
      then Some elementSelector
      else None
  | _ => None
  end.

(** The exception that one turn of the restore loop throws, if any. *)
Definition turn_raises (env : Env) (locationKey cacheKey : string) : option exn :=
  match restore_query locationKey cacheKey with
  | Some elementSelector =>
      match querySelector env elementSelector with
      | Normal _ => None
      | Throw e => Some e
      end
  | None => None
  end.

(** Every selector that the restore loop looks up over [keys] is
    accepted. *)
Definition restore_accepts (env : Env) (locationKey : string) (keys : list string) : bool :=
  forallb (fun k => match restore_query locationKey k with
                    | Some elementSelector => accepts env elementSelector
                    | None => true
                    end) keys.

(** What one turn of the restore loop does with an entry when it does
    not throw: the calls it makes and the new value of
    [windowRestored]. *)
Definition restore_turn (options : ScrollRestorationOptions) (env : Env)
           (locationKey : string) (windowRestored : bool)
           (cacheKey : string) (entry : ScrollEntry) : list Effect * bool :=
  match Js.split cacheKey delimiter with
  | key :: elementSelector :: _ =>
      if String.eqb key locationKey then
        if String.eqb elementSelector windowKey then
          ([ScrollToOptions (scrollY entry) (scrollX entry) (scrollBehavior options)],
           true)
        else if Js.truthy elementSelector then
          match querySelector env elementSelector with
          | Normal (Some element) =>
              ([SetScrollLeft (node_id element) (scrollX entry);
                SetScrollTop (node_id element) (scrollY entry)], windowRestored)
          | _ => ([], windowRestored)
          end
        else ([], windowRestored)
      else ([], windowRestored)
  | _ => ([], windowRestored)
  end.

(** The calls of the loop over [keys], reading the entries in
    [cachedObj], up to the first turn that throws. *)
Fixpoint restore_calls (options : ScrollRestorationOptions) (env : Env)
         (locationKey : string) (cachedObj : CacheValue) (keys : list string)
         (windowRestored : bool) : list Effect * bool :=
  match keys with
  | [] => ([], windowRestored)
  | cacheKey :: rest =>
      match obj_get cacheKey cachedObj, turn_raises env locationKey cacheKey with
      | Some entry, None =>
          let turn := restore_turn options env locationKey windowRestored cacheKey entry in
          let tail := restore_calls options env locationKey cachedObj rest (snd turn) in
          ((fst turn ++ fst tail)%list, snd tail)
      | _, _ => ([], windowRestored)
      end
  end.

(** The exception at which the restore loop stops, if any. *)
Fixpoint restore_raises (env : Env) (locationKey : string) (keys : list string)
  : option exn :=
  match keys with
  | [] => None
  | cacheKey :: rest =>
      match turn_raises env locationKey cacheKey with
      | Some e => Some e
      | None => restore_raises env locationKey rest
      end
  end.

(** The write made by [cache.set] at the end of a restore. *)
Definition restore_write (c : Cache) : list Effect :=
  match set c with
  | SetPersist =>
      [SessionStorageSetItem storageKey {| cached := cached (state c); next := [] |}]
  | SetNoop => []
  end.

Definition restored_cache (c : Cache) : Cache :=
  match set c with
  | SetPersist => persisting {| cached := cached (state c); next := [] |}
  | SetNoop => c
  end.

(** Every call of a restore that does not throw, in order. *)
Definition restore_effects (options : ScrollRestorationOptions) (env : Env)
           (locationKey : string) (c : Cache) : list Effect :=
  let loop := restore_calls options env locationKey (cached (state c))
                            (obj_keys (cached (state c))) false in
  (fst loop ++ (if snd loop then [] else [ScrollToXY (Num 0) (Num 0)]) ++ restore_write c)%list.

(** The entry stored under [cacheKey] is a window entry for
    [locationKey], as the restore loop reads composite keys: the first
    two pieces between delimiters are the location key and the window
    sentinel. *)
Definition is_window_entry_for (locationKey cacheKey : string) : bool :=
  match Js.split cacheKey delimiter with
  | key :: elementSelector :: _ =>
      String.eqb key locationKey && String.eqb elementSelector windowKey
  | _ => false
  end.

Definition is_element_assignment (e : Effect) : bool :=
  match e with
  | SetScrollLeft _ _ | SetScrollTop _ _ => true
  | _ => false
  end.

(** A run of scroll events, in order. *)
Fixpoint scrolls (targets : list EventTarget) : M unit :=
  match targets with
  | [] => ret tt
  | t :: rest => onScroll t ;;; scrolls rest
  end.

(** The world in which a computation ends, whether it returns or
    throws. *)
Definition world_after {A} (r : completion (A * World) (exn * World)) : World :=
  match r with
  | Normal (_, w) => w
  | Throw (_, w) => w
  end.

(** The location key that an element query derives: its key function
    applied to the location it reads. *)
Definition query_key (options : ElementScrollRestorationOptions) (env : Env) : string :=
  match element_getKey options with Some f => f | None => defaultGetKey end
    (match element_getCurrentLocation options with
     | Some f => f
     | None => defaultGetCurrentLocation
     end env).

(** ** Location keys and the delimiter *)

Fixpoint contains (sub s : string) : bool :=
  match s with
  | EmptyString => prefix sub s
  | String _ s' => prefix sub s || contains sub s'
  end.

Fixpoint ends_with_underscore (s : string) : bool :=
  match s with
  | EmptyString => false
  | String c EmptyString => Ascii.eqb c "_"
  | String _ s' => ends_with_underscore s'
  end.

(** A location key after which the appended delimiter is the first one
    found: it holds no delimiter and does not end with an underscore. *)
Definition clean_key (locationKey : string) : bool :=
  negb (contains delimiter locationKey) && negb (ends_with_underscore locationKey).

(** The composite keys written by saves under [locationKey]. *)
Definition saved_under (locationKey cacheKey : string) : bool :=
  prefix (locationKey ++ delimiter) cacheKey.

Definition without (locationKey : string) (c : CacheValue) : CacheValue :=
  filter (fun kv => negb (saved_under locationKey (fst kv))) c.

Definition with_cached (c : CacheValue) (w : World) : World :=
  with_cache {| state := {| cached := c; next := next (state (cache w)) |};
                set := set (cache w) |} w.

(** The calls of a restore, without the final write of the cache: those
    of the loop and, when the loop ends without an exception and without
    a window entry, the scroll to the origin. *)
Definition restore_scrolls (options : ScrollRestorationOptions) (env : Env)
           (locationKey : string) (c : CacheValue) : list Effect :=
  let loop := restore_calls options env locationKey c (obj_keys c) false in
  (fst loop
     ++ match restore_raises env locationKey (obj_keys c) with
        | Some _ => []
        | None => if snd loop then [] else [ScrollToXY (Num 0) (Num 0)]
        end)%list.

(** ** The selector of an element *)

(** The levels recorded for a node, outermost first: none when the node
    has no parent or when its parent is named HTML. *)
Fixpoint selector_levels (current : Node) : list string :=
  match current with
  | mkNode _ _ _ _ _ _ _ None => []
  | mkNode _ _ _ _ _ _ _ (Some parent) =>
      if String.eqb (nodeName parent) "HTML" then []
      else (selector_levels parent ++ [nth_child_part current parent])%list
  end.

(** The walk as the specification words it: every node from the element
    upwards is recorded until the document root, the node named HTML, is
    reached; the root itself is left out. *)
Fixpoint computeSelector_levels (current : Node) : list string :=
  match current with
  | mkNode _ name _ _ _ _ _ p =>
      if String.eqb name "HTML" then []
      else match p with
           | None => []
           | Some parent =>
               (computeSelector_levels parent ++ [nth_child_part current parent])%list
           end
  end.

Definition computeSelector (el : Node) : string :=
  Js.toLowerCase (Js.join (computeSelector_levels el) " > ").

Definition is_storage_write (e : Effect) : bool :=
  match e with
  | SessionStorageSetItem _ _ => true
  | _ => false
  end.

(** What the listener of the save event logs: writes to the storage
    and, when it throws, the report of the exception. *)
Definition is_save_effect (e : Effect) : bool :=
  match e with
  | SessionStorageSetItem _ _ | ReportError _ => true
  | _ => false
  end.

(** ** Concrete scenarios *)

Module Scenario.

Definition page (path : string) : Location :=
  {| href := path; pathname := path; search := ""; hash := ""; loc_state := None |}.

(** The page at [path] when the history state carries the key [k]. *)
Definition keyed (path k : string) : Location :=
  {| href := path; pathname := path; search := ""; hash := "";
     loc_state := Some {| key := Some k |} |}.

Definition no_options : ScrollRestorationOptions :=
  {| getKey := None; scrollBehavior := None; getCurrentLocation := None |}.

Definition nothing_found : string -> completion (option Node) exn :=
  fun _ => Normal None.

(** A browser window scrolled to [(x, y)], showing [location]. *)
Definition browser (x y : Z) (location : Location)
           (lookup : string -> completion (option Node) exn) : Env :=
  {| window_defined := true;
     window_scrollX := Num x;
     window_scrollY := Num y;
     window_location := location;
     sessionStorage := Some (fun _ => None);
     querySelector := lookup |}.

(** A browser whose storage holds [text] under every key. *)
Definition browser_storing (text : option string) : Env :=
  {| window_defined := true;
     window_scrollX := Num 0;
     window_scrollY := Num 0;
     window_location := page "/";
     sessionStorage := Some (fun _ => text);
     querySelector := nothing_found |}.

Definition world (st : CacheState) (location : Location) : World :=
  {| cache := persisting st;
     weakScrolledElements := [];
     locationRef := location;
     lastLocation := location;
     frames := [];
     effects := [] |}.

Definition placeholder : ScrollEntry := {| scrollX := NaN; scrollY := NaN |}.

(** A small document: [html] with [head] and [body], a [div] in the
    body that is scrolled to (7, 9) and carries the identifier ["list"]. *)
Definition document_node : Node :=
  mkNode 0 "#document" "" None (Num 0) (Num 0) [1] None.
Definition html : Node :=
  mkNode 1 "HTML" "HTML" None (Num 0) (Num 0) [2; 3] (Some document_node).
Definition body : Node :=
  mkNode 3 "BODY" "BODY" None (Num 0) (Num 0) [4] (Some html).
Definition list_div : Node :=
  mkNode 4 "DIV" "DIV" (Some "list") (Num 7) (Num 9) [] (Some body).

Definition finds_list_div : string -> completion (option Node) exn :=
  fun _ => Normal (Some list_div).

(** An identifier that holds a double quote, the letter a, the quote
    and the letter b; in its attribute selector the quoted value ends
    at that quote, so the string is not a valid selector. *)
Definition quoted_id : string := "a" ++ Js.dquote ++ "b".

(** A second [div] in the body, which carries the quoted identifier. *)
Definition quoted_div : Node :=
  mkNode 5 "DIV" "DIV" (Some quoted_id) (Num 3) (Num 5) [] (Some body).

(** A lookup that finds nothing and throws for two strings that are not
    valid selectors: the bare digit 1 and the attribute selector of the
    quoted identifier. *)
Definition strict : string -> completion (option Node) exn :=
  fun s =>
    if String.eqb s "1" || String.eqb s (element_selector quoted_id)
    then Throw SyntaxError
    else Normal None.

Definition pending_window_and_empty : World :=
  world {| cached := []; next := [(windowKey, placeholder); ("", placeholder)] |}
        (page "/page1").

Definition pending_empty : World :=
  world {| cached := []; next := [("", placeholder)] |} (page "/page1").

Definition pending_window : World :=
  world {| cached := []; next := [(windowKey, placeholder)] |} (page "/page1").

Definition pending_list : World :=
  world {| cached := []; next := [(element_selector "list", placeholder)] |}
        (page "/a___window").

(** The window is pending on "/page1" while the committed map holds an
    entry for "/page1" whose selector is the bare digit. *)
Definition seeded_page1 : World :=
  world {| cached := [("/page1___1", {| scrollX := Num 1; scrollY := Num 2 |})];
           next := [(windowKey, placeholder)] |}
        (page "/page1").

(** The window, the element with the quoted identifier and the list are
    pending, in this order. *)
Definition pending_with_quoted : World :=
  world {| cached := [];
           next := [(windowKey, placeholder);
                    (element_selector quoted_id, placeholder);
                    (element_selector "list", placeholder)] |}
        (page "/page1").

(** The same cache once the window has scrolled. *)
Definition seeded_scrolled : World :=
  {| cache := cache seeded_page1;
     weakScrolledElements := [TargetWindow];
     locationRef := page "/page1";
     lastLocation := page "/page1";
     frames := [];
     effects := [] |}.

(** A key of the history state that holds the delimiter followed by
    the beginning of an attribute selector, and an identifier that holds
    the delimiter followed by the beginning of the attribute selector of
    the list. *)
Definition odd_key : string :=
  "/p___[data-scroll-restoration-id=" ++ Js.dquote ++ "x".

Definition odd_id : string :=
  "x___[data-scroll-restoration-id=" ++ Js.dquote ++ "list".

Definition committed_elsewhere : World :=
  world {| cached := [("/other___window", {| scrollX := Num 1; scrollY := Num 2 |});
                      ("/page1___main", {| scrollX := Num 3; scrollY := Num 4 |})];
           next := [] |}
        (page "/page1").

Definition committed_a_and_b : World :=
  world {| cached := [("/a___window", {| scrollX := Num 1; scrollY := Num 2 |});
                      ("/b___window", {| scrollX := Num 3; scrollY := Num 4 |})];
           next := [] |}
        (page "/b").

Definition list_query : ElementScrollRestorationOptions :=
  {| id := Some "list";
     getElement := None;
     element_getKey := None;
     element_getCurrentLocation := Some (fun _ => page "/list") |}.

(** The list is pending on the page "/p" whose history state carries
    the odd key. *)
Definition pending_list_on_odd : World :=
  world {| cached := []; next := [(element_selector "list", placeholder)] |}
        (keyed "/p" odd_key).

(** The query for the odd identifier on the page "/p", without a key in
    the history state. *)
Definition odd_query : ElementScrollRestorationOptions :=
  {| id := Some odd_id;
     getElement := None;
     element_getKey := None;
     element_getCurrentLocation := Some (fun _ => page "/p") |}.

Definition committed_list : World :=
  world {| cached := [(composite "/list" (element_selector "list"),
                       {| scrollX := Num 50; scrollY := Num 100 |})];
           next := [] |}
        (page "/list").

End Scenario.

(** * The whole state machine *)

(** The state most recently handed to [sessionStorage.setItem] by the
    calls [es], if any. *)
Fixpoint last_write (es : list Effect) : option CacheState :=
  match es with
  | [] => None
  | e :: rest =>
      match last_write rest with
      | Some st => Some st
      | None =>
          match e with
          | SessionStorageSetItem _ st => Some st
          | _ => None
          end
      end
  end.

(** Both maps hold each key once and a cache with the empty [set] is
    still the default one. *)
Definition sound (w : World) : Prop :=
  obj_wf (next (state (cache w)))
  /\ obj_wf (cached (state (cache w)))
  /\ cache_ok (cache w).

(** How a world [w'] relates to an earlier world [w]: the kind of cache
    is the same, no committed key is gone, the effect log has only grown,
    nothing was written by a cache with the empty [set], and either the
    last state written is the current one or nothing was written and the
    cache is untouched. *)
Definition follows (w w' : World) : Prop :=
  set (cache w') = set (cache w)
  /\ (forall k, In k (obj_keys (cached (state (cache w)))) ->
                In k (obj_keys (cached (state (cache w')))))
  /\ exists new,
       effects w' = (effects w ++ new)%list
       /\ (set (cache w) = SetNoop -> last_write new = None)
       /\ (last_write new = Some (state (cache w'))
           \/ (last_write new = None /\ cache w' = cache w)).

(** A computation that, from a sound world, ends normally in a sound
    world that follows the first. *)
Definition steady (m : M unit) : Prop :=
  forall w, sound w ->
    exists w', m w = Normal (tt, w') /\ sound w' /\ follows w w'.

(** A computation that, from a sound world, returns or throws in a sound
    world that follows the first. *)
Definition settles (m : M unit) : Prop :=
  forall w, sound w ->
    exists w',
      (m w = Normal (tt, w') \/ exists e, m w = Throw (e, w'))
      /\ sound w' /\ follows w w'.

(** What can happen to a mounted hook. *)
Inductive Action : Type :=
| Scroll (target : EventTarget)
| SaveSignal (env : Env)
| RestoreSignal (env : Env)
| PopState (env : Env)
| AnimationFrame (env : Env).

Definition act (options : ScrollRestorationOptions) (a : Action) : M unit :=
  match a with
  | Scroll target => onScroll target
  | SaveSignal env => saveCurrentScrollPositions options env
  | RestoreSignal env => restoreScrollPositions_trigger options env
  | PopState env => handlePopState options env
  | AnimationFrame env => animation_frame options env
  end.

Fixpoint run (options : ScrollRestorationOptions) (actions : list Action) : M unit :=
  match actions with
  | [] => ret tt
  | a :: rest => act options a ;;; run options rest
  end.

(** More scenarios. *)
Module Session.

(** The world of a page without storage: the fallback cache. *)
Definition without_storage : World :=
  {| cache := {| state := default_state; set := SetNoop |};
     weakScrolledElements := [];
     locationRef := Scenario.page "/page1";
     lastLocation := Scenario.page "/page1";
     frames := [];
     effects := [] |}.

(** A visit: the window and the list are scrolled, the user goes to
    "/page2", two frames pass, the list is scrolled again, and a save is
    requested. *)
Definition visit : list Action :=
  [Scroll TargetWindow;
   Scroll (TargetElement Scenario.list_div);
   PopState (Scenario.browser 100 200 (Scenario.page "/page2") Scenario.finds_list_div);
   AnimationFrame (Scenario.browser 0 0 (Scenario.page "/page2") Scenario.finds_list_div);
   AnimationFrame (Scenario.browser 0 0 (Scenario.page "/page2") Scenario.finds_list_div);
   Scroll (TargetElement Scenario.list_div);
   SaveSignal (Scenario.browser 0 50 (Scenario.page "/page2") Scenario.finds_list_div)].

(** A visit that meets rejected selectors: the element with the quoted
    identifier scrolls, a save is requested, the user goes to "/page2"
    and comes back to "/page1", where the committed map holds the seeded
    entry, and the frames of both navigations pass. *)
Definition rough : list Action :=
  [Scroll (TargetElement Scenario.quoted_div);
   SaveSignal (Scenario.browser 100 200 (Scenario.page "/page1") Scenario.strict);
   PopState (Scenario.browser 0 0 (Scenario.page "/page2") Scenario.strict);
   PopState (Scenario.browser 0 0 (Scenario.page "/page1") Scenario.strict);
   AnimationFrame (Scenario.browser 0 0 (Scenario.page "/page1") Scenario.strict);
   AnimationFrame (Scenario.browser 0 0 (Scenario.page "/page1") Scenario.strict)].

End Session.

Module Visit.

(** The list of the small document is pending on the page "/list". *)
Definition list_pending : World :=
  Scenario.world
    {| cached := []; next := [(element_selector "list", Scenario.placeholder)] |}
    (Scenario.page "/list").

Definition on_list : Env :=
  Scenario.browser 0 0 (Scenario.page "/list") Scenario.finds_list_div.

(** A first visit of "/list": nothing pending, nothing committed; then
    the list scrolls; then a save runs. *)
Definition fresh : World :=
  Scenario.world {| cached := []; next := [] |} (Scenario.page "/list").

Definition scrolled : World :=
  world_after (onScroll (TargetElement Scenario.list_div) fresh).

Definition saved : World :=
  world_after (saveScrollPositions Scenario.no_options on_list (Scenario.page "/list")
                 scrolled).

End Visit.

Module Back.

(** On "/page1" with the window scrolled, while the committed map
    remembers the window of "/page2". *)
Definition on_page1 : World :=
  Scenario.world
    {| cached := [("/page2___window", {| scrollX := Num 150; scrollY := Num 250 |})];
       next := [(windowKey, Scenario.placeholder)] |}
    (Scenario.page "/page1").

Definition at_page2 : Env :=
  Scenario.browser 100 200 (Scenario.page "/page2") Scenario.nothing_found.

Definition at_page3 : Env :=
  Scenario.browser 0 0 (Scenario.page "/page3") Scenario.nothing_found.

End Back.

Module Edge.

Definition plain_keys : World :=
  Scenario.world
    {| cached := [("/page1", {| scrollX := Num 5; scrollY := Num 6 |})]; next := [] |}
    (Scenario.page "/page1").

Definition no_window : Env :=
  {| window_defined := false;
     window_scrollX := Num 0;
     window_scrollY := Num 0;
     window_location := Scenario.page "/";
     sessionStorage := None;
     querySelector := Scenario.nothing_found |}.

Definition no_element : ElementScrollRestorationOptions :=
  {| id := None;
     getElement := Some (fun _ => None);
     element_getKey := None;
     element_getCurrentLocation := None |}.

End Edge.

Module Siblings.

(** A [main] in the body, with two [div] children. *)
Definition body : Node :=
  mkNode 3 "BODY" "BODY" None (Num 0) (Num 0) [6] (Some Scenario.html).
Definition main : Node :=
  mkNode 6 "MAIN" "MAIN" None (Num 0) (Num 0) [7; 8] (Some body).
Definition first : Node :=
  mkNode 7 "DIV" "DIV" None (Num 0) (Num 0) [] (Some main).
Definition second : Node :=
  mkNode 8 "DIV" "DIV" None (Num 0) (Num 0) [] (Some main).

End Siblings.

(** * helpers.ts: throttle

    The closure returned by [throttle(func, wait)]: its three variables
    are the state; [Date.now()] and the identifier that [setTimeout]
    returns are given by the host. The identifier is a positive number,
    so [if (timeout)] tests whether a timer is set. *)

Module Throttle.
Section Throttled.
Variable A : Type.
Variable wait : Z.

Record State := {
  timeout : option positive;
  lastArgs : option A;
  lastCallTime : Z
}.

Inductive Call : Type :=
| Apply (args : A)
| SetTimeout (timer : positive) (delay : Z)
| ClearTimeout (timer : positive).

Definition initial : State :=
  {| timeout := None; lastArgs := None; lastCallTime := 0 |}.

(** The returned function, called with [args] at time [now]. *)
Definition throttled (now : Z) (fresh : positive) (args : A) (s : State)
  : State * list Call :=
  let remaining := (wait - (now - lastCallTime s))%Z in
  if (remaining <=? 0)%Z || (wait <? remaining)%Z then
    ({| timeout := None; lastArgs := Some args; lastCallTime := now |},
     (match timeout s with
      | Some timer => [ClearTimeout timer]
      | None => []
      end ++ [Apply args])%list)
  else
    match timeout s with
    | None =>
        ({| timeout := Some fresh; lastArgs := Some args;
            lastCallTime := lastCallTime s |},
         [SetTimeout fresh remaining])
    | Some timer =>
        ({| timeout := Some timer; lastArgs := Some args;
            lastCallTime := lastCallTime s |}, [])
    end.

(** The callback given to [setTimeout], run at time [now]. *)
Definition timer_callback (now : Z) (s : State) : State * list Call :=
  ({| timeout := None; lastArgs := lastArgs s; lastCallTime := now |},
   match lastArgs s with
   | Some args => [Apply args]
   | None => []
   end).

(** The host: its clock, and when the one timer of the closure is due. *)
Record Host := { closure : State; due : option Z; clock : Z }.

Inductive Event : Type :=
| Invoke (now : Z) (fresh : positive) (args : A)
| Fire (now : Z).

(** The timer table after the calls made at time [now]. *)
Fixpoint timer_after (now : Z) (calls : list Call) (d : option Z) : option Z :=
  match calls with
  | [] => d
  | SetTimeout _ delay :: rest => timer_after now rest (Some (now + delay)%Z)
  | ClearTimeout _ :: rest => timer_after now rest None
  | Apply _ :: rest => timer_after now rest d
  end.

(** The applications of [func] among the calls, with their time. *)
Fixpoint applications (now : Z) (calls : list Call) : list (Z * A) :=
  match calls with
  | [] => []
  | Apply args :: rest => (now, args) :: applications now rest
  | _ :: rest => applications now rest
  end.

(** One event; [None] when the host cannot produce it: the clock does
    not go back, and a timer fires only when set and not before it is
    due. *)
Definition step (e : Event) (h : Host) : option (Host * list (Z * A)) :=
  match e with
  | Invoke now fresh args =>
      if (now <? clock h)%Z then None
      else
        let (s, calls) := throttled now fresh args (closure h) in
        Some ({| closure := s; due := timer_after now calls (due h); clock := now |},
              applications now calls)
  | Fire now =>
      match due h with
      | Some d =>
          if (d <=? now)%Z && (clock h <=? now)%Z then
            let (s, calls) := timer_callback now (closure h) in
            Some ({| closure := s; due := None; clock := now |},
                  applications now calls)
          else None
      | None => None
      end
  end.

Fixpoint play (events : list Event) (h : Host) : option (Host * list (Z * A)) :=
  match events with
  | [] => Some (h, [])
  | e :: rest =>
      match step e h with
      | Some (h1, apps1) =>
          match play rest h1 with
          | Some (h2, apps2) => Some (h2, (apps1 ++ apps2)%list)
          | None => None
          end
      | None => None
      end
  end.

(** Each time is at least [wait] after the one before, starting after
    [previous]. *)
Fixpoint spaced (previous : Z) (times : list Z) : Prop :=
  match times with
  | [] => True
  | t :: rest => (previous + wait <= t)%Z /\ spaced t rest
  end.

(** The closure and the timer table agree, the last application is not
    in the future, and a pending timer is due [wait] after it and has
    arguments to apply. *)
Definition consistent (h : Host) : Prop :=
  (lastCallTime (closure h) <= clock h)%Z
  /\ match due h with
     | Some d =>
         timeout (closure h) <> None
         /\ d = (lastCallTime (closure h) + wait)%Z
         /\ lastArgs (closure h) <> None
     | None => timeout (closure h) = None
     end.

End Throttled.
End Throttle.

Module Burst.

(** Three calls within one window of 100 ms, then the timer. *)
Definition events : list (Throttle.Event nat) :=
  [Throttle.Invoke nat 1000 1 7;
   Throttle.Invoke nat 1050 2 8;
   Throttle.Invoke nat 1060 3 9;
   Throttle.Fire nat 1100].

Definition idle : Throttle.Host nat :=
  {| Throttle.closure := Throttle.initial nat; Throttle.due := None; Throttle.clock := 0 |}.

Definition waiting : Throttle.Host nat :=
  {| Throttle.closure :=
       {| Throttle.timeout := Some 2%positive;
          Throttle.lastArgs := Some 8;
          Throttle.lastCallTime := 1000 |};
     Throttle.due := Some 1100%Z;
     Throttle.clock := 1050 |}.

End Burst.

(** * The default navigation listener: the mutation observer

    The variables of the closure of [defaultNavigationListener] beside
    [lastLocation], and the host's table of the timers it has set. *)

Module Listener.

Record State := {
  world : World;
  navigationTimeout : option nat;
  timers : list nat;
  popstate_listener : bool;
  observer_connected : bool
}.

(** [window.clearTimeout(timer)] and [window.setTimeout(callback, 0)]. *)
Definition clearTimeout (timer : nat) (table : list nat) : list nat :=
  filter (fun t => negb (Nat.eqb t timer)) table.

Definition setTimeout (fresh : nat) (table : list nat) : list nat :=
  (table ++ [fresh])%list.

(** The callback of the [MutationObserver]; [fresh] is the identifier
    that [setTimeout] returns. *)
Definition observer_callback (fresh : nat) (s : State) : State :=
  let table :=
    match navigationTimeout s with
    | Some timer => clearTimeout timer (timers s)
    | None => timers s
    end in
  {| world := world s;
     navigationTimeout := Some fresh;
     timers := setTimeout fresh table;
     popstate_listener := popstate_listener s;
     observer_connected := observer_connected s |}.

(** The callback of the timer: [checkForUrlChange()], then the variable
    is reset. *)
Definition timer_callback (options : ScrollRestorationOptions) (env : Env)
           (onNavigate : Location -> M unit) (s : State) : completion State exn :=
  match checkForUrlChange options env onNavigate (world s) with
  | Normal (_, w) =>
      Normal {| world := w;
                navigationTimeout := None;
                timers := timers s;
                popstate_listener := popstate_listener s;
                observer_connected := observer_connected s |}
  | Throw (e, _) => Throw e
  end.

(** The function that [defaultNavigationListener] returns. *)
Definition cleanup (s : State) : State :=
  {| world := world s;
     navigationTimeout := navigationTimeout s;
     timers := match navigationTimeout s with
               | Some timer => clearTimeout timer (timers s)
               | None => timers s
               end;
     popstate_listener := false;
     observer_connected := false |}.

(** What the host delivers: a batch of mutations with the identifier of
    the timer to come, a timer that is in the table, a history change,
    the unmount. An event whose source is detached is not delivered. *)
Inductive Event : Type :=
| Mutations (fresh : nat)
| TimerFires (timer : nat) (env : Env)
| HistoryChange (env : Env)
| Unmount.

Definition deliver (options : ScrollRestorationOptions) (e : Event) (s : State)
  : completion State exn :=
  match e with
  | Mutations fresh =>
      if observer_connected s then Normal (observer_callback fresh s) else Normal s
  | TimerFires timer env =>
      if existsb (Nat.eqb timer) (timers s) then
        timer_callback options env (fun _ => handleNavigation options env)
          {| world := world s;
             navigationTimeout := navigationTimeout s;
             timers := clearTimeout timer (timers s);
             popstate_listener := popstate_listener s;
             observer_connected := observer_connected s |}
      else Normal s
  | HistoryChange env =>
      if popstate_listener s then
        match handlePopState options env (world s) with
        | Normal (_, w) =>
            Normal {| world := w;
                      navigationTimeout := navigationTimeout s;
                      timers := timers s;
                      popstate_listener := popstate_listener s;
                      observer_connected := observer_connected s |}
        | Throw (e, _) => Throw e
        end
      else Normal s
  | Unmount => Normal (cleanup s)
  end.

Fixpoint deliver_all (options : ScrollRestorationOptions) (events : list Event) (s : State)
  : completion State exn :=
  match events with
  | [] => Normal s
  | e :: rest =>
      match deliver options e s with
      | Normal s1 => deliver_all options rest s1
      | Throw e => Throw e
      end
  end.

(** The state right after [defaultNavigationListener] has run. *)
Definition mounted (w : World) : State :=
  {| world := w;
     navigationTimeout := None;
     timers := [];
     popstate_listener := true;
     observer_connected := true |}.

(** The table holds at most the timer that the variable names. *)
Definition coherent (s : State) : Prop :=
  timers s = []
  \/ exists timer, timers s = [timer] /\ navigationTimeout s = Some timer.

End Listener.

Module Mutation.

(** Two batches of mutations, one after the other, before any timer
    has fired. *)
Definition burst : list Listener.Event :=
  [Listener.Mutations 11; Listener.Mutations 12].

Definition after_burst : Listener.State :=
  {| Listener.world := Scenario.pending_window;
     Listener.navigationTimeout := Some 12;
     Listener.timers := [12];
     Listener.popstate_listener := true;
     Listener.observer_connected := true |}.

Definition later : list Listener.Event :=
  [Listener.TimerFires 12 Back.at_page2; Listener.Mutations 13;
   Listener.HistoryChange Back.at_page2; Listener.Unmount].

End Mutation.

Module Custom.

(** A key function of the caller: the path behind a fixed prefix. *)
Definition options : ScrollRestorationOptions :=
  {| getKey := Some (fun location => "custom-" ++ pathname location);
     scrollBehavior := Some "smooth";
     getCurrentLocation := None |}.

Definition list_query : ElementScrollRestorationOptions :=
  {| id := Some "list";
     getElement := None;
     element_getKey := Some (fun location => "custom-" ++ pathname location);
     element_getCurrentLocation := None |}.

Definition at_page1 : Env :=
  Scenario.browser 100 200 (Scenario.page "/page1") Scenario.finds_list_div.

Definition list_pending : World :=
  Scenario.world
    {| cached := []; next := [(element_selector "list", Scenario.placeholder)] |}
    (Scenario.page "/page1").

End Custom.
(** * Properties *)

(** ** Objects *)

Section ObjFacts.
Context {A : Type}.
Implicit Types (o : obj A) (k : string) (v : A).

Lemma obj_get_set_same k v o : obj_get k (obj_set k v o) = Some v.
Proof.
  induction o as [|[k' v'] o IH]; simpl.
  - now rewrite String.eqb_refl.
  - destruct (String.eqb k' k) eqn:E; simpl; rewrite E; auto.
Qed.

Lemma obj_get_set_other k k' v o :
  k' <> k -> obj_get k (obj_set k' v o) = obj_get k o.
Proof.
  intros Hne. induction o as [|[k0 v0] o IH]; simpl.
  - destruct (String.eqb_spec k' k); congruence.
  - destruct (String.eqb_spec k0 k'); simpl.
    + subst. destruct (String.eqb_spec k' k); congruence.
    + destruct (String.eqb_spec k0 k); auto.
Qed.

Lemma obj_get_in_keys k o : In k (obj_keys o) -> exists v, obj_get k o = Some v.
Proof.
  induction o as [|[k' v'] o IH]; simpl; [tauto|].
  intros [->|Hin].
  - rewrite String.eqb_refl. eauto.
  - destruct (String.eqb k' k); eauto.
Qed.

Lemma obj_get_some_in_keys k v o : obj_get k o = Some v -> In k (obj_keys o).
Proof.
  induction o as [|[k' v'] o IH]; simpl; [discriminate|].
  destruct (String.eqb_spec k' k); auto.
Qed.

Lemma obj_delete_absent k o : ~ In k (obj_keys o) -> obj_delete k o = o.
Proof.
  induction o as [|[k' v'] o IH]; simpl; auto.
  intros Hn. destruct (String.eqb_spec k' k).
  - subst. tauto.
  - f_equal. apply IH. tauto.
Qed.

Lemma obj_keys_set_present k v o :
  In k (obj_keys o) -> obj_keys (obj_set k v o) = obj_keys o.
Proof.
  induction o as [|[k' v'] o IH]; simpl; [tauto|].
  intros Hin. destruct (String.eqb_spec k' k); simpl; auto.
  f_equal. apply IH. destruct Hin; congruence.
Qed.

Lemma obj_keys_set_absent k v o :
  ~ In k (obj_keys o) -> obj_keys (obj_set k v o) = (obj_keys o ++ [k])%list.
Proof.
  induction o as [|[k' v'] o IH]; simpl; auto.
  intros Hn. destruct (String.eqb_spec k' k); simpl.
  - subst. tauto.
  - f_equal. apply IH. tauto.
Qed.

Lemma obj_keys_set_in k k' v o :
  In k (obj_keys o) -> In k (obj_keys (obj_set k' v o)).
Proof.
  intros Hin. destruct (in_dec string_dec k' (obj_keys o)) as [Hp|Ha].
  - now rewrite obj_keys_set_present.
  - rewrite obj_keys_set_absent by assumption. apply in_or_app. now left.
Qed.

Lemma obj_set_wf k v o : obj_wf o -> obj_wf (obj_set k v o).
Proof.
  unfold obj_wf. intros Hwf.
  destruct (in_dec string_dec k (obj_keys o)) as [Hin|Hn].
  - now rewrite obj_keys_set_present.
  - rewrite obj_keys_set_absent by assumption.
    apply NoDup_app; auto.
    + constructor; [simpl; tauto | constructor].
    + intros x Hx [<-|[]]. contradiction.
Qed.

Lemma obj_get_in k v o : obj_wf o -> In (k, v) o -> obj_get k o = Some v.
Proof.
  unfold obj_wf. induction o as [|[k' v'] o IH]; simpl; [tauto|].
  intros Hnd Hin. inversion Hnd as [|? ? Hfresh Hrest]; subst.
  destruct Hin as [Heq|Hin].
  - inversion Heq; subst. now rewrite String.eqb_refl.
  - destruct (String.eqb_spec k' k).
    + subst. exfalso. apply Hfresh. change k with (fst (k, v)). now apply in_map.
    + auto.
Qed.

Lemma obj_get_some_in k v o : obj_get k o = Some v -> In (k, v) o.
Proof.
  induction o as [|[k' v'] o IH]; simpl; [discriminate|].
  destruct (String.eqb_spec k' k).
  - intros [= ->]. subst. auto.
  - auto.
Qed.

End ObjFacts.

(** ** Worlds *)

Lemma add_effects_nil w : add_effects [] w = w.
Proof. destruct w. unfold add_effects. simpl. now rewrite app_nil_r. Qed.

Lemma add_effects_add es1 es2 w :
  add_effects es2 (add_effects es1 w) = add_effects (es1 ++ es2)%list w.
Proof. unfold add_effects. simpl. now rewrite app_assoc. Qed.

Lemma with_cache_same w : with_cache (cache w) w = w.
Proof. now destruct w. Qed.

Lemma with_cache_twice c1 c2 w : with_cache c2 (with_cache c1 w) = with_cache c2 w.
Proof. reflexivity. Qed.

Lemma add_effects_with_cache es c w :
  add_effects es (with_cache c w) = with_cache c (add_effects es w).
Proof. reflexivity. Qed.

(** ** Strings *)

Lemma append_inj_l (a b c : string) : a ++ b = a ++ c -> b = c.
Proof. induction a; simpl; intros H; [assumption|]. inversion H. auto. Qed.

Lemma append_assoc (a b c : string) : (a ++ b) ++ c = a ++ (b ++ c).
Proof. induction a; simpl; congruence. Qed.

Lemma append_nil_r (a : string) : a ++ "" = a.
Proof. induction a; simpl; congruence. Qed.

Lemma composite_eq locationKey elementSelector :
  useScrollRestoration.composite locationKey elementSelector
  = locationKey ++ delimiter ++ elementSelector.
Proof. reflexivity. Qed.

Lemma composite_inj locationKey s1 s2 :
  useScrollRestoration.composite locationKey s1
  = useScrollRestoration.composite locationKey s2 -> s1 = s2.
Proof.
  rewrite !composite_eq. intros H.
  apply append_inj_l in H. now apply append_inj_l in H.
Qed.

(** ** Saving *)

Lemma finish_none w : finish None w = Normal (tt, w).
Proof. reflexivity. Qed.

Lemma save_body_persist env locationKey k e rest c w :
  ~ In k (obj_keys rest) ->
  cache w = persisting {| cached := c; next := (k, e) :: rest |} ->
  save_body env locationKey k w
  = match read_offsets env k e with
    | Normal entry =>
        Normal (tt,
          add_effects
            [SessionStorageSetItem storageKey
               {| cached := obj_set (composite locationKey k) entry c; next := rest |}]
            (with_cache
               (persisting
                  {| cached := obj_set (composite locationKey k) entry c;
                     next := rest |}) w))
    | Throw x => Throw (x, w)
    end.
Proof.
  intros Hfresh Hc.
  unfold save_body, bind, get_cache. rewrite Hc.
  cbn [state next persisting obj_get]. rewrite String.eqb_refl.
  unfold lift. destruct (read_offsets env k e) as [entry|x]; [|reflexivity].
  unfold assign_entry, bind, get_cache, put_cache, cache_set, bind, get_cache, emit.
  cbn [cache with_cache state set next cached functionalUpdate obj_set].
  rewrite Hc.
  cbn [state set next cached persisting obj_set obj_delete].
  rewrite !String.eqb_refl.
  cbn [state set next cached persisting obj_set obj_delete cache with_cache functionalUpdate].
  rewrite !String.eqb_refl.
  rewrite (obj_delete_absent k rest Hfresh).
  reflexivity.
Qed.

Lemma save_loop_persist env locationKey pending :
  obj_wf pending ->
  forall c w,
    cache w = persisting {| cached := c; next := pending |} ->
    for_in (obj_keys pending) (save_body env locationKey) w
    = finish (save_raises env pending)
        (add_effects (save_writes env locationKey pending c)
           (with_cache (persisting {| cached := committed env locationKey pending c;
                                      next := uncommitted env pending |}) w)).
Proof.
  induction pending as [|[k e] rest IH]; intros Hwf c w Hc.
  - simpl. unfold ret. rewrite add_effects_with_cache, add_effects_nil.
    now rewrite <- Hc, with_cache_same.
  - inversion Hwf as [|? ? Hfresh Hrest]; subst.
    cbn [obj_keys map fst for_in].
    unfold bind. rewrite (save_body_persist env locationKey k e rest c w Hfresh Hc).
    cbn [save_raises save_writes committed uncommitted].
    destruct (read_offsets env k e) as [entry|x].
    + fold (obj_keys rest).
      rewrite (IH Hrest (obj_set (composite locationKey k) entry c)) by reflexivity.
      destruct (save_raises env rest); cbn [finish];
        unfold add_effects, with_cache;
        cbn [cache weakScrolledElements locationRef lastLocation frames effects];
        rewrite <- app_assoc; reflexivity.
    + cbn [finish]. rewrite add_effects_with_cache, add_effects_nil.
      now rewrite <- Hc, with_cache_same.
Qed.

Lemma pending_split env pending :
  pending = (migrated env pending ++ uncommitted env pending)%list.
Proof.
  induction pending as [|[k e] rest IH]; [reflexivity|].
  cbn [migrated uncommitted]. destruct (read_offsets env k e); [|reflexivity].
  cbn [app]. now rewrite <- IH.
Qed.

Lemma read_offsets_throw env sel entry x :
  read_offsets env sel entry = Throw x ->
  looked_up sel = true /\ querySelector env sel = Throw x.
Proof.
  unfold read_offsets, looked_up.
  destruct (String.eqb sel windowKey); [discriminate|].
  destruct (Js.truthy sel); [|discriminate].
  destruct (querySelector env sel) as [r|y]; [discriminate|].
  intros [= ->]. auto.
Qed.

Lemma read_offsets_normal env sel entry v :
  read_offsets env sel entry = Normal v ->
  (looked_up sel = true -> accepts env sel = true)
  /\ v = (if Js.truthy sel then live_offsets env sel else entry).
Proof.
  unfold read_offsets, looked_up, accepts, live_offsets.
  destruct (String.eqb sel windowKey) eqn:Hw.
  - intros [= <-]. split; [discriminate|].
    destruct (Js.truthy sel) eqn:Ht; [reflexivity|].
    apply String.eqb_eq in Hw. subst. discriminate Ht.
  - destruct (Js.truthy sel).
    + destruct (querySelector env sel) as [[element|]|y]; [| |discriminate];
        intros [= <-]; split; reflexivity.
    + intros [= <-]. split; [discriminate|reflexivity].
Qed.

Lemma read_offsets_accepted env sel entry :
  negb (looked_up sel) || accepts env sel = true ->
  exists v, read_offsets env sel entry = Normal v.
Proof.
  unfold read_offsets, looked_up, accepts.
  destruct (String.eqb sel windowKey); [eauto|].
  destruct (Js.truthy sel); [|eauto].
  destruct (querySelector env sel); [eauto|discriminate].
Qed.

(** The loop stops exactly at the first selector that is looked up and
    rejected. *)
Lemma uncommitted_head env pending :
  match uncommitted env pending with
  | [] => save_raises env pending = None
  | (sel, _) :: _ =>
      looked_up sel = true
      /\ exists x, querySelector env sel = Throw x /\ save_raises env pending = Some x
  end.
Proof.
  induction pending as [|[k e] rest IH]; [reflexivity|].
  cbn [uncommitted save_raises].
  destruct (read_offsets env k e) as [v|x] eqn:Hread; [exact IH|].
  destruct (read_offsets_throw _ _ _ _ Hread) as [Hl Hq]. eauto.
Qed.

Lemma save_accepts_all env pending :
  save_accepts env pending = true ->
  save_raises env pending = None
  /\ uncommitted env pending = []
  /\ migrated env pending = pending.
Proof.
  unfold save_accepts, obj_keys. induction pending as [|[k e] rest IH]; [auto|].
  cbn [map fst forallb]. intros H. apply andb_prop in H. destruct H as [Hk Hrest].
  cbn [save_raises uncommitted migrated].
  destruct (read_offsets_accepted env k e Hk) as [v ->].
  destruct (IH Hrest) as (H1 & H2 & H3). rewrite H3. auto.
Qed.

Lemma save_raises_none env pending :
  save_raises env pending = None -> save_accepts env pending = true.
Proof.
  unfold save_accepts, obj_keys. induction pending as [|[k e] rest IH]; [reflexivity|].
  cbn [save_raises map fst forallb].
  destruct (read_offsets env k e) as [v|x] eqn:Hread; [|discriminate].
  intros H. rewrite (IH H), andb_true_r.
  destruct (looked_up k) eqn:Hl; [|reflexivity].
  cbn [negb orb]. now apply (read_offsets_normal _ _ _ _ Hread).
Qed.

Lemma migrated_keys_in env pending sel :
  In sel (obj_keys (migrated env pending)) -> In sel (obj_keys pending).
Proof.
  rewrite (pending_split env pending) at 2. unfold obj_keys. rewrite map_app.
  intros H. apply in_or_app. now left.
Qed.

Lemma migrated_wf env pending : obj_wf pending -> obj_wf (migrated env pending).
Proof.
  unfold obj_wf. rewrite (pending_split env pending) at 1.
  unfold obj_keys. rewrite map_app. apply NoDup_app_remove_r.
Qed.

Lemma uncommitted_wf env pending : obj_wf pending -> obj_wf (uncommitted env pending).
Proof.
  unfold obj_wf. rewrite (pending_split env pending) at 1.
  unfold obj_keys. rewrite map_app. apply NoDup_app_remove_l.
Qed.

Lemma committed_other env locationKey pending :
  forall c cacheKey,
    (forall k, In k (obj_keys (migrated env pending)) -> composite locationKey k <> cacheKey) ->
    obj_get cacheKey (committed env locationKey pending c) = obj_get cacheKey c.
Proof.
  induction pending as [|[k e] rest IH]; intros c cacheKey Hother; [reflexivity|].
  cbn [committed]. cbn [migrated] in Hother.
  destruct (read_offsets env k e) as [v|x]; [|reflexivity].
  rewrite IH by (intros k' Hk'; apply Hother; simpl; auto).
  apply obj_get_set_other. apply Hother. simpl. auto.
Qed.

Lemma committed_pending env locationKey pending :
  obj_wf pending ->
  forall c sel entry,
    In (sel, entry) (migrated env pending) ->
    (looked_up sel = true -> accepts env sel = true)
    /\ obj_get (composite locationKey sel) (committed env locationKey pending c)
       = Some (if Js.truthy sel then live_offsets env sel else entry).
Proof.
  induction pending as [|[k e] rest IH]; intros Hwf c sel entry Hin; [destruct Hin|].
  inversion Hwf as [|? ? Hfresh Hrest]; subst.
  cbn [migrated] in Hin. cbn [committed].
  destruct (read_offsets env k e) as [v|x] eqn:Hread; [|destruct Hin].
  destruct Hin as [Heq|Hin].
  - inversion Heq; subst.
    destruct (read_offsets_normal _ _ _ _ Hread) as [Hacc ->].
    split; [exact Hacc|].
    rewrite committed_other.
    + apply obj_get_set_same.
    + intros k' Hk' Heqk. apply composite_inj in Heqk. subst.
      apply Hfresh. now apply (migrated_keys_in env rest).
  - now apply IH.
Qed.

Lemma persisting_eta c : set c = SetPersist ->
  c = persisting {| cached := cached (state c); next := next (state c) |}.
Proof. destruct c as [[? ?] ?]; simpl; intros ->; reflexivity. Qed.

Lemma saveScrollPositions_persist options env currentLocation w :
  window_defined env = true ->
  set (cache w) = SetPersist ->
  obj_wf (next (state (cache w))) ->
  saveScrollPositions options env currentLocation w
  = finish (save_raises env (next (state (cache w))))
      (add_effects
         (save_writes env (getKey' options currentLocation)
            (next (state (cache w))) (cached (state (cache w))))
         (with_cache
            (persisting
               {| cached := committed env (getKey' options currentLocation)
                              (next (state (cache w))) (cached (state (cache w)));
                  next := uncommitted env (next (state (cache w))) |}) w)).
Proof.
  intros Hwin Hset Hwf. unfold saveScrollPositions. rewrite Hwin. cbn [negb].
  unfold bind at 1. unfold get_cache at 1.
  apply save_loop_persist; auto. now apply persisting_eta.
Qed.

Lemma saveScrollPositions_noop options env currentLocation w :
  set (cache w) = SetNoop -> cache_ok (cache w) ->
  saveScrollPositions options env currentLocation w = Normal (tt, w).
Proof.
  intros Hset Hok. unfold saveScrollPositions.
  destruct (window_defined env); cbn [negb]; [|reflexivity].
  unfold bind, get_cache. rewrite (Hok Hset). reflexivity.
Qed.

(** What a save does, whether it ends or stops at a rejected selector:
    the world it reaches holds the pending entries that are left, and
    the committed map with the migrated ones. *)
Lemma saveScrollPositions_outcome options env currentLocation w :
  window_defined env = true ->
  cache_ok (cache w) ->
  obj_wf (next (state (cache w))) ->
  exists w',
    saveScrollPositions options env currentLocation w
    = finish (save_raises env (next (state (cache w)))) w'
    /\ next (state (cache w')) = uncommitted env (next (state (cache w)))
    /\ cached (state (cache w'))
       = committed env (getKey' options currentLocation)
           (next (state (cache w))) (cached (state (cache w)))
    /\ set (cache w') = set (cache w)
    /\ effects w'
       = (effects w ++ save_writes env (getKey' options currentLocation)
                         (next (state (cache w))) (cached (state (cache w))))%list
    /\ weakScrolledElements w' = weakScrolledElements w
    /\ locationRef w' = locationRef w
    /\ lastLocation w' = lastLocation w
    /\ frames w' = frames w.
Proof.
  intros Hwin Hok Hwf. destruct (set (cache w)) eqn:Hset.
  - exists w. rewrite saveScrollPositions_noop by assumption.
    rewrite (Hok Hset). cbn. rewrite app_nil_r. repeat split; auto.
  - eexists. rewrite saveScrollPositions_persist by assumption.
    split; [reflexivity|]. cbn. repeat split; auto.
Qed.

(** ** Restoring *)

Lemma turn_raises_split env locationKey cacheKey :
  turn_raises env locationKey cacheKey
  = match Js.split cacheKey delimiter with
    | key :: elementSelector :: _ =>
        if String.eqb key locationKey then
          if String.eqb elementSelector windowKey then None
          else if Js.truthy elementSelector then
            match querySelector env elementSelector with
            | Normal _ => None
            | Throw e => Some e
            end
          else None
        else None
    | _ => None
    end.
Proof.
  unfold turn_raises, restore_query, looked_up.
  destruct (Js.split cacheKey delimiter) as [|key [|elementSelector rest]];
    try reflexivity.
  destruct (String.eqb key locationKey); [|reflexivity].
  destruct (String.eqb elementSelector windowKey); [reflexivity|].
  destruct (Js.truthy elementSelector); reflexivity.
Qed.

Lemma restore_body_run options env locationKey windowRestored cacheKey entry w :
  obj_get cacheKey (cached (state (cache w))) = Some entry ->
  restore_body options env locationKey windowRestored cacheKey w
  = match turn_raises env locationKey cacheKey with
    | None =>
        Normal (snd (restore_turn options env locationKey windowRestored cacheKey entry),
                add_effects
                  (fst (restore_turn options env locationKey windowRestored cacheKey entry))
                  w)
    | Some e => Throw (e, w)
    end.
Proof.
  intros Hget. rewrite turn_raises_split.
  unfold restore_body, restore_turn, bind, get_cache. rewrite Hget.
  destruct (Js.split cacheKey delimiter) as [|key [|elementSelector rest]];
    cbn [fst snd]; unfold ret, emit, lift;
    repeat match goal with
      | |- context [if ?b then _ else _] => destruct b
      | |- context [querySelector ?e ?s] => destruct (querySelector e s) as [[?|]|?]
      end;
    cbn [fst snd]; rewrite ?add_effects_add, ?add_effects_nil; reflexivity.
Qed.

Lemma restore_loop_run options env locationKey keys :
  forall windowRestored w,
    (forall k, In k keys -> In k (obj_keys (cached (state (cache w))))) ->
    restore_loop options env locationKey keys windowRestored w
    = match restore_raises env locationKey keys with
      | None =>
          Normal (snd (restore_calls options env locationKey (cached (state (cache w)))
                                     keys windowRestored),
                  add_effects
                    (fst (restore_calls options env locationKey (cached (state (cache w)))
                                        keys windowRestored)) w)
      | Some e =>
          Throw (e,
                 add_effects
                   (fst (restore_calls options env locationKey (cached (state (cache w)))
                                       keys windowRestored)) w)
      end.
Proof.
  induction keys as [|k rest IH]; intros windowRestored w Hkeys.
  - cbn. unfold ret. now rewrite add_effects_nil.
  - destruct (obj_get_in_keys k _ (Hkeys k (or_introl eq_refl))) as [entry Hget].
    cbn [restore_loop restore_calls restore_raises]. rewrite Hget. unfold bind.
    rewrite (restore_body_run _ _ _ _ _ _ _ Hget).
    destruct (turn_raises env locationKey k) as [e|].
    + cbn [fst]. now rewrite add_effects_nil.
    + rewrite IH by (intros k' Hk'; apply Hkeys; now right).
      cbn [fst snd add_effects cache].
      destruct (restore_raises env locationKey rest); now rewrite add_effects_add.
Qed.

Lemma restoreScrollPositions_run options env currentLocation w :
  window_defined env = true ->
  restoreScrollPositions options env currentLocation w
  = match restore_raises env (getKey' options currentLocation)
            (obj_keys (cached (state (cache w)))) with
    | None =>
        Normal (tt,
          with_weakScrolledElements []
            (add_effects (restore_effects options env (getKey' options currentLocation)
                                          (cache w))
               (with_cache (restored_cache (cache w)) w)))
    | Some e =>
        Throw (e,
          add_effects
            (fst (restore_calls options env (getKey' options currentLocation)
                    (cached (state (cache w))) (obj_keys (cached (state (cache w))))
                    false)) w)
    end.
Proof.
  intros Hwin. unfold restoreScrollPositions. rewrite Hwin. cbn [negb].
  unfold bind at 1. unfold get_cache at 1.
  unfold bind at 1. rewrite restore_loop_run by auto.
  destruct (restore_raises env (getKey' options currentLocation)
              (obj_keys (cached (state (cache w))))); [reflexivity|].
  unfold restore_effects, restore_write, restored_cache.
  destruct (restore_calls options env (getKey' options currentLocation)
              (cached (state (cache w))) (obj_keys (cached (state (cache w)))) false)
    as [es restored].
  cbn [fst snd].
  destruct restored; cbn [negb]; unfold bind, emit, ret, cache_set, bind, get_cache,
    put_cache, put_weakScrolledElements, emit;
    cbn [cache add_effects with_cache]; destruct (set (cache w)) eqn:Hset;
    unfold with_weakScrolledElements, add_effects, with_cache, persisting;
    cbn [cache weakScrolledElements locationRef lastLocation frames effects
         functionalUpdate state cached];
    rewrite <- ?app_assoc, ?app_nil_r; reflexivity.
Qed.

Lemma restore_accepts_raises env locationKey keys :
  restore_raises env locationKey keys = None
  <-> restore_accepts env locationKey keys = true.
Proof.
  unfold restore_accepts. induction keys as [|k rest IH]; [split; reflexivity|].
  cbn [restore_raises forallb]. unfold turn_raises, accepts.
  destruct (restore_query locationKey k) as [s|].
  - destruct (querySelector env s); cbn [andb]; [exact IH|split; discriminate].
  - exact IH.
Qed.

Lemma restore_accepts_true env locationKey keys :
  restore_accepts env locationKey keys = true ->
  restore_raises env locationKey keys = None.
Proof. apply restore_accepts_raises. Qed.

Lemma restore_accepts_false env locationKey keys :
  restore_accepts env locationKey keys = false ->
  exists e, restore_raises env locationKey keys = Some e.
Proof.
  intros H. destruct (restore_raises env locationKey keys) as [e|] eqn:Hr; [eauto|].
  apply restore_accepts_raises in Hr. congruence.
Qed.

(** What a restore does, whether it ends or stops at a rejected
    selector. *)
Lemma restoreScrollPositions_frame options env currentLocation w :
  exists w',
    cached (state (cache w')) = cached (state (cache w))
    /\ set (cache w') = set (cache w)
    /\ locationRef w' = locationRef w
    /\ lastLocation w' = lastLocation w
    /\ frames w' = frames w
    /\ if negb (window_defined env)
          || restore_accepts env (getKey' options currentLocation)
               (obj_keys (cached (state (cache w))))
       then
         restoreScrollPositions options env currentLocation w = Normal (tt, w')
         /\ next (state (cache w'))
            = (if window_defined env
               then match set (cache w) with
                    | SetPersist => []
                    | SetNoop => next (state (cache w))
                    end
               else next (state (cache w)))
         /\ weakScrolledElements w'
            = (if window_defined env then [] else weakScrolledElements w)
       else
         exists e,
           restoreScrollPositions options env currentLocation w = Throw (e, w')
           /\ next (state (cache w')) = next (state (cache w))
           /\ weakScrolledElements w' = weakScrolledElements w.
Proof.
  destruct (window_defined env) eqn:Hwin; cbn [negb orb].
  - rewrite restoreScrollPositions_run by assumption.
    destruct (restore_accepts env (getKey' options currentLocation)
                (obj_keys (cached (state (cache w))))) eqn:Hacc.
    + rewrite (restore_accepts_true _ _ _ Hacc).
      exists (with_weakScrolledElements []
                (add_effects (restore_effects options env (getKey' options currentLocation)
                                              (cache w))
                   (with_cache (restored_cache (cache w)) w))).
      repeat split; try reflexivity;
        unfold restored_cache; cbn [with_weakScrolledElements add_effects with_cache cache
          weakScrolledElements locationRef lastLocation frames];
        destruct (set (cache w)) eqn:Hset; cbn; rewrite ?Hset; reflexivity.
    + destruct (restore_accepts_false _ _ _ Hacc) as [e ->].
      exists (add_effects
                (fst (restore_calls options env (getKey' options currentLocation)
                        (cached (state (cache w))) (obj_keys (cached (state (cache w))))
                        false)) w).
      repeat split; try reflexivity. exists e. repeat split.
  - exists w. unfold restoreScrollPositions. rewrite Hwin. cbn.
    repeat split; reflexivity.
Qed.

Lemma restore_turn_no_window options env locationKey k entry :
  is_window_entry_for locationKey k = false ->
  snd (restore_turn options env locationKey false k entry) = false
  /\ forallb is_element_assignment
       (fst (restore_turn options env locationKey false k entry)) = true.
Proof.
  intros Hk. unfold restore_turn, is_window_entry_for in *.
  destruct (Js.split k delimiter) as [|key [|elementSelector tl]];
    try (split; reflexivity).
  destruct (String.eqb key locationKey); [|split; reflexivity].
  cbn [andb] in Hk. rewrite Hk.
  destruct (Js.truthy elementSelector); [|split; reflexivity].
  destruct (querySelector env elementSelector) as [[element|]|x]; split; reflexivity.
Qed.

Lemma restore_calls_no_window options env locationKey cachedObj keys :
  (forall k, In k keys -> is_window_entry_for locationKey k = false) ->
  snd (restore_calls options env locationKey cachedObj keys false) = false
  /\ forallb is_element_assignment
       (fst (restore_calls options env locationKey cachedObj keys false)) = true.
Proof.
  induction keys as [|k rest IH]; intros Hno; [split; reflexivity|].
  cbn [restore_calls].
  destruct (obj_get k cachedObj) as [entry|]; [|split; reflexivity].
  destruct (turn_raises env locationKey k); [split; reflexivity|].
  assert (Hk := Hno k (or_introl eq_refl)).
  destruct IH as [IHflag IHcalls]; [intros k' Hk'; apply Hno; now right|].
  destruct (restore_turn_no_window options env locationKey k entry Hk) as [Hflag Hcalls].
  cbn [fst snd]. rewrite Hflag.
  split; [assumption|]. rewrite forallb_app. now rewrite Hcalls, IHcalls.
Qed.

Lemma restore_calls_window options env locationKey cachedObj keys :
  forall windowRestored k entry,
    (forall k', In k' keys -> In k' (obj_keys cachedObj)) ->
    restore_raises env locationKey keys = None ->
    In k keys ->
    obj_get k cachedObj = Some entry ->
    is_window_entry_for locationKey k = true ->
    In (ScrollToOptions (scrollY entry) (scrollX entry) (scrollBehavior options))
       (fst (restore_calls options env locationKey cachedObj keys windowRestored)).
Proof.
  induction keys as [|k0 rest IH]; intros windowRestored k entry Hkeys Hraise Hin Hget Hwin;
    [destruct Hin|].
  cbn [restore_calls]. cbn [restore_raises] in Hraise.
  destruct (obj_get_in_keys k0 _ (Hkeys k0 (or_introl eq_refl))) as [entry0 Hget0].
  rewrite Hget0.
  destruct (turn_raises env locationKey k0); [discriminate|].
  cbn [fst]. apply in_or_app.
  destruct Hin as [->|Hin].
  - left. rewrite Hget in Hget0. inversion Hget0; subst.
    unfold restore_turn, is_window_entry_for in *.
    destruct (Js.split k delimiter) as [|key [|elementSelector tl]]; try discriminate.
    apply andb_prop in Hwin. destruct Hwin as [-> ->]. simpl. auto.
  - right. eapply IH; eauto. intros k' Hk'. apply Hkeys. now right.
Qed.

(** C3 (as amended): when no committed entry is a window entry for the
    location key, the calls of the restore loop are element assignments;
    when [document.querySelector] accepts every selector that the loop
    looks up, the restore then calls [window.scrollTo(0, 0)], the last
    call before the cache is written; when a selector is rejected, the
    restore throws at it, without the scroll to the origin and without
    touching the cache. *)
Theorem restore_falls_back_to_origin options env currentLocation w :
  window_defined env = true ->
  (forall cacheKey,
      In cacheKey (obj_keys (cached (state (cache w)))) ->
      is_window_entry_for (getKey' options currentLocation) cacheKey = false) ->
  exists w' assignments,
    forallb is_element_assignment assignments = true
    /\ if restore_accepts env (getKey' options currentLocation)
            (obj_keys (cached (state (cache w))))
       then
         restoreScrollPositions options env currentLocation w = Normal (tt, w')
         /\ effects w'
            = (effects w ++ assignments ++ [ScrollToXY (Num 0) (Num 0)]
                 ++ restore_write (cache w))%list
       else
         exists e,
           restoreScrollPositions options env currentLocation w = Throw (e, w')
           /\ effects w' = (effects w ++ assignments)%list
           /\ cache w' = cache w
           /\ weakScrolledElements w' = weakScrolledElements w.
Proof.
  intros Hwin Hno.
  destruct (restore_calls_no_window options env (getKey' options currentLocation)
              (cached (state (cache w))) _ Hno) as [Hflag Hcalls].
  rewrite restoreScrollPositions_run by assumption.
  destruct (restore_accepts env (getKey' options currentLocation)
              (obj_keys (cached (state (cache w))))) eqn:Hacc.
  - rewrite (restore_accepts_true _ _ _ Hacc). eexists. eexists.
    split; [exact Hcalls|]. split; [reflexivity|].
    cbn [with_weakScrolledElements add_effects with_cache effects].
    unfold restore_effects. now rewrite Hflag.
  - destruct (restore_accepts_false _ _ _ Hacc) as [e ->]. eexists. eexists.
    split; [exact Hcalls|]. exists e. repeat split.
Qed.

(** ** The round trip *)

Lemma restore_window_call options env newLocation w entry :
  window_defined env = true ->
  restore_accepts env (getKey' options newLocation) (obj_keys (cached (state (cache w))))
  = true ->
  forall k,
    obj_get k (cached (state (cache w))) = Some entry ->
    is_window_entry_for (getKey' options newLocation) k = true ->
    exists w' calls,
      restoreScrollPositions options env newLocation w = Normal (tt, w')
      /\ effects w' = (effects w ++ calls)%list
      /\ In (ScrollToOptions (scrollY entry) (scrollX entry) (scrollBehavior options)) calls
      /\ next (state (cache w'))
         = match set (cache w) with SetPersist => [] | SetNoop => next (state (cache w)) end
      /\ cached (state (cache w')) = cached (state (cache w))
      /\ set (cache w') = set (cache w)
      /\ frames w' = frames w
      /\ locationRef w' = locationRef w.
Proof.
  intros Hwin Hacc k Hget Hk.
  rewrite restoreScrollPositions_run by assumption.
  rewrite (restore_accepts_true _ _ _ Hacc). eexists. eexists.
  split; [reflexivity|]. split; [reflexivity|]. split.
  - unfold restore_effects. apply in_or_app. left.
    apply (restore_calls_window options env _ _ _ false k entry); auto.
    + now apply restore_accepts_true.
    + eapply obj_get_some_in_keys; eassumption.
  - unfold restored_cache.
    cbn [with_weakScrolledElements add_effects with_cache cache frames locationRef].
    destruct (set (cache w)) eqn:Hset; cbn; rewrite ?Hset; repeat split; reflexivity.
Qed.

Lemma restore_aborts options env newLocation w :
  window_defined env = true ->
  restore_accepts env (getKey' options newLocation) (obj_keys (cached (state (cache w))))
  = false ->
  exists e w',
    restoreScrollPositions options env newLocation w = Throw (e, w')
    /\ cache w' = cache w
    /\ weakScrolledElements w' = weakScrolledElements w
    /\ frames w' = frames w
    /\ locationRef w' = locationRef w.
Proof.
  intros Hwin Hacc. rewrite restoreScrollPositions_run by assumption.
  destruct (restore_accepts_false _ _ _ Hacc) as [e ->].
  exists e. eexists. repeat split.
Qed.

(** C2 (as amended): when [document.querySelector] accepts every
    selector that is pending, a save with the window pending commits the
    window offsets (100, 200) under the location key "/page1"; a restore
    for a location with the same key then calls [window.scrollTo] with
    left 100 and top 200 when every selector that its loop looks up is
    accepted, and throws otherwise. *)
Theorem save_then_restore_page1 options env env' currentLocation newLocation w :
  window_defined env = true ->
  window_defined env' = true ->
  set (cache w) = SetPersist ->
  obj_wf (next (state (cache w))) ->
  In windowKey (obj_keys (next (state (cache w)))) ->
  window_scrollX env = Num 100 ->
  window_scrollY env = Num 200 ->
  getKey' options currentLocation = "/page1" ->
  getKey' options newLocation = "/page1" ->
  save_accepts env (next (state (cache w))) = true ->
  exists w1,
    saveScrollPositions options env currentLocation w = Normal (tt, w1)
    /\ obj_get "/page1___window" (cached (state (cache w1)))
       = Some {| scrollX := Num 100; scrollY := Num 200 |}
    /\ if restore_accepts env' "/page1" (obj_keys (cached (state (cache w1))))
       then
         exists w2 calls,
           restoreScrollPositions options env' newLocation w1 = Normal (tt, w2)
           /\ effects w2 = (effects w1 ++ calls)%list
           /\ In (ScrollToOptions (Num 200) (Num 100) (scrollBehavior options)) calls
       else
         exists e w2,
           restoreScrollPositions options env' newLocation w1 = Throw (e, w2).
Proof.
  intros Hwin Hwin' Hset Hwf Hpending Hx Hy Hkey Hkey' Hacc.
  destruct (obj_get_in_keys _ _ Hpending) as [entry Hentry].
  apply obj_get_some_in in Hentry.
  destruct (save_accepts_all _ _ Hacc) as (Hraise & Hleft & Hdone).
  destruct (saveScrollPositions_outcome options env currentLocation w Hwin)
    as (w1 & Hsave & _ & Hcached & _); [unfold cache_ok; congruence|assumption|].
  rewrite Hraise in Hsave. exists w1. split; [exact Hsave|].
  assert (Hsaved : obj_get "/page1___window" (cached (state (cache w1)))
                   = Some {| scrollX := Num 100; scrollY := Num 200 |}).
  { rewrite Hcached, Hkey. change "/page1___window" with (composite "/page1" windowKey).
    rewrite <- Hdone in Hentry.
    rewrite (proj2 (committed_pending env _ _ Hwf _ _ _ Hentry)).
    unfold live_offsets. cbn [Js.truthy windowKey]. rewrite String.eqb_refl, Hx, Hy.
    reflexivity. }
  split; [exact Hsaved|].
  destruct (restore_accepts env' "/page1" (obj_keys (cached (state (cache w1))))) eqn:Ha.
  - rewrite <- Hkey' in Ha.
    destruct (restore_window_call options env' newLocation w1 _ Hwin' Ha _ Hsaved)
      as (w2 & calls & Hrun & Heff & Hin & _).
    { rewrite Hkey'. reflexivity. }
    exists w2, calls. auto.
  - rewrite <- Hkey' in Ha.
    destruct (restore_aborts options env' newLocation w1 Hwin' Ha) as (e & w2 & Hrun & _).
    exists e, w2. exact Hrun.
Qed.

(** ** Invariants of the cache *)

Lemma onScroll_run target w :
  exists w',
    onScroll target w = Normal (tt, w')
    /\ set (cache w') = set (cache w)
    /\ cached (state (cache w')) = cached (state (cache w))
    /\ (cache_ok (cache w) -> cache_ok (cache w'))
    /\ (obj_wf (next (state (cache w))) -> obj_wf (next (state (cache w'))))
    /\ (forall k, In k (obj_keys (next (state (cache w)))) ->
                  In k (obj_keys (next (state (cache w'))))).
Proof.
  unfold onScroll.
  destruct (existsb (target_eqb target) (weakScrolledElements w)).
  - exists w. repeat split; auto.
  - unfold bind, put_weakScrolledElements, get_cache.
    cbn [with_weakScrolledElements cache].
    destruct (obj_get (scroll_selector target) (next (state (cache w)))) eqn:Hget.
    + eexists. split; [reflexivity|]. repeat split; auto.
    + unfold cache_set, bind, get_cache. cbn [with_weakScrolledElements cache].
      destruct (set (cache w)) eqn:Hset.
      * eexists. split; [reflexivity|]. cbn. repeat split; auto.
      * eexists. split; [reflexivity|]. cbn.
        repeat split; auto.
        -- intros _. unfold cache_ok. cbn. discriminate.
        -- apply obj_set_wf.
        -- intros k Hk. exact (obj_keys_set_in k _ _ _ Hk).
Qed.

Lemma scrolls_run targets :
  forall w,
  exists w',
    scrolls targets w = Normal (tt, w')
    /\ set (cache w') = set (cache w)
    /\ cached (state (cache w')) = cached (state (cache w))
    /\ (cache_ok (cache w) -> cache_ok (cache w'))
    /\ (obj_wf (next (state (cache w))) -> obj_wf (next (state (cache w'))))
    /\ (forall k, In k (obj_keys (next (state (cache w)))) ->
                  In k (obj_keys (next (state (cache w'))))).
Proof.
  induction targets as [|t rest IH]; intros w.
  - exists w. repeat split; auto.
  - destruct (onScroll_run t w) as (w1 & Hrun & Hset & Hcached & Hok & Hwf & Hkeys).
    destruct (IH w1) as (w2 & Hrun2 & Hset2 & Hcached2 & Hok2 & Hwf2 & Hkeys2).
    exists w2. cbn [scrolls]. unfold bind. rewrite Hrun.
    repeat split; auto; congruence.
Qed.

(** The fallback cache of [createCache] starts from the default state. *)
Lemma createCache_fallback env l :
  createCache env = Normal l ->
  loaded_set l = SetNoop ->
  loaded_state l = default_json.
Proof.
  unfold createCache.
  destruct (if window_defined env then sessionStorage env else None) as [getItem|].
  - destruct (JSON.parse _); [|discriminate]. intros [= <-]. discriminate.
  - intros [= <-]. reflexivity.
Qed.

Lemma report_finish (m : M unit) raised w w' :
  m w = finish raised w' ->
  report m w = Normal (tt, add_effects (reported raised) w').
Proof.
  intros H. unfold report. rewrite H.
  destruct raised; cbn [finish reported]; [reflexivity|].
  now rewrite add_effects_nil.
Qed.

Lemma saveScrollPositions_sound options env currentLocation w w' raised :
  cache_ok (cache w) ->
  obj_wf (next (state (cache w))) ->
  saveScrollPositions options env currentLocation w = finish raised w' ->
  next (state (cache w')) = uncommitted env (next (state (cache w))) ->
  set (cache w') = set (cache w) ->
  cache_ok (cache w') /\ obj_wf (next (state (cache w'))).
Proof.
  intros Hok Hwf Hrun Hnext Hset. split.
  - destruct (set (cache w)) eqn:Hs.
    + rewrite saveScrollPositions_noop in Hrun by assumption.
      destruct raised; inversion Hrun; subst; exact Hok.
    + unfold cache_ok. rewrite Hset. discriminate.
  - rewrite Hnext. now apply uncommitted_wf.
Qed.

(** ** One cycle *)

(** C7 (as amended): a save, any scroll events, then a restore. Every
    selector that was pending at the save is, before the restore, either
    migrated into the committed map or still pending (all are migrated
    when [document.querySelector] accepts them all); a restore that
    returns leaves the pending map empty, and a restore that throws,
    because a selector that its loop looks up is rejected, leaves the
    pending map as it found it. *)
Theorem cycle_leaves_no_pending options env env' oldLocation newLocation targets w :
  window_defined env = true ->
  window_defined env' = true ->
  cache_ok (cache w) ->
  obj_wf (next (state (cache w))) ->
  exists w1,
    (report (saveScrollPositions options env oldLocation) ;;; scrolls targets) w
    = Normal (tt, w1)
    /\ (forall sel,
           In sel (obj_keys (next (state (cache w)))) ->
           In (composite (getKey' options oldLocation) sel)
              (obj_keys (cached (state (cache w1))))
           \/ In sel (obj_keys (next (state (cache w1)))))
    /\ (save_accepts env (next (state (cache w))) = true ->
        forall sel,
          In sel (obj_keys (next (state (cache w)))) ->
          In (composite (getKey' options oldLocation) sel)
             (obj_keys (cached (state (cache w1)))))
    /\ if restore_accepts env' (getKey' options newLocation)
            (obj_keys (cached (state (cache w1))))
       then
         exists w',
           restoreScrollPositions options env' newLocation w1 = Normal (tt, w')
           /\ next (state (cache w')) = []
           /\ cached (state (cache w')) = cached (state (cache w1))
       else
         exists e w',
           restoreScrollPositions options env' newLocation w1 = Throw (e, w')
           /\ next (state (cache w')) = next (state (cache w1))
           /\ cached (state (cache w')) = cached (state (cache w1)).
Proof.
  intros Hwin Hwin' Hok Hwf.
  destruct (saveScrollPositions_outcome options env oldLocation w Hwin Hok Hwf)
    as (ws & Hsave & Hnexts & Hcacheds & Hsets & _).
  destruct (saveScrollPositions_sound _ _ _ _ _ _ Hok Hwf Hsave Hnexts Hsets)
    as [Hoks Hwfs].
  pose (wr := add_effects (reported (save_raises env (next (state (cache w))))) ws).
  destruct (scrolls_run targets wr)
    as (w1 & Hscroll & Hset1 & Hcached1 & Hok1 & _ & Hkeys1).
  exists w1. unfold bind. rewrite (report_finish _ _ _ _ Hsave). fold wr.
  split; [exact Hscroll|].
  assert (Hmig : forall sel,
             In sel (obj_keys (migrated env (next (state (cache w))))) ->
             In (composite (getKey' options oldLocation) sel)
                (obj_keys (cached (state (cache w1))))).
  { intros sel Hsel. rewrite Hcached1. unfold wr. cbn [add_effects cache].
    rewrite Hcacheds.
    destruct (obj_get_in_keys _ _ Hsel) as [entry Hentry].
    apply obj_get_some_in in Hentry.
    eapply obj_get_some_in_keys.
    apply (proj2 (committed_pending env _ _ Hwf _ _ _ Hentry)). }
  split; [|split].
  - intros sel Hsel.
    rewrite (pending_split env (next (state (cache w)))) in Hsel.
    unfold obj_keys in Hsel. rewrite map_app in Hsel. apply in_app_or in Hsel.
    destruct Hsel as [Hsel|Hsel].
    + left. now apply Hmig.
    + right. apply Hkeys1. unfold wr. cbn [add_effects cache]. now rewrite Hnexts.
  - intros Hacc sel Hsel. apply Hmig.
    now rewrite (proj2 (proj2 (save_accepts_all _ _ Hacc))).
  - destruct (restoreScrollPositions_frame options env' newLocation w1)
      as (w' & Hcached' & _ & _ & _ & _ & Hif).
    rewrite Hwin' in Hif. cbn [negb orb] in Hif.
    destruct (restore_accepts env' (getKey' options newLocation)
                (obj_keys (cached (state (cache w1))))).
    + destruct Hif as (Hrun & Hnext' & _). exists w'. split; [exact Hrun|].
      split; [|exact Hcached'].
      rewrite Hnext'. destruct (set (cache w1)) eqn:Hs; [|reflexivity].
      assert (Hokr : cache_ok (cache wr)) by exact Hoks.
      now rewrite (Hok1 Hokr Hs).
    + destruct Hif as (e & Hrun & Hnext' & _). exists e, w'. auto.
Qed.

(** ** Splitting composite keys *)

Lemma split_from_skip sep cur t :
  forall rest,
    Js.split_from sep (String.length t) cur (t ++ rest) = Js.split_from sep 0 cur rest.
Proof.
  induction t as [|c t IH]; intros rest; simpl.
  - destruct rest; reflexivity.
  - apply IH.
Qed.

Lemma clean_key_tail c k :
  clean_key (String c k) = true -> clean_key k = true.
Proof.
  unfold clean_key. cbn [contains]. intros H.
  apply andb_prop in H. destruct H as [Hc He].
  apply negb_true_iff in Hc. apply orb_false_elim in Hc. destruct Hc as [_ Hc].
  rewrite Hc. cbn [negb andb].
  destruct k; [reflexivity|exact He].
Qed.

Lemma prefix_append a : forall s, prefix a s = true -> exists rest, s = a ++ rest.
Proof.
  induction a as [|c a IH]; intros s H.
  - exists s. reflexivity.
  - destruct s as [|c' s]; [discriminate|]. cbn [prefix] in H.
    destruct (ascii_dec c c'); [|discriminate]. subst.
    destruct (IH s H) as [rest ->]. exists rest. reflexivity.
Qed.

Lemma prefix_of_append a rest : prefix a (a ++ rest) = true.
Proof.
  induction a as [|c a IH]; cbn [append prefix].
  - destruct rest; reflexivity.
  - destruct (ascii_dec c c); [assumption|congruence].
Qed.

Lemma clean_key_no_prefix c k rest :
  clean_key (String c k) = true ->
  prefix delimiter (String c (k ++ delimiter ++ rest)) = false.
Proof.
  unfold clean_key. intros H.
  apply andb_prop in H. destruct H as [Hc He].
  apply negb_true_iff in Hc, He.
  cbn [contains] in Hc. apply orb_false_elim in Hc. destruct Hc as [Hp _].
  destruct (prefix delimiter (String c (k ++ delimiter ++ rest))) eqn:E;
    [exfalso|reflexivity].
  apply prefix_append in E. destruct E as [r E]. unfold delimiter in E.
  cbn [append] in E. inversion E as [[Hc Hk]]. subst c.
  destruct k as [|d1 [|d2 k]]; cbn [append] in Hk.
  - discriminate He.
  - inversion Hk; subst. discriminate He.
  - inversion Hk; subst.
    change (String "_" (String "_" (String "_" k))) with (delimiter ++ k) in Hp.
    rewrite (prefix_of_append delimiter k) in Hp. discriminate.
Qed.

Lemma split_from_clean k :
  clean_key k = true ->
  forall cur rest,
    Js.split_from delimiter 0 cur (k ++ delimiter ++ rest)
    = (cur ++ k) :: Js.split_from delimiter 0 "" rest.
Proof.
  induction k as [|c k IH]; intros Hclean cur rest.
  - rewrite append_nil_r.
    change ("" ++ delimiter ++ rest) with (String "_" ("__" ++ rest)).
    cbn [Js.split_from].
    change (String "_" ("__" ++ rest)) with (delimiter ++ rest).
    rewrite prefix_of_append.
    change (String.length delimiter - 1) with (String.length "__").
    apply f_equal. apply split_from_skip.
  - cbn [append Js.split_from].
    rewrite (clean_key_no_prefix c k rest Hclean).
    rewrite (IH (clean_key_tail c k Hclean)).
    now rewrite append_assoc.
Qed.

(** A composite key made from a clean location key splits back into
    that key, followed by the pieces of the selector. *)
Lemma split_composite locationKey elementSelector :
  clean_key locationKey = true ->
  Js.split (composite locationKey elementSelector) delimiter
  = locationKey :: Js.split elementSelector delimiter.
Proof.
  intros Hclean. rewrite composite_eq. unfold Js.split. cbn [delimiter].
  apply (split_from_clean locationKey Hclean "" elementSelector).
Qed.

Lemma saved_under_composite locationKey cacheKey :
  saved_under locationKey cacheKey = true ->
  exists elementSelector, cacheKey = composite locationKey elementSelector.
Proof.
  unfold saved_under. intros H. apply prefix_append in H.
  destruct H as [rest ->]. exists rest. rewrite composite_eq. apply append_assoc.
Qed.

(** ** Key isolation *)

Lemma restore_query_other A B cacheKey :
  clean_key A = true ->
  A <> B ->
  saved_under A cacheKey = true ->
  restore_query B cacheKey = None.
Proof.
  intros Hclean Hne Hunder.
  destruct (saved_under_composite _ _ Hunder) as [elementSelector ->].
  unfold restore_query. rewrite split_composite by assumption.
  destruct (Js.split elementSelector delimiter) as [|sel tl]; [reflexivity|].
  destruct (String.eqb_spec A B); [contradiction|reflexivity].
Qed.

Lemma turn_raises_other env A B cacheKey :
  clean_key A = true ->
  A <> B ->
  saved_under A cacheKey = true ->
  turn_raises env B cacheKey = None.
Proof.
  intros Hclean Hne Hunder. unfold turn_raises.
  now rewrite (restore_query_other A B cacheKey).
Qed.

Lemma restore_turn_other options env A B windowRestored cacheKey entry :
  clean_key A = true ->
  A <> B ->
  saved_under A cacheKey = true ->
  restore_turn options env B windowRestored cacheKey entry = ([], windowRestored).
Proof.
  intros Hclean Hne Hunder.
  destruct (saved_under_composite _ _ Hunder) as [elementSelector ->].
  unfold restore_turn. rewrite split_composite by assumption.
  destruct (Js.split elementSelector delimiter) as [|sel tl]; [reflexivity|].
  destruct (String.eqb_spec A B); [contradiction|reflexivity].
Qed.

Lemma obj_get_without A k (c : CacheValue) :
  saved_under A k = false -> obj_get k (without A c) = obj_get k c.
Proof.
  intros Hk. induction c as [|[k' e] c IH]; [reflexivity|].
  cbn [without filter fst obj_get].
  destruct (String.eqb_spec k' k) as [->|Hne].
  - rewrite Hk. cbn [negb obj_get]. now rewrite String.eqb_refl.
  - destruct (saved_under A k'); cbn [negb obj_get]; [exact IH|].
    destruct (String.eqb_spec k' k); [contradiction|exact IH].
Qed.

Lemma obj_keys_without A (c : CacheValue) :
  obj_keys (without A c) = filter (fun k => negb (saved_under A k)) (obj_keys c).
Proof.
  induction c as [|[k e] c IH]; [reflexivity|].
  cbn [without filter fst obj_keys map].
  destruct (saved_under A k); cbn [negb map fst]; [exact IH|].
  f_equal. exact IH.
Qed.

Lemma restore_raises_without env A B keys :
  clean_key A = true ->
  A <> B ->
  restore_raises env B keys
  = restore_raises env B (filter (fun k => negb (saved_under A k)) keys).
Proof.
  intros Hclean Hne. induction keys as [|k rest IH]; [reflexivity|].
  cbn [restore_raises filter].
  destruct (saved_under A k) eqn:Hunder; cbn [negb].
  - now rewrite (turn_raises_other env A B k).
  - cbn [restore_raises]. now rewrite IH.
Qed.

Lemma restore_calls_without options env A B (c : CacheValue) keys :
  clean_key A = true ->
  A <> B ->
  (forall k, In k keys -> In k (obj_keys c)) ->
  forall windowRestored,
    restore_calls options env B c keys windowRestored
    = restore_calls options env B (without A c)
        (filter (fun k => negb (saved_under A k)) keys) windowRestored.
Proof.
  intros Hclean Hne. induction keys as [|k rest IH]; intros Hkeys windowRestored;
    [reflexivity|].
  assert (Hrest : forall k', In k' rest -> In k' (obj_keys c))
    by (intros k' Hk'; apply Hkeys; now right).
  destruct (obj_get_in_keys k c (Hkeys k (or_introl eq_refl))) as [entry Hget].
  cbn [restore_calls filter]. rewrite Hget.
  destruct (saved_under A k) eqn:Hunder; cbn [negb].
  - rewrite (turn_raises_other env A B k) by assumption.
    rewrite (restore_turn_other options env A B windowRestored k entry) by assumption.
    cbn [fst snd app]. rewrite <- (IH Hrest).
    now destruct (restore_calls options env B c rest windowRestored).
  - cbn [restore_calls]. rewrite obj_get_without by assumption. rewrite Hget.
    destruct (turn_raises env B k); [reflexivity|].
    now rewrite <- (IH Hrest).
Qed.

Lemma restore_scrolls_without options env A B (c : CacheValue) :
  clean_key A = true ->
  A <> B ->
  restore_scrolls options env B c = restore_scrolls options env B (without A c).
Proof.
  intros Hclean Hne. unfold restore_scrolls.
  rewrite obj_keys_without.
  rewrite <- (restore_raises_without env A B (obj_keys c)) by assumption.
  now rewrite <- (restore_calls_without options env A B c (obj_keys c)) by auto.
Qed.

Lemma restore_accepts_without env A B (c : CacheValue) :
  clean_key A = true ->
  A <> B ->
  restore_accepts env B (obj_keys (without A c)) = restore_accepts env B (obj_keys c).
Proof.
  intros Hclean Hne. rewrite obj_keys_without.
  assert (H := restore_raises_without env A B (obj_keys c) Hclean Hne).
  destruct (restore_accepts env B (obj_keys c)) eqn:H1.
  - apply restore_accepts_true in H1. rewrite H1 in H.
    now apply restore_accepts_raises.
  - destruct (restore_accepts_false _ _ _ H1) as [e He]. rewrite He in H.
    destruct (restore_accepts env B (filter _ (obj_keys c))) eqn:H2; [|reflexivity].
    apply restore_accepts_true in H2. congruence.
Qed.

(** The calls of a restore: those of the loop, then the scroll to the
    origin and the write of the cache when the loop ends. *)
Lemma restoreScrollPositions_effects options env currentLocation w :
  window_defined env = true ->
  exists w',
    restoreScrollPositions options env currentLocation w
    = finish (restore_raises env (getKey' options currentLocation)
                (obj_keys (cached (state (cache w))))) w'
    /\ effects w'
       = (effects w
            ++ restore_scrolls options env (getKey' options currentLocation)
                               (cached (state (cache w)))
            ++ match restore_raises env (getKey' options currentLocation)
                       (obj_keys (cached (state (cache w)))) with
               | None => restore_write (cache w)
               | Some _ => []
               end)%list.
Proof.
  intros Hwin. rewrite restoreScrollPositions_run by assumption.
  unfold restore_scrolls.
  destruct (restore_raises env (getKey' options currentLocation)
              (obj_keys (cached (state (cache w))))) as [e|].
  - eexists. split; [reflexivity|]. cbn [add_effects effects].
    now rewrite !app_nil_r.
  - eexists. split; [reflexivity|].
    cbn [with_weakScrolledElements add_effects with_cache effects].
    unfold restore_effects. now rewrite <- app_assoc.
Qed.

(** C4 (as amended): for a location key A that holds no delimiter and
    does not end with an underscore, and any other location key B, a
    restore for B ends in the same way (it returns, or throws the same
    exception) and makes exactly the same calls as it does once every
    entry saved under A has been taken out of the committed map. *)
Theorem key_isolation options env newLocation A w :
  clean_key A = true ->
  A <> getKey' options newLocation ->
  window_defined env = true ->
  exists w1 w2 calls,
    effects w1
    = (effects w ++ calls
         ++ if restore_accepts env (getKey' options newLocation)
                 (obj_keys (cached (state (cache w))))
            then restore_write (cache w) else [])%list
    /\ effects w2
       = (effects w ++ calls
            ++ if restore_accepts env (getKey' options newLocation)
                    (obj_keys (cached (state (cache w))))
               then restore_write
                      (cache (with_cached (without A (cached (state (cache w)))) w))
               else [])%list
    /\ if restore_accepts env (getKey' options newLocation)
            (obj_keys (cached (state (cache w))))
       then
         restoreScrollPositions options env newLocation w = Normal (tt, w1)
         /\ restoreScrollPositions options env newLocation
              (with_cached (without A (cached (state (cache w)))) w) = Normal (tt, w2)
       else
         exists e,
           restoreScrollPositions options env newLocation w = Throw (e, w1)
           /\ restoreScrollPositions options env newLocation
                (with_cached (without A (cached (state (cache w)))) w) = Throw (e, w2).
Proof.
  intros Hclean Hne Hwin.
  destruct (restoreScrollPositions_effects options env newLocation w Hwin)
    as (w1 & Hrun1 & Heff1).
  destruct (restoreScrollPositions_effects options env newLocation
              (with_cached (without A (cached (state (cache w)))) w) Hwin)
    as (w2 & Hrun2 & Heff2).
  cbn [with_cached with_cache cache state cached effects] in Hrun2, Heff2.
  rewrite obj_keys_without in Hrun2, Heff2.
  rewrite <- (restore_raises_without env A _ _ Hclean Hne) in Hrun2, Heff2.
  rewrite <- (restore_scrolls_without options env A _ _ Hclean Hne) in Heff2.
  exists w1, w2,
    (restore_scrolls options env (getKey' options newLocation) (cached (state (cache w)))).
  destruct (restore_accepts env (getKey' options newLocation)
              (obj_keys (cached (state (cache w))))) eqn:Hacc.
  - rewrite (restore_accepts_true _ _ _ Hacc) in *. auto.
  - destruct (restore_accepts_false _ _ _ Hacc) as [e He]. rewrite He in *.
    split; [exact Heff1|]. split; [exact Heff2|]. exists e. auto.
Qed.

(** ** The selector of an element *)

Lemma Node_chain_ind (P : Node -> Prop) :
  (forall i name tag attr sl st ch, P (mkNode i name tag attr sl st ch None)) ->
  (forall i name tag attr sl st ch parent,
      P parent -> P (mkNode i name tag attr sl st ch (Some parent))) ->
  forall n, P n.
Proof.
  intros Htop Hstep. fix IH 1.
  intros [i name tag attr sl st ch [parent|]].
  - apply Hstep. apply IH.
  - apply Htop.
Qed.

Lemma getCssSelector_loop_levels current :
  forall path, getCssSelector_loop current path = (selector_levels current ++ path)%list.
Proof.
  induction current as [|i name tag attr sl st ch parent IH] using Node_chain_ind;
    intros path; [reflexivity|].
  cbn [getCssSelector_loop selector_levels].
  destruct (String.eqb (nodeName parent) "HTML"); [reflexivity|].
  rewrite IH. now rewrite <- app_assoc.
Qed.

(** C9 (as amended): [getCssSelector] records a level
    [tagName:nth-child(index)], with the 1-based index of the node among
    the children of its parent, for the element and each ancestor as long
    as the node has a parent that is not named HTML; the child of the
    HTML element is therefore not recorded. The levels are joined,
    outermost first, with [" > "] and the result is lowercased. *)
Theorem getCssSelector_levels el :
  getCssSelector el = Js.toLowerCase (Js.join (selector_levels el) " > ")
  /\ (forall parent,
         parentNode el = Some parent ->
         selector_levels el
         = if String.eqb (nodeName parent) "HTML" then []
           else (selector_levels parent ++ [nth_child_part el parent])%list)
  /\ (parentNode el = None -> selector_levels el = []).
Proof.
  split; [|split].
  - unfold getCssSelector. rewrite getCssSelector_loop_levels. now rewrite app_nil_r.
  - intros parent Hp. destruct el as [i name tag attr sl st ch p]. cbn in Hp. subst p.
    reflexivity.
  - intros Hp. destruct el as [i name tag attr sl st ch p]. cbn in Hp. subst p.
    reflexivity.
Qed.

(** ** Loading the cache *)

Lemma parse_null : JSON.parse "null" = Some JSON.JNull.
Proof. reflexivity. Qed.

Lemma createCache_without_storage env :
  (if window_defined env then sessionStorage env else None) = None ->
  createCache env = Normal {| loaded_state := default_json; loaded_set := SetNoop |}.
Proof. unfold createCache. now intros ->. Qed.

(** C5 (as amended): with a storage, loading yields the default empty
    state when nothing or the empty string is stored and when the stored
    text is JSON for a falsy value; any other valid JSON is returned as
    the state, and a stored text that is not valid JSON makes the load
    throw a SyntaxError. *)
Theorem createCache_load env getItem :
  window_defined env = true ->
  sessionStorage env = Some getItem ->
  (getItem storageKey = None \/ getItem storageKey = Some "" ->
   createCache env = Normal {| loaded_state := default_json; loaded_set := SetPersist |})
  /\ (forall text v,
         getItem storageKey = Some text ->
         JSON.parse text = Some v ->
         createCache env
         = Normal {| loaded_state := if JSON.truthy v then v else default_json;
                     loaded_set := SetPersist |})
  /\ (forall text,
         getItem storageKey = Some text ->
         text <> "" ->
         JSON.parse text = None ->
         createCache env = Throw SyntaxError).
Proof.
  intros Hwin Hstorage. unfold createCache. rewrite Hwin, Hstorage.
  split; [|split].
  - intros [-> | ->]; reflexivity.
  - intros text v -> Hparse.
    destruct text as [|c text]; [discriminate Hparse|].
    cbn [Js.truthy]. now rewrite Hparse.
  - intros text -> Hne Hparse.
    destruct text as [|c text]; [congruence|].
    cbn [Js.truthy]. now rewrite Hparse.
Qed.

(** ** The element query *)

Lemma element_query_by_id options env w i :
  id options = Some i ->
  Js.truthy i = true ->
  useElementScrollRestoration options env w
  = Normal (obj_get (composite (query_key options env) (element_selector i))
                    (cached (state (cache w))),
            w).
Proof.
  intros Hid Htruthy. unfold useElementScrollRestoration. now rewrite Hid, Htruthy.
Qed.

Lemma element_query_by_element options env w :
  match id options with Some i => Js.truthy i | None => false end = false ->
  useElementScrollRestoration options env w
  = Normal
      (match (match getElement options with Some f => f env | None => None end) with
       | Some element =>
           obj_get (composite (query_key options env) (getCssSelector element))
                   (cached (state (cache w)))
       | None => None
       end,
       w).
Proof.
  intros Hid. unfold useElementScrollRestoration.
  destruct (id options) as [i|]; [rewrite Hid|];
    destruct (match getElement options with Some f => f env | None => None end);
    reflexivity.
Qed.

Lemma element_query_pure options env w :
  exists r, useElementScrollRestoration options env w = Normal (r, w).
Proof.
  destruct (match id options with Some i => Js.truthy i | None => false end) eqn:Hid.
  - destruct (id options) as [i|] eqn:Hi; [|discriminate].
    eexists. now apply (element_query_by_id options env w i).
  - eexists. now apply element_query_by_element.
Qed.

Lemma composite_clean_inj A B s1 s2 :
  clean_key A = true -> clean_key B = true ->
  composite A s1 = composite B s2 -> A = B.
Proof.
  intros HA HB Heq.
  assert (H : Js.split (composite A s1) delimiter = Js.split (composite B s2) delimiter)
    by now rewrite Heq.
  rewrite !split_composite in H by assumption. now inversion H.
Qed.

Lemma target_eqb_refl t : target_eqb t t = true.
Proof. destruct t; cbn; auto using Nat.eqb_refl. Qed.

Lemma existsb_snoc {A} (f : A -> bool) l x :
  f x = true -> existsb f (l ++ [x]) = true.
Proof. intros H. rewrite existsb_app. cbn. rewrite H. now rewrite orb_true_r. Qed.

Lemma onScroll_unseen target w :
  existsb (target_eqb target) (weakScrolledElements w) = false ->
  set (cache w) = SetPersist ->
  exists w1,
    onScroll target w = Normal (tt, w1)
    /\ weakScrolledElements w1 = (weakScrolledElements w ++ [target])%list
    /\ cached (state (cache w1)) = cached (state (cache w))
    /\ set (cache w1) = SetPersist
    /\ next (state (cache w1))
       = match obj_get (scroll_selector target) (next (state (cache w))) with
         | Some _ => next (state (cache w))
         | None => obj_set (scroll_selector target) {| scrollX := NaN; scrollY := NaN |}
                           (next (state (cache w)))
         end.
Proof.
  intros Hseen Hset. unfold onScroll. rewrite Hseen.
  unfold bind, put_weakScrolledElements, get_cache.
  cbn [with_weakScrolledElements cache].
  destruct (obj_get (scroll_selector target) (next (state (cache w)))).
  - eexists. split; [reflexivity|]. cbn. auto.
  - unfold cache_set, bind, get_cache. cbn [with_weakScrolledElements cache].
    rewrite Hset. eexists. split; [reflexivity|]. cbn. auto.
Qed.

Lemma onScroll_registers target w w1 :
  existsb (target_eqb target) (weakScrolledElements w) = false ->
  set (cache w) = SetPersist ->
  onScroll target w = Normal (tt, w1) ->
  In (scroll_selector target) (obj_keys (next (state (cache w1))))
  /\ set (cache w1) = SetPersist
  /\ (obj_wf (next (state (cache w))) -> obj_wf (next (state (cache w1)))).
Proof.
  intros Hseen Hset Hrun.
  destruct (onScroll_unseen target w Hseen Hset) as (w1' & Hrun' & _ & _ & Hset1 & Hnext).
  rewrite Hrun in Hrun'. inversion Hrun'; subst w1'. clear Hrun'.
  split; [|split; [exact Hset1|]].
  - rewrite Hnext.
    destruct (obj_get (scroll_selector target) (next (state (cache w)))) eqn:Hget.
    + eapply obj_get_some_in_keys; eassumption.
    + eapply obj_get_some_in_keys. apply obj_get_set_same.
  - intros Hwf. rewrite Hnext.
    destruct (obj_get (scroll_selector target) (next (state (cache w))));
      [exact Hwf|now apply obj_set_wf].
Qed.

Lemma save_returns options env currentLocation w w' :
  window_defined env = true ->
  set (cache w) = SetPersist ->
  obj_wf (next (state (cache w))) ->
  saveScrollPositions options env currentLocation w = Normal (tt, w') ->
  save_accepts env (next (state (cache w))) = true
  /\ cached (state (cache w'))
     = committed env (getKey' options currentLocation)
         (next (state (cache w))) (cached (state (cache w)))
  /\ next (state (cache w')) = [].
Proof.
  intros Hwin Hset Hwf Hrun.
  rewrite saveScrollPositions_persist in Hrun by assumption.
  destruct (save_raises env (next (state (cache w)))) eqn:Hr; [discriminate|].
  apply save_raises_none in Hr. split; [exact Hr|].
  inversion Hrun; subst w'. cbn. split; [reflexivity|].
  apply (save_accepts_all _ _ Hr).
Qed.

(** C8 (as amended): the element query changes nothing. For a usable
    identifier it returns the offsets that a save has committed for the
    element carrying this identifier, after a scroll event of that
    element, under a location with the same key; and it returns
    [undefined] when the location key holds no delimiter and does not
    end with an underscore and every committed key was written under
    such a location key, none of them for this identifier under this
    key. *)
Theorem element_query_reads_cached query env' w :
  (exists r, useElementScrollRestoration query env' w = Normal (r, w))
  /\ forall i,
       id query = Some i ->
       Js.truthy i = true ->
       (forall options env currentLocation el w0 w1,
           scroll_restoration_id el = Some i ->
           existsb (target_eqb (TargetElement el)) (weakScrolledElements w0) = false ->
           set (cache w0) = SetPersist ->
           obj_wf (next (state (cache w0))) ->
           window_defined env = true ->
           getKey' options currentLocation = query_key query env' ->
           onScroll (TargetElement el) w0 = Normal (tt, w1) ->
           saveScrollPositions options env currentLocation w1 = Normal (tt, w) ->
           useElementScrollRestoration query env' w
           = Normal (Some (live_offsets env (element_selector i)), w))
       /\ (clean_key (query_key query env') = true ->
           (forall k,
               In k (obj_keys (cached (state (cache w)))) ->
               exists locationKey sel,
                 clean_key locationKey = true
                 /\ k = composite locationKey sel
                 /\ (locationKey = query_key query env' -> sel <> element_selector i)) ->
           useElementScrollRestoration query env' w = Normal (None, w)).
Proof.
  split; [apply element_query_pure|].
  intros i Hid Htruthy. rewrite (element_query_by_id query env' w i Hid Htruthy).
  split.
  - intros options env currentLocation el w0 w1 Hattr Hseen Hset Hwf Hwin Hkey Hscroll Hsave.
    destruct (onScroll_registers _ _ _ Hseen Hset Hscroll) as (Hin & Hset1 & Hwf1).
    specialize (Hwf1 Hwf).
    cbn [scroll_selector] in Hin. rewrite Hattr, Htruthy in Hin.
    destruct (save_returns _ _ _ _ _ Hwin Hset1 Hwf1 Hsave) as (Hacc & Hcached & _).
    destruct (obj_get_in_keys _ _ Hin) as [entry Hentry].
    apply obj_get_some_in in Hentry.
    rewrite <- (proj2 (proj2 (save_accepts_all _ _ Hacc))) in Hentry.
    rewrite Hcached, <- Hkey.
    now rewrite (proj2 (committed_pending env _ _ Hwf1 _ _ _ Hentry)).
  - intros Hclean Hkeys.
    destruct (obj_get (composite (query_key query env') (element_selector i))
                      (cached (state (cache w)))) as [entry|] eqn:Hget; [|reflexivity].
    exfalso. apply obj_get_some_in_keys in Hget.
    destruct (Hkeys _ Hget) as (locationKey & sel & Hc & Heq & Hne).
    assert (HK : locationKey = query_key query env').
    { symmetry. eapply composite_clean_inj; eassumption. }
    apply (Hne HK). subst locationKey. apply composite_inj in Heq. congruence.
Qed.

(** ** Navigation *)

Lemma save_writes_are_writes env locationKey pending :
  forall c, forallb is_storage_write (save_writes env locationKey pending c) = true.
Proof.
  induction pending as [|[k e] rest IH]; intros c; [reflexivity|].
  cbn [save_writes]. destruct (read_offsets env k e); [|reflexivity].
  cbn [forallb is_storage_write andb]. apply IH.
Qed.

Lemma save_effects_are_save_effects env locationKey pending c raised :
  forallb is_save_effect (save_writes env locationKey pending c ++ reported raised) = true.
Proof.
  rewrite forallb_app. apply andb_true_intro. split.
  - assert (H := save_writes_are_writes env locationKey pending c).
    rewrite forallb_forall in *. intros x Hx. specialize (H x Hx).
    destruct x; try discriminate H; reflexivity.
  - now destruct raised.
Qed.

(** The save event while the hook is mounted: the listener saves for
    the location that the hook's pointer holds; when it stops at a
    rejected selector the exception is reported. *)
Lemma dispatch_save options env w :
  window_defined env = true ->
  cache_ok (cache w) ->
  obj_wf (next (state (cache w))) ->
  exists w_saved,
    dispatchEvent options env SCROLL_SAVE_EVENT w = Normal (tt, w_saved)
    /\ next (state (cache w_saved)) = uncommitted env (next (state (cache w)))
    /\ cached (state (cache w_saved))
       = committed env (getKey' options (locationRef w))
           (next (state (cache w))) (cached (state (cache w)))
    /\ set (cache w_saved) = set (cache w)
    /\ effects w_saved
       = (effects w ++ [DispatchEvent SCROLL_SAVE_EVENT]
            ++ save_writes env (getKey' options (locationRef w))
                 (next (state (cache w))) (cached (state (cache w)))
            ++ reported (save_raises env (next (state (cache w)))))%list
    /\ weakScrolledElements w_saved = weakScrolledElements w
    /\ locationRef w_saved = locationRef w
    /\ lastLocation w_saved = lastLocation w
    /\ frames w_saved = frames w
    /\ cache_ok (cache w_saved)
    /\ obj_wf (next (state (cache w_saved))).
Proof.
  intros Hwin Hok Hwf.
  destruct (saveScrollPositions_outcome options env (locationRef w)
              (add_effects [DispatchEvent SCROLL_SAVE_EVENT] w) Hwin Hok Hwf)
    as (ws & Hsave & Hnext & Hcached & Hset & Heff & Hweak & Href & Hlast & Hframes).
  destruct (saveScrollPositions_sound options env (locationRef w)
              (add_effects [DispatchEvent SCROLL_SAVE_EVENT] w) ws _
              Hok Hwf Hsave Hnext Hset) as [Hoks Hwfs].
  cbn [add_effects cache effects weakScrolledElements locationRef lastLocation frames] in *.
  exists (add_effects (reported (save_raises env (next (state (cache w))))) ws).
  split.
  - unfold dispatchEvent, bind, emit, handleScrollSave.
    apply (report_finish _ _ _ _ Hsave).
  - cbn [add_effects cache effects weakScrolledElements locationRef lastLocation frames].
    rewrite Heff, <- !app_assoc. repeat split; auto.
Qed.

(** When the location has changed, [checkForUrlChange] dispatches the
    save event in the world as it is, then updates [lastLocation], then
    calls the callback. *)
Lemma checkForUrlChange_changed dispatch env onNavigate w :
  window_defined env = true ->
  location_changed (window_location env) (lastLocation w) = true ->
  Toplevel.checkForUrlChange dispatch env onNavigate w
  = match dispatch SCROLL_SAVE_EVENT w with
    | Normal (_, w_saved) =>
        onNavigate (lastLocation w)
          (add_effects [OnNavigate (lastLocation w)]
             (with_lastLocation (window_location env) w_saved))
    | Throw ew => Throw ew
    end.
Proof.
  intros Hwin Hchanged.
  unfold Toplevel.checkForUrlChange, defaultGetCurrentLocation. rewrite Hwin, Hchanged.
  unfold Toplevel.saveCurrentScrollPositions. rewrite Hwin.
  unfold bind. destruct (dispatch SCROLL_SAVE_EVENT w) as [[[] w1]|ew]; reflexivity.
Qed.

Lemma checkForUrlChange_unchanged dispatch env onNavigate w :
  location_changed (defaultGetCurrentLocation env) (lastLocation w) = false ->
  Toplevel.checkForUrlChange dispatch env onNavigate w = Normal (tt, w).
Proof. intros H. unfold Toplevel.checkForUrlChange. now rewrite H. Qed.

Lemma handlePopState_changed options env w :
  window_defined env = true ->
  cache_ok (cache w) ->
  obj_wf (next (state (cache w))) ->
  location_changed (window_location env) (lastLocation w) = true ->
  exists w_saved w1,
    dispatchEvent options env SCROLL_SAVE_EVENT w = Normal (tt, w_saved)
    /\ handlePopState options env w = Normal (tt, w1)
    /\ cache w1 = cache w_saved
    /\ lastLocation w1 = window_location env
    /\ locationRef w1 = getCurrentLocation' options env
    /\ frames w1 = (frames w ++ [FrameOuter])%list
    /\ weakScrolledElements w1 = weakScrolledElements w
    /\ effects w1
       = (effects w_saved
            ++ [OnNavigate (lastLocation w); RequestAnimationFrame FrameOuter])%list.
Proof.
  intros Hwin Hok Hwf Hchanged.
  destruct (dispatch_save options env w Hwin Hok Hwf)
    as (w_saved & Hsave & _ & _ & _ & _ & Hweak & _ & _ & Hframes & _).
  exists w_saved. eexists. split; [exact Hsave|].
  unfold handlePopState, Toplevel.handlePopState.
  rewrite (checkForUrlChange_changed _ env _ w Hwin Hchanged). rewrite Hsave.
  unfold handleNavigation, requestAnimationFrame, bind, put_locationRef, emit, push_frame.
  split; [reflexivity|].
  cbn [with_frames add_effects with_locationRef with_lastLocation cache
       lastLocation locationRef frames weakScrolledElements effects].
  rewrite Hframes, Hweak, <- app_assoc. repeat split; reflexivity.
Qed.

(** C6: when the location read by [checkForUrlChange] differs from
    [lastLocation], whatever listeners [window.dispatchEvent] runs and
    whatever the callback is, the save event is dispatched in the world
    as it is, with [lastLocation] still the old location; the callback
    is called afterwards with the old location, in the world that the
    listeners left, where [lastLocation] is the new location. With the
    hook mounted, the listener saves under the key of the location that
    the hook still points to, and only the callback, after it has been
    logged, requests the animation frame that leads to the restore. *)
Theorem navigation_order options env w :
  window_defined env = true ->
  cache_ok (cache w) ->
  obj_wf (next (state (cache w))) ->
  location_changed (window_location env) (lastLocation w) = true ->
  (forall dispatch onNavigate,
      Toplevel.checkForUrlChange dispatch env onNavigate w
      = match dispatch SCROLL_SAVE_EVENT w with
        | Normal (_, w_saved) =>
            onNavigate (lastLocation w)
              (add_effects [OnNavigate (lastLocation w)]
                 (with_lastLocation (window_location env) w_saved))
        | Throw ew => Throw ew
        end)
  /\ exists w_saved w_final calls,
       dispatchEvent options env SCROLL_SAVE_EVENT w = Normal (tt, w_saved)
       /\ cached (state (cache w_saved))
          = committed env (getKey' options (locationRef w))
              (next (state (cache w))) (cached (state (cache w)))
       /\ effects w_saved
          = (effects w ++ [DispatchEvent SCROLL_SAVE_EVENT] ++ calls)%list
       /\ forallb is_save_effect calls = true
       /\ lastLocation w_saved = lastLocation w
       /\ locationRef w_saved = locationRef w
       /\ frames w_saved = frames w
       /\ handlePopState options env w = Normal (tt, w_final)
       /\ cache w_final = cache w_saved
       /\ lastLocation w_final = window_location env
       /\ locationRef w_final = getCurrentLocation' options env
       /\ frames w_final = (frames w ++ [FrameOuter])%list
       /\ effects w_final
          = (effects w_saved
               ++ [OnNavigate (lastLocation w); RequestAnimationFrame FrameOuter])%list.
Proof.
  intros Hwin Hok Hwf Hchanged.
  split; [intros dispatch onNavigate; now apply checkForUrlChange_changed|].
  destruct (dispatch_save options env w Hwin Hok Hwf)
    as (w_saved & Hsave & _ & Hcached & _ & Heff & _ & Href & Hlast & Hframes & _).
  destruct (handlePopState_changed options env w Hwin Hok Hwf Hchanged)
    as (w_saved' & w_final & Hsave' & Hrun & Hcache & Hlast' & Href' & Hframes' & _ & Heff').
  rewrite Hsave in Hsave'. inversion Hsave'; subst w_saved'.
  exists w_saved, w_final. eexists.
  split; [exact Hsave|]. split; [exact Hcached|]. split; [exact Heff|].
  split; [apply save_effects_are_save_effects|].
  repeat split; assumption.
Qed.

(** ** Checks on concrete inputs *)

Example split_page1_window :
  Js.split "/page1___window" delimiter = ["/page1"; "window"].
Proof. reflexivity. Qed.

Example split_without_delimiter : Js.split "/page1" delimiter = ["/page1"].
Proof. reflexivity. Qed.

Example split_trailing_underscore :
  Js.split (composite "/a_" windowKey) delimiter = ["/a"; "_window"].
Proof. reflexivity. Qed.

Example parse_trailing_comma : JSON.parse "[1,]" = None.
Proof. reflexivity. Qed.

Example parse_number_forms :
  JSON.parse "-12.50e1" = Some (JSON.JNumber (-1250) (-1))
  /\ JSON.parse "01" = None
  /\ option_map JSON.truthy (JSON.parse "0.0") = Some false.
Proof. repeat split; reflexivity. Qed.

Example selector_of_identified_scroll :
  scroll_selector (TargetElement Scenario.list_div) = element_selector "list".
Proof. reflexivity. Qed.

(** * The claims *)

Import Scenario.

(** C1 (as amended): a save goes through the pending selectors in
    order and stops at the first one that [document.querySelector]
    rejects, throwing its exception. Every selector before it is removed
    from [next] and committed under the composite key of the location
    key, the delimiter and the selector, with the live offsets (window
    offsets for the sentinel, the offsets of the element found, zero
    when there is none) when the selector is not empty, and with the
    offsets the entry already held when it is empty. The rejected
    selector and those after it stay pending, and no other key of the
    committed map changes. *)
Theorem save_commits_pending options env currentLocation w :
  window_defined env = true ->
  cache_ok (cache w) ->
  obj_wf (next (state (cache w))) ->
  exists w' done left,
    next (state (cache w)) = (done ++ left)%list
    /\ next (state (cache w')) = left
    /\ (forall sel entry,
           In (sel, entry) done ->
           (looked_up sel = true -> accepts env sel = true)
           /\ obj_get (composite (getKey' options currentLocation) sel)
                      (cached (state (cache w')))
              = Some (if Js.truthy sel then live_offsets env sel else entry))
    /\ (forall cacheKey,
           (forall sel, In sel (obj_keys done) ->
                        composite (getKey' options currentLocation) sel <> cacheKey) ->
           obj_get cacheKey (cached (state (cache w')))
           = obj_get cacheKey (cached (state (cache w))))
    /\ match left with
       | [] => saveScrollPositions options env currentLocation w = Normal (tt, w')
       | (sel, _) :: _ =>
           looked_up sel = true
           /\ exists e,
                querySelector env sel = Throw e
                /\ saveScrollPositions options env currentLocation w = Throw (e, w')
       end.
Proof.
  intros Hwin Hok Hwf.
  destruct (saveScrollPositions_outcome options env currentLocation w Hwin Hok Hwf)
    as (w' & Hsave & Hnext & Hcached & _).
  exists w', (migrated env (next (state (cache w)))),
    (uncommitted env (next (state (cache w)))).
  split; [apply pending_split|]. split; [exact Hnext|]. split; [|split].
  - intros sel entry Hin. rewrite Hcached. now apply committed_pending.
  - intros cacheKey Hother. rewrite Hcached. now apply committed_other.
  - assert (Hhead := uncommitted_head env (next (state (cache w)))).
    destruct (uncommitted env (next (state (cache w)))) as [|[sel entry] rest].
    + now rewrite Hhead in Hsave.
    + destruct Hhead as (Hl & x & Hq & Hr). rewrite Hr in Hsave.
      split; [exact Hl|]. exists x. auto.
Qed.

Lemma persisting_ok st : cache_ok (persisting st).
Proof. unfold cache_ok. cbn. discriminate. Qed.

Lemma wf_two (a b : string) (x y : ScrollEntry) : a <> b -> obj_wf [(a, x); (b, y)].
Proof.
  intros Hne. unfold obj_wf. cbn. constructor.
  - intros [H|[]]. congruence.
  - constructor; [intros []|constructor].
Qed.

Lemma wf_one (a : string) (x : ScrollEntry) : obj_wf [(a, x)].
Proof. unfold obj_wf. cbn. constructor; [intros []|constructor]. Qed.

Lemma wf_pending_with_quoted : obj_wf (next (state (cache pending_with_quoted))).
Proof.
  unfold obj_wf. cbn. constructor; [intros [H|[H|[]]]; discriminate H|].
  constructor; [intros [H|[]]; discriminate H|].
  constructor; [intros []|constructor].
Qed.

Lemma save_commits_pending_witness :
  exists w' done left,
    next (state (cache pending_with_quoted)) = (done ++ left)%list
    /\ next (state (cache w')) = left
    /\ (forall sel entry,
           In (sel, entry) done ->
           (looked_up sel = true
            -> accepts (browser 100 200 (page "/page1") strict) sel = true)
           /\ obj_get (composite "/page1" sel) (cached (state (cache w')))
              = Some (if Js.truthy sel
                      then live_offsets (browser 100 200 (page "/page1") strict) sel
                      else entry))
    /\ (forall cacheKey,
           (forall sel, In sel (obj_keys done) -> composite "/page1" sel <> cacheKey) ->
           obj_get cacheKey (cached (state (cache w')))
           = obj_get cacheKey (cached (state (cache pending_with_quoted))))
    /\ match left with
       | [] =>
           saveScrollPositions no_options (browser 100 200 (page "/page1") strict)
                               (page "/page1") pending_with_quoted = Normal (tt, w')
       | (sel, _) :: _ =>
           looked_up sel = true
           /\ exists e,
                querySelector (browser 100 200 (page "/page1") strict) sel = Throw e
                /\ saveScrollPositions no_options (browser 100 200 (page "/page1") strict)
                                       (page "/page1") pending_with_quoted = Throw (e, w')
       end.
Proof.
  apply (save_commits_pending no_options (browser 100 200 (page "/page1") strict)
           (page "/page1") pending_with_quoted).
  - reflexivity.
  - apply persisting_ok.
  - exact wf_pending_with_quoted.
Defined.

(** Counterexample to C1 as stated: the empty selector (a scrolled
    element whose parent is the HTML element) is pending; the save
    commits it with the placeholder offsets, not with live offsets and
    not with zero. *)
Lemma save_empty_selector_keeps_placeholder :
  In ("", placeholder) (next (state (cache pending_empty)))
  /\ live_offsets (browser 100 200 (page "/page1") nothing_found) ""
     = {| scrollX := Num 0; scrollY := Num 0 |}
  /\ exists w',
       saveScrollPositions no_options (browser 100 200 (page "/page1") nothing_found)
                           (page "/page1") pending_empty = Normal (tt, w')
       /\ obj_get (composite "/page1" "") (cached (state (cache w')))
          = Some {| scrollX := NaN; scrollY := NaN |}.
Proof.
  split; [left; reflexivity|]. split; [reflexivity|].
  eexists. split; [vm_compute; reflexivity|]. vm_compute. reflexivity.
Qed.

Lemma save_then_restore_page1_witness :
  exists w1,
    saveScrollPositions no_options (browser 100 200 (page "/page1") strict)
                        (page "/page1") pending_window = Normal (tt, w1)
    /\ obj_get "/page1___window" (cached (state (cache w1)))
       = Some {| scrollX := Num 100; scrollY := Num 200 |}
    /\ exists w2 calls,
         restoreScrollPositions no_options (browser 0 0 (page "/page1") strict)
                                (page "/page1") w1 = Normal (tt, w2)
         /\ effects w2 = (effects w1 ++ calls)%list
         /\ In (ScrollToOptions (Num 200) (Num 100) None) calls.
Proof.
  destruct (save_then_restore_page1 no_options
              (browser 100 200 (page "/page1") strict)
              (browser 0 0 (page "/page1") strict)
              (page "/page1") (page "/page1") pending_window
              eq_refl eq_refl eq_refl (wf_one _ _) (or_introl eq_refl)
              eq_refl eq_refl eq_refl eq_refl eq_refl)
    as (w1 & Hsave & Hget & Hif).
  exists w1. split; [exact Hsave|]. split; [exact Hget|].
  assert (Hw1 : cached (state (cache w1))
                = [("/page1___window", {| scrollX := Num 100; scrollY := Num 200 |})]).
  { revert Hsave. vm_compute. intros [= <-]. reflexivity. }
  assert (Hacc : restore_accepts (browser 0 0 (page "/page1") strict) "/page1"
                   (obj_keys (cached (state (cache w1)))) = true)
    by (rewrite Hw1; reflexivity).
  rewrite Hacc in Hif. exact Hif.
Defined.

(** Counterexample to C2 as stated: the committed map already holds an
    entry under "/page1" whose selector is the bare digit. The save
    commits the window offsets (100, 200) under "/page1"; the restore for
    "/page1" reaches the older entry first, [document.querySelector]
    throws, and the restore ends without any call. *)
Lemma restore_aborts_before_window :
  exists w1 w2,
    saveScrollPositions no_options (browser 100 200 (page "/page1") strict)
                        (page "/page1") seeded_page1 = Normal (tt, w1)
    /\ obj_get "/page1___window" (cached (state (cache w1)))
       = Some {| scrollX := Num 100; scrollY := Num 200 |}
    /\ querySelector (browser 0 0 (page "/page1") strict) "1" = Throw SyntaxError
    /\ restoreScrollPositions no_options (browser 0 0 (page "/page1") strict)
                              (page "/page1") w1 = Throw (SyntaxError, w2)
    /\ effects w2 = effects w1.
Proof.
  eexists. eexists.
  split; [vm_compute; reflexivity|].
  split; [vm_compute; reflexivity|].
  split; [reflexivity|].
  split; [vm_compute; reflexivity|].
  vm_compute. reflexivity.
Qed.

Lemma restore_falls_back_to_origin_witness :
  exists w' assignments,
    forallb is_element_assignment assignments = true
    /\ restoreScrollPositions no_options (browser 0 0 (page "/page1") finds_list_div)
                              (page "/page1") committed_elsewhere = Normal (tt, w')
    /\ effects w'
       = (effects committed_elsewhere ++ assignments ++ [ScrollToXY (Num 0) (Num 0)]
            ++ restore_write (cache committed_elsewhere))%list.
Proof.
  destruct (restore_falls_back_to_origin no_options
              (browser 0 0 (page "/page1") finds_list_div) (page "/page1")
              committed_elsewhere eq_refl)
    as (w' & assignments & Hassign & Hif).
  - intros cacheKey [<-|[<-|[]]]; reflexivity.
  - exists w', assignments. split; [exact Hassign|]. exact Hif.
Defined.

(** Counterexample to C3 as stated: the only committed entry under
    "/page1" has the bare digit as its selector, so no entry is a window
    entry for "/page1"; the restore throws at that selector and ends
    without any call: the window is not scrolled to the origin. *)
Lemma restore_aborts_before_origin :
  forallb (fun cacheKey => negb (is_window_entry_for "/page1" cacheKey))
          (obj_keys (cached (state (cache seeded_page1)))) = true
  /\ querySelector (browser 0 0 (page "/page1") strict) "1" = Throw SyntaxError
  /\ restoreScrollPositions no_options (browser 0 0 (page "/page1") strict)
                            (page "/page1") seeded_page1
     = Throw (SyntaxError, seeded_page1).
Proof. repeat split; vm_compute; reflexivity. Qed.

Lemma key_isolation_witness :
  exists w1 w2 calls,
    effects w1
    = (effects committed_a_and_b ++ calls ++ restore_write (cache committed_a_and_b))%list
    /\ effects w2
       = (effects committed_a_and_b ++ calls
            ++ restore_write
                 (cache (with_cached (without "/a" (cached (state (cache committed_a_and_b))))
                                     committed_a_and_b)))%list
    /\ restoreScrollPositions no_options (browser 0 0 (page "/b") nothing_found)
                              (page "/b") committed_a_and_b = Normal (tt, w1)
    /\ restoreScrollPositions no_options (browser 0 0 (page "/b") nothing_found)
         (page "/b")
         (with_cached (without "/a" (cached (state (cache committed_a_and_b))))
                      committed_a_and_b) = Normal (tt, w2).
Proof.
  destruct (key_isolation no_options (browser 0 0 (page "/b") nothing_found) (page "/b")
              "/a" committed_a_and_b eq_refl)
    as (w1 & w2 & calls & H1 & H2 & Hif); [discriminate|reflexivity|].
  exists w1, w2, calls. split; [exact H1|]. split; [exact H2|]. exact Hif.
Defined.

(** Counterexample to C4 as stated: the location keys "/a___window" and
    "/a" are distinct; an element offset (7, 9) saved under the first is
    the only committed entry, and a restore for the second scrolls the
    window to it. *)
Lemma delimiter_in_key_breaks_isolation :
  "/a___window" <> "/a"
  /\ exists w1 w2,
       saveScrollPositions no_options (browser 0 0 (page "/a___window") finds_list_div)
                           (page "/a___window") pending_list = Normal (tt, w1)
       /\ cached (state (cache w1))
          = [(composite "/a___window" (element_selector "list"),
              {| scrollX := Num 7; scrollY := Num 9 |})]
       /\ restoreScrollPositions no_options (browser 0 0 (page "/a") nothing_found)
                                 (page "/a") w1 = Normal (tt, w2)
       /\ In (ScrollToOptions (Num 9) (Num 7) None) (effects w2).
Proof.
  split; [discriminate|].
  eexists. eexists.
  split; [vm_compute; reflexivity|].
  split; [vm_compute; reflexivity|].
  split; [vm_compute; reflexivity|].
  vm_compute. right. left. reflexivity.
Qed.

Lemma createCache_load_witness :
  createCache (browser_storing None)
  = Normal {| loaded_state := default_json; loaded_set := SetPersist |}
  /\ createCache (browser_storing (Some "false"))
     = Normal {| loaded_state := default_json; loaded_set := SetPersist |}.
Proof.
  split.
  - exact (proj1 (createCache_load (browser_storing None) (fun _ => None)
                    eq_refl eq_refl)
                 (or_introl eq_refl)).
  - exact (proj1 (proj2 (createCache_load (browser_storing (Some "false"))
                           (fun _ => Some "false") eq_refl eq_refl))
                 "false" (JSON.JBool false) eq_refl eq_refl).
Defined.

(** Counterexample to C5 as stated: the stored text is an opening brace,
    which is not valid JSON, and loading throws. *)
Lemma createCache_throws_on_corrupt_text :
  JSON.parse "{" = None
  /\ createCache (browser_storing (Some "{")) = Throw SyntaxError.
Proof. split; reflexivity. Qed.

Lemma navigation_order_witness :
  (forall dispatch onNavigate,
      Toplevel.checkForUrlChange dispatch
        (browser 100 200 (page "/page2") nothing_found) onNavigate pending_window
      = match dispatch SCROLL_SAVE_EVENT pending_window with
        | Normal (_, w_saved) =>
            onNavigate (page "/page1")
              (add_effects [OnNavigate (page "/page1")]
                 (with_lastLocation (page "/page2") w_saved))
        | Throw ew => Throw ew
        end)
  /\ exists w_saved w_final calls,
       dispatchEvent no_options (browser 100 200 (page "/page2") nothing_found)
                     SCROLL_SAVE_EVENT pending_window = Normal (tt, w_saved)
       /\ cached (state (cache w_saved))
          = [("/page1___window", {| scrollX := Num 100; scrollY := Num 200 |})]
       /\ effects w_saved = ([DispatchEvent SCROLL_SAVE_EVENT] ++ calls)%list
       /\ forallb is_save_effect calls = true
       /\ lastLocation w_saved = page "/page1"
       /\ locationRef w_saved = page "/page1"
       /\ frames w_saved = []
       /\ handlePopState no_options (browser 100 200 (page "/page2") nothing_found)
                         pending_window = Normal (tt, w_final)
       /\ cache w_final = cache w_saved
       /\ lastLocation w_final = page "/page2"
       /\ locationRef w_final = page "/page2"
       /\ frames w_final = [FrameOuter]
       /\ effects w_final
          = (effects w_saved
               ++ [OnNavigate (page "/page1"); RequestAnimationFrame FrameOuter])%list.
Proof.
  exact (navigation_order no_options (browser 100 200 (page "/page2") nothing_found)
           pending_window eq_refl (persisting_ok _) (wf_one _ _) eq_refl).
Defined.

Lemma cycle_leaves_no_pending_witness :
  exists w1,
    (report (saveScrollPositions no_options (browser 100 200 (page "/page1") strict)
                                 (page "/page1")) ;;;
     scrolls [TargetWindow; TargetElement list_div]) pending_with_quoted = Normal (tt, w1)
    /\ (forall sel,
           In sel (obj_keys (next (state (cache pending_with_quoted)))) ->
           In (composite "/page1" sel) (obj_keys (cached (state (cache w1))))
           \/ In sel (obj_keys (next (state (cache w1)))))
    /\ exists w',
         restoreScrollPositions no_options (browser 0 0 (page "/page2") strict)
                                (page "/page2") w1 = Normal (tt, w')
         /\ next (state (cache w')) = []
         /\ cached (state (cache w')) = cached (state (cache w1)).
Proof.
  destruct (cycle_leaves_no_pending no_options
              (browser 100 200 (page "/page1") strict)
              (browser 0 0 (page "/page2") strict)
              (page "/page1") (page "/page2")
              [TargetWindow; TargetElement list_div] pending_with_quoted
              eq_refl eq_refl (persisting_ok _) wf_pending_with_quoted)
    as (w1 & Hrun & Hmig & _ & Hif).
  exists w1. split; [exact Hrun|]. split; [exact Hmig|].
  assert (Hw1 : cached (state (cache w1))
                = [("/page1___window", {| scrollX := Num 100; scrollY := Num 200 |})]).
  { revert Hrun. vm_compute. intros [= <-]. reflexivity. }
  assert (Hacc : restore_accepts (browser 0 0 (page "/page2") strict) "/page2"
                   (obj_keys (cached (state (cache w1)))) = true)
    by (rewrite Hw1; reflexivity).
  change (getKey' no_options (page "/page2")) with "/page2" in Hif.
  rewrite Hacc in Hif. exact Hif.
Defined.

(** Counterexample to C7 as stated: with the seeded entry committed
    under "/page1" and the window pending, a save is requested, the list
    scrolls, and a restore is requested. Both requests return; the
    restore listener throws at the seeded selector, the exception is
    reported, and the selector of the list is still pending after the
    cycle. *)
Lemma aborted_restore_leaves_pending :
  exists w',
    run no_options
        [SaveSignal (browser 100 200 (page "/page1") strict);
         Scroll (TargetElement list_div);
         RestoreSignal (browser 100 200 (page "/page1") strict)]
        seeded_page1 = Normal (tt, w')
    /\ next (state (cache w')) = [(element_selector "list", placeholder)]
    /\ In (ReportError SyntaxError) (effects w').
Proof.
  eexists. split; [vm_compute; reflexivity|].
  split; [vm_compute; reflexivity|].
  vm_compute. do 4 right. left. reflexivity.
Qed.

Lemma wf_fresh : obj_wf (next (state (cache Visit.fresh))).
Proof. constructor. Qed.

Lemma element_query_reads_cached_witness :
  onScroll (TargetElement list_div) Visit.fresh = Normal (tt, Visit.scrolled)
  /\ saveScrollPositions no_options Visit.on_list (page "/list") Visit.scrolled
     = Normal (tt, Visit.saved)
  /\ useElementScrollRestoration list_query (browser 0 0 (page "/list") nothing_found)
                                 Visit.saved
     = Normal (Some {| scrollX := Num 7; scrollY := Num 9 |}, Visit.saved).
Proof.
  split; [reflexivity|]. split; [reflexivity|].
  exact (proj1 (proj2 (element_query_reads_cached list_query
                         (browser 0 0 (page "/list") nothing_found) Visit.saved)
                      "list" eq_refl eq_refl)
               no_options Visit.on_list (page "/list") list_div Visit.fresh Visit.scrolled
               eq_refl eq_refl eq_refl wf_fresh eq_refl eq_refl eq_refl eq_refl).
Defined.

(** Counterexample to C8 as stated: the only entry ever saved is the
    one of the list, on the page "/p" while the history state carries a
    key that holds the delimiter; the query for another identifier on
    the page "/p" without that key, an identifier that was never saved,
    derives the same composite key and returns the offsets of the list
    instead of [undefined]. *)
Lemma query_returns_entry_of_another_identifier :
  String.eqb odd_id "list" = false
  /\ defaultGetKey (keyed "/p" odd_key) = odd_key
  /\ defaultGetKey (page "/p") = "/p"
  /\ String.eqb odd_key "/p" = false
  /\ exists w1,
       saveScrollPositions no_options (browser 0 0 (keyed "/p" odd_key) finds_list_div)
                           (keyed "/p" odd_key) pending_list_on_odd = Normal (tt, w1)
       /\ obj_keys (cached (state (cache w1)))
          = [composite odd_key (element_selector "list")]
       /\ useElementScrollRestoration odd_query
            (browser 0 0 (page "/p") nothing_found) w1
          = Normal (Some {| scrollX := Num 7; scrollY := Num 9 |}, w1).
Proof.
  split; [reflexivity|]. split; [reflexivity|].
  split; [reflexivity|]. split; [reflexivity|].
  eexists. split; [vm_compute; reflexivity|].
  split; vm_compute; reflexivity.
Qed.

(** Counterexample to C9 as stated: for the [div] in the body of the
    small document the specification's walk records the body, the child
    of the root, while [getCssSelector] stops below it. *)
Lemma getCssSelector_leaves_out_body :
  getCssSelector list_div = "div:nth-child(1)"
  /\ computeSelector list_div = "body:nth-child(2) > div:nth-child(1)"
  /\ getCssSelector body = ""
  /\ computeSelector body = "body:nth-child(2)".
Proof. repeat split; reflexivity. Qed.

(** C10 (as amended): a restore leaves the committed map, the kind of
    cache and the location pointers as they were, whether it returns or
    throws. When it returns, which it does when there is no window or
    when [document.querySelector] accepts every selector that the loop
    looks up, [next] is cleared and the set of scrolled elements is reset
    whenever a window exists (with the empty [set] of the fallback cache
    nothing is written at all); when it throws, [next] and the set of
    scrolled elements are left as they were. *)
Theorem restore_frame options env currentLocation w :
  exists w',
    cached (state (cache w')) = cached (state (cache w))
    /\ set (cache w') = set (cache w)
    /\ locationRef w' = locationRef w
    /\ lastLocation w' = lastLocation w
    /\ frames w' = frames w
    /\ if negb (window_defined env)
          || restore_accepts env (getKey' options currentLocation)
               (obj_keys (cached (state (cache w))))
       then
         restoreScrollPositions options env currentLocation w = Normal (tt, w')
         /\ next (state (cache w'))
            = (if window_defined env
               then match set (cache w) with
                    | SetPersist => []
                    | SetNoop => next (state (cache w))
                    end
               else next (state (cache w)))
         /\ weakScrolledElements w'
            = (if window_defined env then [] else weakScrolledElements w)
       else
         exists e,
           restoreScrollPositions options env currentLocation w = Throw (e, w')
           /\ next (state (cache w')) = next (state (cache w))
           /\ weakScrolledElements w' = weakScrolledElements w.
Proof. exact (restoreScrollPositions_frame options env currentLocation w). Qed.

(** Counterexample to C10 as stated: the window has scrolled and is
    pending, and the committed map holds the seeded entry under
    "/page1". The restore for "/page1" throws at the seeded selector and
    leaves the world as it was: [next] is not cleared and the set of
    scrolled elements is not reset. *)
Lemma aborted_restore_keeps_next :
  next (state (cache seeded_scrolled)) = [(windowKey, placeholder)]
  /\ weakScrolledElements seeded_scrolled = [TargetWindow]
  /\ restoreScrollPositions no_options (browser 0 0 (page "/page1") strict)
                            (page "/page1") seeded_scrolled
     = Throw (SyntaxError, seeded_scrolled).
Proof. repeat split; vm_compute; reflexivity. Qed.

(** * The whole state machine *)

Lemma last_write_app a b :
  last_write (a ++ b)
  = match last_write b with Some st => Some st | None => last_write a end.
Proof.
  induction a as [|e a IH]; cbn [app last_write].
  - now destruct (last_write b).
  - rewrite IH. destruct (last_write b); [reflexivity|].
    destruct (last_write a); reflexivity.
Qed.

Lemma follows_refl w : follows w w.
Proof.
  split; [reflexivity|]. split; [auto|].
  exists []. rewrite app_nil_r. repeat split; auto.
Qed.

Lemma follows_trans w1 w2 w3 : follows w1 w2 -> follows w2 w3 -> follows w1 w3.
Proof.
  intros (Hset1 & Hkeys1 & new1 & Heff1 & Hnoop1 & Hlast1)
         (Hset2 & Hkeys2 & new2 & Heff2 & Hnoop2 & Hlast2).
  split; [congruence|]. split; [auto|].
  exists (new1 ++ new2)%list. split; [rewrite Heff2, Heff1; now rewrite app_assoc|].
  rewrite last_write_app. split.
  - intros Hn. rewrite Hnoop2 by congruence. auto.
  - destruct Hlast2 as [H2|[H2 Hc2]].
    + left. now rewrite H2.
    + rewrite H2. destruct Hlast1 as [H1|[H1 Hc1]].
      * left. now rewrite H1, Hc2.
      * right. split; [assumption|congruence].
Qed.

Lemma steady_ret : steady (ret tt).
Proof.
  intros w Hs. exists w. split; [reflexivity|]. split; [exact Hs|apply follows_refl].
Qed.

Lemma steady_bind m k : steady m -> steady k -> steady (m ;;; k).
Proof.
  intros Hm Hk w Hs.
  destruct (Hm w Hs) as (w1 & Hrun1 & Hs1 & Hf1).
  destruct (Hk w1 Hs1) as (w2 & Hrun2 & Hs2 & Hf2).
  exists w2. unfold bind. rewrite Hrun1. split; [exact Hrun2|].
  split; [exact Hs2|]. eapply follows_trans; eassumption.
Qed.

Lemma steady_reading {A} (read : World -> A) (m : A -> M unit) :
  (forall a, steady (m a)) -> steady (fun w => m (read w) w).
Proof. intros Hm w Hs. apply (Hm (read w) w Hs). Qed.

Lemma settles_reading {A} (read : World -> A) (m : A -> M unit) :
  (forall a, settles (m a)) -> settles (fun w => m (read w) w).
Proof. intros Hm w Hs. apply (Hm (read w) w Hs). Qed.

(** A step that leaves the cache alone and makes calls none of which
    is a write to the storage. *)
Lemma steady_quiet (f : World -> World) calls :
  (forall w, cache (f w) = cache w) ->
  (forall w, effects (f w) = (effects w ++ calls)%list) ->
  last_write calls = None ->
  steady (fun w => Normal (tt, f w)).
Proof.
  intros Hcache Heff Hcalls w Hs. exists (f w). split; [reflexivity|].
  unfold sound, follows. rewrite !Hcache. split; [exact Hs|].
  split; [reflexivity|]. split; [auto|].
  exists calls. repeat split; auto.
Qed.

Lemma steady_emit e : is_storage_write e = false -> steady (emit e).
Proof.
  intros He. apply (steady_quiet (add_effects [e]) [e]); try reflexivity.
  destruct e; try reflexivity. discriminate He.
Qed.

(** The host reports an exception and goes on: a listener that settles
    never makes its dispatcher throw. *)
Lemma steady_report m : settles m -> steady (report m).
Proof.
  intros Hm w Hs. destruct (Hm w Hs) as (w' & [Hrun|[e Hrun]] & Hs' & Hf).
  - exists w'. unfold report. rewrite Hrun. auto.
  - destruct (steady_emit (ReportError e) eq_refl w' Hs') as (w'' & Hemit & Hs'' & Hf'').
    exists w''. unfold report. rewrite Hrun. split; [exact Hemit|].
    split; [exact Hs''|]. eapply follows_trans; eassumption.
Qed.

Lemma steady_put_locationRef l : steady (put_locationRef l).
Proof.
  apply (steady_quiet (with_locationRef l) []); try reflexivity.
  intros w. cbn. now rewrite app_nil_r.
Qed.

Lemma steady_put_lastLocation l : steady (put_lastLocation l).
Proof.
  apply (steady_quiet (with_lastLocation l) []); try reflexivity.
  intros w. cbn. now rewrite app_nil_r.
Qed.

Lemma steady_push_frame cb : steady (push_frame cb).
Proof.
  apply (steady_quiet (fun w => with_frames (frames w ++ [cb]) w) []); try reflexivity.
  intros w. cbn. now rewrite app_nil_r.
Qed.

Lemma committed_keys_mono env locationKey pending :
  forall c k, In k (obj_keys c) -> In k (obj_keys (committed env locationKey pending c)).
Proof.
  induction pending as [|[sel e] rest IH]; intros c k Hin; [exact Hin|].
  cbn [committed]. destruct (read_offsets env sel e); [|exact Hin].
  apply IH. now apply obj_keys_set_in.
Qed.

Lemma committed_wf env locationKey pending :
  forall c, obj_wf c -> obj_wf (committed env locationKey pending c).
Proof.
  induction pending as [|[sel e] rest IH]; intros c Hwf; [exact Hwf|].
  cbn [committed]. destruct (read_offsets env sel e); [|exact Hwf].
  apply IH. now apply obj_set_wf.
Qed.

Lemma nothing_migrated env locationKey pending c :
  migrated env pending = [] ->
  save_writes env locationKey pending c = []
  /\ committed env locationKey pending c = c
  /\ uncommitted env pending = pending.
Proof.
  destruct pending as [|[k e] rest]; [auto|].
  cbn [migrated save_writes committed uncommitted].
  destruct (read_offsets env k e); [discriminate|auto].
Qed.

Lemma last_write_save_writes env locationKey pending :
  forall c,
    last_write (save_writes env locationKey pending c)
    = match migrated env pending with
      | [] => None
      | _ => Some {| cached := committed env locationKey pending c;
                     next := uncommitted env pending |}
      end.
Proof.
  induction pending as [|[sel e] rest IH]; intros c; [reflexivity|].
  cbn [save_writes committed migrated uncommitted].
  destruct (read_offsets env sel e) as [entry|x]; [|reflexivity].
  cbn [last_write]. rewrite IH.
  destruct (migrated env rest) eqn:Hm; [|reflexivity].
  destruct (nothing_migrated env locationKey rest
              (obj_set (composite locationKey sel) entry c) Hm) as (_ & -> & ->).
  reflexivity.
Qed.

Lemma last_write_restore_turn options env locationKey windowRestored cacheKey entry :
  last_write (fst (restore_turn options env locationKey windowRestored cacheKey entry))
  = None.
Proof.
  unfold restore_turn.
  destruct (Js.split cacheKey delimiter) as [|key [|elementSelector rest]];
    try reflexivity.
  destruct (String.eqb key locationKey); [|reflexivity].
  destruct (String.eqb elementSelector windowKey); [reflexivity|].
  destruct (Js.truthy elementSelector); [|reflexivity].
  destruct (querySelector env elementSelector) as [[element|]|x]; reflexivity.
Qed.

Lemma last_write_restore_calls options env locationKey cachedObj keys :
  forall windowRestored,
    last_write (fst (restore_calls options env locationKey cachedObj keys windowRestored))
    = None.
Proof.
  induction keys as [|k rest IH]; intros windowRestored; [reflexivity|].
  cbn [restore_calls]. destruct (obj_get k cachedObj); [|reflexivity].
  destruct (turn_raises env locationKey k); [reflexivity|].
  cbn [fst]. rewrite last_write_app, IH. apply last_write_restore_turn.
Qed.

Lemma last_write_restore_effects options env locationKey c :
  last_write (restore_effects options env locationKey c) = last_write (restore_write c).
Proof.
  unfold restore_effects. rewrite !last_write_app.
  destruct (last_write (restore_write c)); [reflexivity|].
  rewrite last_write_restore_calls.
  now destruct (snd (restore_calls options env locationKey (cached (state c))
                                   (obj_keys (cached (state c))) false)).
Qed.

Lemma steady_onScroll target : steady (onScroll target).
Proof.
  intros w (Hnext & Hcached & Hok). unfold onScroll.
  destruct (existsb (target_eqb target) (weakScrolledElements w)).
  { exists w. split; [reflexivity|]. split; [now repeat split|apply follows_refl]. }
  unfold bind, put_weakScrolledElements, get_cache.
  cbn [with_weakScrolledElements cache].
  destruct (obj_get (scroll_selector target) (next (state (cache w)))).
  { eexists. split; [reflexivity|]. split; [now repeat split|].
    split; [reflexivity|]. split; [auto|].
    exists []. cbn. rewrite app_nil_r. repeat split; auto. }
  unfold cache_set, bind, get_cache. cbn [with_weakScrolledElements cache].
  destruct (set (cache w)) eqn:Hset.
  - eexists. split; [reflexivity|]. split; [now repeat split|].
    split; [reflexivity|]. split; [auto|].
    exists []. cbn. rewrite app_nil_r. repeat split; auto.
  - eexists. split; [reflexivity|]. split.
    + cbn. repeat split; auto.
      * now apply obj_set_wf.
      * unfold cache_ok. cbn. discriminate.
    + split; [cbn; congruence|]. split; [cbn; auto|].
      eexists. split; [reflexivity|]. split; [congruence|]. left. reflexivity.
Qed.

Lemma finish_cases raised w :
  finish raised w = Normal (tt, w) \/ exists e, finish raised w = Throw (e, w).
Proof. destruct raised as [e|]; [right; exists e|left]; reflexivity. Qed.

Lemma settles_saveScrollPositions options env currentLocation :
  settles (saveScrollPositions options env currentLocation).
Proof.
  intros w (Hnext & Hcached & Hok).
  destruct (window_defined env) eqn:Hwin.
  2:{ exists w. unfold saveScrollPositions. rewrite Hwin.
      split; [left; reflexivity|]. split; [now repeat split|apply follows_refl]. }
  destruct (saveScrollPositions_outcome options env currentLocation w Hwin Hok Hnext)
    as (w' & Hsave & Hnext' & Hcached' & Hset' & Heff' & _).
  destruct (saveScrollPositions_sound _ _ _ _ _ _ Hok Hnext Hsave Hnext' Hset')
    as [Hok' Hwf'].
  exists w'. split; [rewrite Hsave; apply finish_cases|]. split.
  - split; [exact Hwf'|]. split; [|exact Hok'].
    rewrite Hcached'. now apply committed_wf.
  - split; [exact Hset'|]. split.
    + intros k. rewrite Hcached'. apply committed_keys_mono.
    + eexists. split; [exact Heff'|]. rewrite last_write_save_writes.
      destruct (migrated env (next (state (cache w)))) as [|p rest] eqn:Hm.
      * split; [reflexivity|]. right. split; [reflexivity|].
        destruct (nothing_migrated env (getKey' options currentLocation) _
                    (cached (state (cache w))) Hm) as (_ & Hc & Hu).
        rewrite Hc in Hcached'. rewrite Hu in Hnext'.
        destruct (cache w) as [[c n] s], (cache w') as [[c' n'] s'].
        cbn in *. now subst.
      * split.
        -- intros Hnoop. specialize (Hok Hnoop). rewrite Hok in Hm. discriminate Hm.
        -- left. rewrite <- Hcached', <- Hnext'. now destruct (state (cache w')).
Qed.

Lemma settles_restoreScrollPositions options env currentLocation :
  settles (restoreScrollPositions options env currentLocation).
Proof.
  intros w (Hnext & Hcached & Hok).
  destruct (window_defined env) eqn:Hwin.
  2:{ exists w. unfold restoreScrollPositions. rewrite Hwin.
      split; [left; reflexivity|]. split; [now repeat split|apply follows_refl]. }
  rewrite restoreScrollPositions_run by assumption.
  destruct (restore_raises env (getKey' options currentLocation)
              (obj_keys (cached (state (cache w))))) as [e|].
  { eexists. split; [right; exists e; reflexivity|].
    split; [now repeat split|].
    split; [reflexivity|]. split; [auto|].
    eexists. split; [reflexivity|]. rewrite last_write_restore_calls. auto. }
  eexists. split; [left; reflexivity|].
  unfold sound, follows, restored_cache.
  cbn [with_weakScrolledElements add_effects with_cache cache effects].
  destruct (set (cache w)) eqn:Hset.
  - rewrite Hset. split; [now repeat split|]. split; [reflexivity|]. split; [auto|].
    eexists. split; [reflexivity|].
    rewrite last_write_restore_effects. unfold restore_write. rewrite Hset.
    repeat split; auto.
  - cbn. split.
    + repeat split; auto. constructor. unfold cache_ok. cbn. discriminate.
    + split; [reflexivity|]. split; [auto|].
      eexists. split; [reflexivity|]. split; [congruence|].
      rewrite last_write_restore_effects. unfold restore_write. rewrite Hset.
      left. reflexivity.
Qed.

Lemma steady_dispatchEvent options env name : steady (dispatchEvent options env name).
Proof.
  unfold dispatchEvent. apply steady_bind.
  - now apply steady_emit.
  - apply steady_report. destruct name.
    + apply (settles_reading locationRef
               (fun l => saveScrollPositions options env l)).
      intros l. apply settles_saveScrollPositions.
    + apply (settles_reading locationRef
               (fun l => restoreScrollPositions options env l)).
      intros l. apply settles_restoreScrollPositions.
Qed.

Lemma steady_saveCurrentScrollPositions options env :
  steady (saveCurrentScrollPositions options env).
Proof.
  unfold saveCurrentScrollPositions, Toplevel.saveCurrentScrollPositions.
  destruct (window_defined env); [apply steady_dispatchEvent|apply steady_ret].
Qed.

Lemma steady_restore_trigger options env :
  steady (restoreScrollPositions_trigger options env).
Proof.
  unfold restoreScrollPositions_trigger, Toplevel.restoreScrollPositions.
  destruct (window_defined env); [apply steady_dispatchEvent|apply steady_ret].
Qed.

Lemma steady_requestAnimationFrame cb : steady (requestAnimationFrame cb).
Proof.
  unfold requestAnimationFrame. apply steady_bind.
  - now apply steady_emit.
  - apply steady_push_frame.
Qed.

Lemma steady_handleNavigation options env : steady (handleNavigation options env).
Proof.
  unfold handleNavigation. apply steady_bind.
  - apply steady_put_locationRef.
  - apply steady_requestAnimationFrame.
Qed.

Lemma steady_checkForUrlChange options env onNavigate :
  (forall l, steady (onNavigate l)) ->
  steady (checkForUrlChange options env onNavigate).
Proof.
  intros Hnav w Hs. unfold checkForUrlChange, Toplevel.checkForUrlChange.
  destruct (location_changed (defaultGetCurrentLocation env) (lastLocation w));
    [|now apply steady_ret].
  assert (Hst : steady (saveCurrentScrollPositions options env ;;;
                        put_lastLocation (defaultGetCurrentLocation env) ;;;
                        emit (OnNavigate (lastLocation w)) ;;;
                        onNavigate (lastLocation w))).
  { apply steady_bind; [apply steady_saveCurrentScrollPositions|].
    apply steady_bind; [apply steady_put_lastLocation|].
    apply steady_bind; [now apply steady_emit|]. apply Hnav. }
  exact (Hst w Hs).
Qed.

Lemma steady_handlePopState options env : steady (handlePopState options env).
Proof.
  apply (steady_checkForUrlChange options env (fun _ => handleNavigation options env)).
  intros l. apply steady_handleNavigation.
Qed.

Lemma steady_settles m : steady m -> settles m.
Proof.
  intros Hm w Hs. destruct (Hm w Hs) as (w' & Hrun & Hs' & Hf). exists w'. auto.
Qed.

Lemma settles_run_frame options env cb : settles (run_frame options env cb).
Proof.
  destruct cb; cbn [run_frame].
  - apply steady_settles, steady_requestAnimationFrame.
  - apply (settles_reading locationRef
             (fun l => restoreScrollPositions options env l)).
    intros l. apply settles_restoreScrollPositions.
Qed.

Lemma steady_run_frames options env cbs : steady (run_frames options env cbs).
Proof.
  induction cbs as [|cb rest IH]; cbn [run_frames]; [apply steady_ret|].
  apply steady_bind; [apply steady_report, settles_run_frame|exact IH].
Qed.

Lemma steady_animation_frame options env : steady (animation_frame options env).
Proof.
  unfold animation_frame. intros w Hs.
  destruct (steady_run_frames options env (frames w) (with_frames [] w) Hs)
    as (w' & Hrun & Hs' & Hf).
  exists w'. split; [exact Hrun|]. split; [exact Hs'|exact Hf].
Qed.

Lemma steady_act options a : steady (act options a).
Proof.
  destruct a; cbn [act].
  - apply steady_onScroll.
  - apply steady_saveCurrentScrollPositions.
  - apply steady_restore_trigger.
  - apply steady_handlePopState.
  - apply steady_animation_frame.
Qed.

Lemma steady_run options actions : steady (run options actions).
Proof.
  induction actions as [|a rest IH]; cbn [run]; [apply steady_ret|].
  apply steady_bind; [apply steady_act|exact IH].
Qed.

Lemma last_write_none es :
  last_write es = None -> forallb (fun e => negb (is_storage_write e)) es = true.
Proof.
  induction es as [|e es IH]; [reflexivity|].
  cbn [last_write forallb]. destruct (last_write es); [discriminate|].
  destruct e; try discriminate; intros _; cbn; now apply IH.
Qed.

Lemma sound_persisting c n location :
  obj_wf c -> obj_wf n ->
  sound (Scenario.world {| cached := c; next := n |} location).
Proof.
  intros Hc Hn. repeat split; auto. unfold cache_ok. cbn. discriminate.
Qed.

Lemma sound_without_storage : sound Session.without_storage.
Proof. repeat split; constructor. Qed.

Lemma sound_committed_elsewhere : sound Scenario.committed_elsewhere.
Proof.
  apply sound_persisting; [|constructor].
  unfold obj_wf. cbn. constructor; [|constructor; [intros []|constructor]].
  intros [H|[]]. discriminate H.
Qed.

Lemma sound_seeded_page1 : sound Scenario.seeded_page1.
Proof. apply sound_persisting; apply wf_one. Qed.

(** X1: from a world whose maps hold each key once, no sequence of
    scroll events, save and restore signals, history changes and
    animation frames makes an entry point of the hook throw: an exception
    raised inside the save or the restore listener, or inside a frame
    callback, is reported by the host and the sequence goes on; the maps
    hold each key once at the end. *)
Theorem run_never_throws options actions w :
  sound w ->
  exists w',
    run options actions w = Normal (tt, w')
    /\ obj_wf (next (state (cache w')))
    /\ obj_wf (cached (state (cache w'))).
Proof.
  intros Hs. destruct (steady_run options actions w Hs) as (w' & Hrun & Hs' & _).
  exists w'. split; [exact Hrun|]. split; apply Hs'.
Qed.

Lemma run_never_throws_witness :
  exists w',
    run Scenario.no_options Session.rough Scenario.seeded_page1 = Normal (tt, w')
    /\ obj_wf (next (state (cache w')))
    /\ obj_wf (cached (state (cache w'))).
Proof.
  apply (run_never_throws Scenario.no_options Session.rough Scenario.seeded_page1).
  exact sound_seeded_page1.
Defined.

(** X2: a key of the committed map is never removed: whatever happens
    afterwards, it is still a key of the committed map. *)
Theorem committed_keys_are_kept options actions w :
  sound w ->
  exists w',
    run options actions w = Normal (tt, w')
    /\ forall k,
         In k (obj_keys (cached (state (cache w)))) ->
         In k (obj_keys (cached (state (cache w')))).
Proof.
  intros Hs.
  destruct (steady_run options actions w Hs) as (w' & Hrun & _ & _ & Hkeys & _).
  exists w'. auto.
Qed.

Lemma committed_keys_are_kept_witness :
  exists w',
    run Scenario.no_options Session.visit Scenario.committed_elsewhere = Normal (tt, w')
    /\ forall k,
         In k (obj_keys (cached (state (cache Scenario.committed_elsewhere)))) ->
         In k (obj_keys (cached (state (cache w')))).
Proof.
  apply (committed_keys_are_kept Scenario.no_options Session.visit
           Scenario.committed_elsewhere).
  exact sound_committed_elsewhere.
Defined.

(** X3: with the fallback cache of a page without storage, nothing that
    happens changes the cache or writes to the storage. *)
Theorem fallback_cache_is_inert options actions w :
  sound w ->
  set (cache w) = SetNoop ->
  exists w' calls,
    run options actions w = Normal (tt, w')
    /\ cache w' = {| state := default_state; set := SetNoop |}
    /\ effects w' = (effects w ++ calls)%list
    /\ forallb (fun e => negb (is_storage_write e)) calls = true.
Proof.
  intros Hs Hset.
  destruct (steady_run options actions w Hs)
    as (w' & Hrun & _ & _ & _ & new & Heff & Hnoop & Hlast).
  exists w', new. split; [exact Hrun|].
  specialize (Hnoop Hset).
  destruct Hlast as [Hl|[_ Hc]]; [congruence|].
  split.
  - rewrite Hc. destruct Hs as (_ & _ & Hok). specialize (Hok Hset).
    destruct (cache w) as [st s]. cbn in *. now subst.
  - split; [exact Heff|]. now apply last_write_none.
Qed.

Lemma fallback_cache_is_inert_witness :
  exists w' calls,
    run Scenario.no_options Session.visit Session.without_storage = Normal (tt, w')
    /\ cache w' = {| state := default_state; set := SetNoop |}
    /\ effects w' = (effects Session.without_storage ++ calls)%list
    /\ forallb (fun e => negb (is_storage_write e)) calls = true.
Proof.
  apply (fallback_cache_is_inert Scenario.no_options Session.visit Session.without_storage).
  - exact sound_without_storage.
  - reflexivity.
Defined.

(** X4: the storage mirrors the cache: over any sequence of events,
    either the state last written to the storage is the current state of
    the cache, or nothing was written and the cache is the one the
    sequence started from. *)
Theorem storage_mirrors_cache options actions w :
  sound w ->
  exists w' calls,
    run options actions w = Normal (tt, w')
    /\ effects w' = (effects w ++ calls)%list
    /\ (last_write calls = Some (state (cache w'))
        \/ (last_write calls = None /\ cache w' = cache w)).
Proof.
  intros Hs.
  destruct (steady_run options actions w Hs)
    as (w' & Hrun & _ & _ & _ & new & Heff & _ & Hlast).
  exists w', new. auto.
Qed.

Lemma storage_mirrors_cache_witness :
  exists w' calls,
    run Scenario.no_options Session.rough Scenario.seeded_page1 = Normal (tt, w')
    /\ effects w' = (effects Scenario.seeded_page1 ++ calls)%list
    /\ (last_write calls = Some (state (cache w'))
        \/ (last_write calls = None /\ cache w' = cache Scenario.seeded_page1)).
Proof.
  apply (storage_mirrors_cache Scenario.no_options Session.rough Scenario.seeded_page1).
  exact sound_seeded_page1.
Defined.

(** * Saves, restores and scroll events in sequence *)

Lemma restored_cache_twice c : restored_cache (restored_cache c) = restored_cache c.
Proof. unfold restored_cache. destruct (set c) eqn:H; [now rewrite H|reflexivity]. Qed.

Lemma restored_cache_cached c : cached (state (restored_cache c)) = cached (state c).
Proof. unfold restored_cache. now destruct (set c). Qed.

Lemma restore_write_restored c : restore_write (restored_cache c) = restore_write c.
Proof. unfold restore_write, restored_cache. destruct (set c) eqn:H; [now rewrite H|reflexivity]. Qed.

(** X5: restoring twice in a row for the same location ends both times
    in the same way, with the same calls: when [document.querySelector]
    accepts every selector that the loop looks up, both restores return
    after the same scroll calls and the same write; otherwise both throw
    the same exception after the same calls. In both cases the second
    restore leaves the cache and the set of scrolled elements as the
    first one left them. *)
Theorem restore_twice options env currentLocation w :
  window_defined env = true ->
  exists w1 w2 calls,
    effects w1 = (effects w ++ calls)%list
    /\ effects w2 = (effects w1 ++ calls)%list
    /\ cache w2 = cache w1
    /\ weakScrolledElements w2 = weakScrolledElements w1
    /\ if restore_accepts env (getKey' options currentLocation)
            (obj_keys (cached (state (cache w))))
       then
         restoreScrollPositions options env currentLocation w = Normal (tt, w1)
         /\ restoreScrollPositions options env currentLocation w1 = Normal (tt, w2)
       else
         exists e,
           restoreScrollPositions options env currentLocation w = Throw (e, w1)
           /\ restoreScrollPositions options env currentLocation w1 = Throw (e, w2).
Proof.
  intros Hwin.
  destruct (restore_accepts env (getKey' options currentLocation)
              (obj_keys (cached (state (cache w))))) eqn:Hacc.
  - assert (Hr := restore_accepts_true _ _ _ Hacc).
    pose (w1 := with_weakScrolledElements []
                  (add_effects (restore_effects options env (getKey' options currentLocation)
                                                (cache w))
                     (with_cache (restored_cache (cache w)) w))).
    assert (Hrun1 : restoreScrollPositions options env currentLocation w = Normal (tt, w1)).
    { rewrite restoreScrollPositions_run by assumption. now rewrite Hr. }
    assert (Hrun2 : restoreScrollPositions options env currentLocation w1
                    = Normal (tt,
                        with_weakScrolledElements []
                          (add_effects
                             (restore_effects options env (getKey' options currentLocation)
                                              (cache w1))
                             (with_cache (restored_cache (cache w1)) w1)))).
    { rewrite restoreScrollPositions_run by assumption.
      unfold w1 at 1 2.
      cbn [with_weakScrolledElements add_effects with_cache cache].
      now rewrite restored_cache_cached, Hr. }
    exists w1. eexists. exists (restore_effects options env (getKey' options currentLocation)
                                  (cache w)).
    split; [reflexivity|]. split; [|split; [|split; [|split; [exact Hrun1|exact Hrun2]]]].
    + cbn [with_weakScrolledElements add_effects with_cache cache effects].
      f_equal. unfold restore_effects, w1.
      cbn [with_weakScrolledElements add_effects with_cache cache].
      now rewrite restored_cache_cached, restore_write_restored.
    + unfold w1. cbn [with_weakScrolledElements add_effects with_cache cache].
      now rewrite restored_cache_twice.
    + reflexivity.
  - destruct (restore_accepts_false _ _ _ Hacc) as [e He].
    pose (calls := fst (restore_calls options env (getKey' options currentLocation)
                          (cached (state (cache w))) (obj_keys (cached (state (cache w))))
                          false)).
    assert (Hthrow : forall w0, cache w0 = cache w ->
              restoreScrollPositions options env currentLocation w0
              = Throw (e, add_effects calls w0)).
    { intros w0 Hc. rewrite restoreScrollPositions_run by assumption.
      rewrite Hc, He. reflexivity. }
    exists (add_effects calls w), (add_effects calls (add_effects calls w)), calls.
    split; [reflexivity|]. split; [reflexivity|]. split; [reflexivity|].
    split; [reflexivity|]. exists e. split; apply Hthrow; reflexivity.
Qed.

Lemma restore_twice_witness :
  exists w1 w2 calls,
    effects w1 = (effects Scenario.seeded_scrolled ++ calls)%list
    /\ effects w2 = (effects w1 ++ calls)%list
    /\ cache w2 = cache w1
    /\ weakScrolledElements w2 = weakScrolledElements w1
    /\ exists e,
         restoreScrollPositions Scenario.no_options
           (Scenario.browser 0 0 (Scenario.page "/page1") Scenario.strict)
           (Scenario.page "/page1") Scenario.seeded_scrolled = Throw (e, w1)
         /\ restoreScrollPositions Scenario.no_options
              (Scenario.browser 0 0 (Scenario.page "/page1") Scenario.strict)
              (Scenario.page "/page1") w1 = Throw (e, w2).
Proof.
  exact (restore_twice Scenario.no_options
           (Scenario.browser 0 0 (Scenario.page "/page1") Scenario.strict)
           (Scenario.page "/page1") Scenario.seeded_scrolled eq_refl).
Defined.

Lemma uncommitted_again env locationKey pending c :
  save_raises env (uncommitted env pending) = save_raises env pending
  /\ save_writes env locationKey (uncommitted env pending) c = []
  /\ committed env locationKey (uncommitted env pending) c = c
  /\ uncommitted env (uncommitted env pending) = uncommitted env pending.
Proof.
  induction pending as [|[k e] rest IH]; [auto|].
  cbn [uncommitted save_raises].
  destruct (read_offsets env k e) as [v|x] eqn:Hread; [exact IH|].
  cbn [save_raises save_writes committed uncommitted]. rewrite Hread. auto.
Qed.

(** X6: once a save has run, a further save changes nothing and writes
    nothing until a scroll event registers a selector again: after a
    save that returned, for any location and whatever the page has
    become, because nothing is pending; after a save that stopped at a
    rejected selector, for any location while the page still rejects it,
    because the further save throws at once at the same selector. *)
Theorem save_after_save_is_idle options env currentLocation w :
  window_defined env = true ->
  cache_ok (cache w) ->
  obj_wf (next (state (cache w))) ->
  exists w1,
    if save_accepts env (next (state (cache w)))
    then
      saveScrollPositions options env currentLocation w = Normal (tt, w1)
      /\ forall env' otherLocation,
           saveScrollPositions options env' otherLocation w1 = Normal (tt, w1)
    else
      exists e,
        saveScrollPositions options env currentLocation w = Throw (e, w1)
        /\ forall otherLocation,
             saveScrollPositions options env otherLocation w1 = Throw (e, w1).
Proof.
  intros Hwin Hok Hwf.
  destruct (saveScrollPositions_outcome options env currentLocation w Hwin Hok Hwf)
    as (w1 & Hsave & Hnext & Hcached & Hset & _).
  exists w1.
  destruct (save_accepts env (next (state (cache w)))) eqn:Hacc.
  - destruct (save_accepts_all _ _ Hacc) as (Hr & Hu & _).
    rewrite Hr in Hsave. split; [exact Hsave|]. intros env' l.
    rewrite Hu in Hnext. unfold saveScrollPositions.
    destruct (window_defined env'); cbn [negb]; [|reflexivity].
    unfold bind, get_cache. rewrite Hnext. reflexivity.
  - destruct (save_raises env (next (state (cache w)))) as [e|] eqn:Hr.
    2:{ apply save_raises_none in Hr. congruence. }
    exists e. split; [exact Hsave|]. intros l.
    assert (Hpersist : set (cache w1) = SetPersist).
    { rewrite Hset. destruct (set (cache w)) eqn:Hs; [|reflexivity].
      rewrite (Hok Hs) in Hr. discriminate Hr. }
    rewrite saveScrollPositions_persist; try assumption.
    2:{ rewrite Hnext. now apply uncommitted_wf. }
    rewrite Hnext.
    destruct (uncommitted_again env (getKey' options l) (next (state (cache w)))
                (cached (state (cache w1)))) as (-> & -> & -> & ->).
    rewrite Hr. cbn [finish]. rewrite add_effects_with_cache, add_effects_nil.
    rewrite <- Hnext. rewrite <- (persisting_eta (cache w1) Hpersist).
    now rewrite with_cache_same.
Qed.

Lemma save_after_save_is_idle_witness :
  exists w1 e,
    saveScrollPositions Scenario.no_options
      (Scenario.browser 100 200 (Scenario.page "/page1") Scenario.strict)
      (Scenario.page "/page1") Scenario.pending_with_quoted = Throw (e, w1)
    /\ forall otherLocation,
         saveScrollPositions Scenario.no_options
           (Scenario.browser 100 200 (Scenario.page "/page1") Scenario.strict)
           otherLocation w1 = Throw (e, w1).
Proof.
  destruct (save_after_save_is_idle Scenario.no_options
              (Scenario.browser 100 200 (Scenario.page "/page1") Scenario.strict)
              (Scenario.page "/page1") Scenario.pending_with_quoted
              eq_refl (persisting_ok _) wf_pending_with_quoted)
    as (w1 & e & Hsave & Hidle).
  exists w1, e. auto.
Defined.

(** X7: a save touches only the composite keys of the pending
    selectors: whether it returns or stops at a rejected selector, every
    other key of the committed map keeps its entry, or stays absent. *)
Theorem save_keeps_other_entries options env currentLocation w cacheKey :
  window_defined env = true ->
  cache_ok (cache w) ->
  obj_wf (next (state (cache w))) ->
  (forall sel, In sel (obj_keys (next (state (cache w)))) ->
               composite (getKey' options currentLocation) sel <> cacheKey) ->
  exists w1,
    (saveScrollPositions options env currentLocation w = Normal (tt, w1)
     \/ exists e, saveScrollPositions options env currentLocation w = Throw (e, w1))
    /\ obj_get cacheKey (cached (state (cache w1)))
       = obj_get cacheKey (cached (state (cache w))).
Proof.
  intros Hwin Hok Hwf Hother.
  destruct (saveScrollPositions_outcome options env currentLocation w Hwin Hok Hwf)
    as (w1 & Hsave & _ & Hcached & _).
  exists w1. split; [rewrite Hsave; apply finish_cases|].
  rewrite Hcached. apply committed_other.
  intros sel Hsel. apply Hother. now apply (migrated_keys_in env).
Qed.

Lemma save_keeps_other_entries_witness :
  exists w1,
    (saveScrollPositions Scenario.no_options
       (Scenario.browser 100 200 (Scenario.page "/page1") Scenario.strict)
       (Scenario.page "/page1") Scenario.seeded_page1 = Normal (tt, w1)
     \/ exists e,
          saveScrollPositions Scenario.no_options
            (Scenario.browser 100 200 (Scenario.page "/page1") Scenario.strict)
            (Scenario.page "/page1") Scenario.seeded_page1 = Throw (e, w1))
    /\ obj_get "/page1___1" (cached (state (cache w1)))
       = obj_get "/page1___1" (cached (state (cache Scenario.seeded_page1))).
Proof.
  apply (save_keeps_other_entries Scenario.no_options
           (Scenario.browser 100 200 (Scenario.page "/page1") Scenario.strict)
           (Scenario.page "/page1") Scenario.seeded_page1 "/page1___1").
  - reflexivity.
  - apply persisting_ok.
  - apply wf_one.
  - intros sel [<-|[]]. discriminate.
Defined.

(** X8: a second scroll event from the same target, before any
    restore, does nothing at all. *)
Theorem scroll_again_is_idle target w :
  exists w1,
    onScroll target w = Normal (tt, w1)
    /\ onScroll target w1 = Normal (tt, w1).
Proof.
  unfold onScroll at 1.
  destruct (existsb (target_eqb target) (weakScrolledElements w)) eqn:Hseen.
  - exists w. split; [reflexivity|]. unfold onScroll. now rewrite Hseen.
  - unfold bind, put_weakScrolledElements, get_cache.
    cbn [with_weakScrolledElements cache].
    assert (Hsnoc := existsb_snoc (target_eqb target) (weakScrolledElements w) target
                       (target_eqb_refl target)).
    destruct (obj_get (scroll_selector target) (next (state (cache w)))).
    + eexists. split; [reflexivity|]. unfold onScroll.
      cbn [with_weakScrolledElements weakScrolledElements]. now rewrite Hsnoc.
    + unfold cache_set, bind, get_cache. cbn [with_weakScrolledElements cache].
      destruct (set (cache w)); eexists; (split; [reflexivity|]); unfold onScroll;
        cbn; now rewrite Hsnoc.
Qed.

(** X9: the first scroll event of a target makes its selector pending,
    and never changes an entry that is already pending or committed: an
    entry already pending under the same selector keeps its offsets. *)
Theorem scroll_registers_once target w :
  existsb (target_eqb target) (weakScrolledElements w) = false ->
  set (cache w) = SetPersist ->
  exists w1,
    onScroll target w = Normal (tt, w1)
    /\ In (scroll_selector target) (obj_keys (next (state (cache w1))))
    /\ (forall sel entry,
           obj_get sel (next (state (cache w))) = Some entry ->
           obj_get sel (next (state (cache w1))) = Some entry)
    /\ cached (state (cache w1)) = cached (state (cache w)).
Proof.
  intros Hseen Hset.
  destruct (onScroll_unseen target w Hseen Hset) as (w1 & Hrun & _ & Hcached & _ & Hnext).
  exists w1. split; [exact Hrun|]. rewrite Hnext.
  destruct (obj_get (scroll_selector target) (next (state (cache w)))) as [e|] eqn:Hget.
  - split; [eapply obj_get_some_in_keys; eassumption|]. auto.
  - split; [eapply obj_get_some_in_keys; apply obj_get_set_same|].
    split; [|assumption].
    intros sel entry Hsel. rewrite obj_get_set_other; [assumption|].
    intros <-. congruence.
Qed.

Lemma scroll_registers_once_witness :
  exists w1,
    onScroll (TargetElement Scenario.list_div) Scenario.pending_window = Normal (tt, w1)
    /\ In (scroll_selector (TargetElement Scenario.list_div))
          (obj_keys (next (state (cache w1))))
    /\ (forall sel entry,
           obj_get sel (next (state (cache Scenario.pending_window))) = Some entry ->
           obj_get sel (next (state (cache w1))) = Some entry)
    /\ cached (state (cache w1)) = cached (state (cache Scenario.pending_window)).
Proof.
  apply (scroll_registers_once (TargetElement Scenario.list_div) Scenario.pending_window);
    reflexivity.
Defined.

Lemma scroll_again_seen target w :
  exists w1,
    onScroll target w = Normal (tt, w1)
    /\ existsb (target_eqb target) (weakScrolledElements w1) = true
    /\ set (cache w1) = set (cache w)
    /\ cached (state (cache w1)) = cached (state (cache w))
    /\ (obj_wf (next (state (cache w))) -> obj_wf (next (state (cache w1)))).
Proof.
  destruct (onScroll_run target w) as (w1 & Hrun & Hset & Hcached & _ & Hwf & _).
  exists w1. split; [exact Hrun|]. split; [|auto].
  revert Hrun. unfold onScroll.
  destruct (existsb (target_eqb target) (weakScrolledElements w)) eqn:Hseen.
  - intros [= <-]. exact Hseen.
  - unfold bind, put_weakScrolledElements, get_cache.
    cbn [with_weakScrolledElements cache].
    assert (Hsnoc := existsb_snoc (target_eqb target) (weakScrolledElements w) target
                       (target_eqb_refl target)).
    destruct (obj_get (scroll_selector target) (next (state (cache w)))).
    + intros [= <-]. exact Hsnoc.
    + unfold cache_set, bind, get_cache. cbn [with_weakScrolledElements cache].
      destruct (set (cache w)); intros [= <-]; exact Hsnoc.
Qed.

(** X10: a restore re-arms the tracking exactly when it returns. A
    target scrolls, a restore runs as a listener, and the target scrolls
    again: when [document.querySelector] accepts every selector that the
    loop looks up, the target is pending again, alone; when the restore
    throws, the exception is reported and the second scroll event is
    ignored. *)
Theorem restore_rearms_tracking options env currentLocation target w :
  window_defined env = true ->
  set (cache w) = SetPersist ->
  exists w1,
    (onScroll target ;;;
     report (restoreScrollPositions options env currentLocation)) w = Normal (tt, w1)
    /\ if restore_accepts env (getKey' options currentLocation)
            (obj_keys (cached (state (cache w))))
       then
         exists w',
           onScroll target w1 = Normal (tt, w')
           /\ obj_keys (next (state (cache w'))) = [scroll_selector target]
       else
         onScroll target w1 = Normal (tt, w1)
         /\ exists e, In (ReportError e) (effects w1).
Proof.
  intros Hwin Hset.
  destruct (scroll_again_seen target w) as (w0 & Hrun0 & Hseen0 & Hset0 & Hcached0 & _).
  destruct (restoreScrollPositions_frame options env currentLocation w0)
    as (wr & _ & Hsetr & _ & _ & _ & Hif).
  rewrite Hwin, Hcached0 in Hif. cbn [negb orb] in Hif.
  destruct (restore_accepts env (getKey' options currentLocation)
              (obj_keys (cached (state (cache w))))).
  - destruct Hif as (Hrun & Hnext & Hweak).
    exists wr. unfold bind. rewrite Hrun0. unfold report. rewrite Hrun.
    split; [reflexivity|].
    destruct (onScroll_unseen target wr) as (w3 & Hrun3 & _ & _ & _ & Hnext3).
    { now rewrite Hweak. }
    { congruence. }
    exists w3. split; [exact Hrun3|].
    rewrite Hnext3, Hnext, Hset0, Hset. reflexivity.
  - destruct Hif as (e & Hrun & Hnext & Hweak).
    exists (add_effects [ReportError e] wr).
    unfold bind. rewrite Hrun0. unfold report. rewrite Hrun.
    split; [reflexivity|]. split.
    + unfold onScroll. cbn [add_effects weakScrolledElements].
      now rewrite Hweak, Hseen0.
    + exists e. cbn [add_effects effects]. apply in_or_app. right. now left.
Qed.

Lemma restore_rearms_tracking_witness :
  exists w1,
    (onScroll TargetWindow ;;;
     report (restoreScrollPositions Scenario.no_options
               (Scenario.browser 0 0 (Scenario.page "/page1") Scenario.strict)
               (Scenario.page "/page1"))) Scenario.pending_window = Normal (tt, w1)
    /\ exists w',
         onScroll TargetWindow w1 = Normal (tt, w')
         /\ obj_keys (next (state (cache w'))) = [scroll_selector TargetWindow].
Proof.
  exact (restore_rearms_tracking Scenario.no_options
           (Scenario.browser 0 0 (Scenario.page "/page1") Scenario.strict)
           (Scenario.page "/page1") TargetWindow Scenario.pending_window
           eq_refl eq_refl).
Defined.

(** X11: a save does not re-arm the tracking: when a target scrolls, a
    save runs as a listener and the target scrolls again before any
    restore, the second scroll event is ignored, whether the save
    returned or stopped at a rejected selector; when every pending
    selector is accepted, nothing is pending for the next save. *)
Theorem save_does_not_rearm options env currentLocation target w :
  window_defined env = true ->
  set (cache w) = SetPersist ->
  obj_wf (next (state (cache w))) ->
  exists w0 w1,
    onScroll target w = Normal (tt, w0)
    /\ report (saveScrollPositions options env currentLocation) w0 = Normal (tt, w1)
    /\ onScroll target w1 = Normal (tt, w1)
    /\ (save_accepts env (next (state (cache w0))) = true ->
        next (state (cache w1)) = []).
Proof.
  intros Hwin Hset Hwf.
  destruct (scroll_again_seen target w) as (w0 & Hrun0 & Hseen0 & Hset0 & _ & Hwf0).
  rewrite Hset in Hset0. specialize (Hwf0 Hwf).
  destruct (saveScrollPositions_outcome options env currentLocation w0 Hwin)
    as (ws & Hsave & Hnext & _ & _ & _ & Hweak & _);
    [unfold cache_ok; congruence|exact Hwf0|].
  exists w0, (add_effects (reported (save_raises env (next (state (cache w0))))) ws).
  split; [exact Hrun0|]. split; [apply (report_finish _ _ _ _ Hsave)|]. split.
  - unfold onScroll. cbn [add_effects weakScrolledElements]. now rewrite Hweak, Hseen0.
  - intros Hacc. cbn [add_effects cache]. rewrite Hnext.
    apply (save_accepts_all _ _ Hacc).
Qed.

Lemma save_does_not_rearm_witness :
  exists w0 w1,
    onScroll (TargetElement Scenario.quoted_div) Scenario.pending_window = Normal (tt, w0)
    /\ report (saveScrollPositions Scenario.no_options
                 (Scenario.browser 100 200 (Scenario.page "/page1") Scenario.strict)
                 (Scenario.page "/page1")) w0 = Normal (tt, w1)
    /\ onScroll (TargetElement Scenario.quoted_div) w1 = Normal (tt, w1)
    /\ (save_accepts (Scenario.browser 100 200 (Scenario.page "/page1") Scenario.strict)
                     (next (state (cache w0))) = true ->
        next (state (cache w1)) = []).
Proof.
  apply (save_does_not_rearm Scenario.no_options
           (Scenario.browser 100 200 (Scenario.page "/page1") Scenario.strict)
           (Scenario.page "/page1") (TargetElement Scenario.quoted_div)
           Scenario.pending_window).
  - reflexivity.
  - reflexivity.
  - apply wf_one.
Defined.

(** * Restoring elements *)

Lemma split_from_no_delimiter s :
  contains delimiter s = false ->
  forall cur, Js.split_from delimiter 0 cur s = [cur ++ s].
Proof.
  induction s as [|c s IH]; intros Hfree cur.
  - cbn. now rewrite append_nil_r.
  - cbn [contains] in Hfree. apply orb_false_elim in Hfree. destruct Hfree as [Hp Hs].
    cbn [Js.split_from]. rewrite Hp. rewrite (IH Hs).
    now rewrite append_assoc.
Qed.

Lemma split_no_delimiter s :
  contains delimiter s = false -> Js.split s delimiter = [s].
Proof. intros H. unfold Js.split. cbn [delimiter]. apply (split_from_no_delimiter s H ""). Qed.

Lemma split_composite_plain locationKey elementSelector :
  clean_key locationKey = true ->
  contains delimiter elementSelector = false ->
  Js.split (composite locationKey elementSelector) delimiter
  = [locationKey; elementSelector].
Proof.
  intros Hclean Hfree. rewrite split_composite by assumption.
  now rewrite split_no_delimiter.
Qed.

Lemma restore_turn_calls_flag options env locationKey f1 f2 cacheKey entry :
  fst (restore_turn options env locationKey f1 cacheKey entry)
  = fst (restore_turn options env locationKey f2 cacheKey entry).
Proof.
  unfold restore_turn.
  destruct (Js.split cacheKey delimiter) as [|key [|elementSelector rest]];
    try reflexivity.
  destruct (String.eqb key locationKey); [|reflexivity].
  destruct (String.eqb elementSelector windowKey); [reflexivity|].
  destruct (Js.truthy elementSelector); [|reflexivity].
  destruct (querySelector env elementSelector) as [[element|]|x]; reflexivity.
Qed.

Lemma restore_calls_incl options env locationKey cachedObj keys :
  forall windowRestored k entry call,
    (forall k', In k' keys -> In k' (obj_keys cachedObj)) ->
    restore_raises env locationKey keys = None ->
    In k keys ->
    obj_get k cachedObj = Some entry ->
    In call (fst (restore_turn options env locationKey false k entry)) ->
    In call (fst (restore_calls options env locationKey cachedObj keys windowRestored)).
Proof.
  induction keys as [|k0 rest IH];
    intros windowRestored k entry call Hkeys Hraise Hin Hget Hcall; [destruct Hin|].
  cbn [restore_calls]. cbn [restore_raises] in Hraise.
  destruct (obj_get_in_keys k0 _ (Hkeys k0 (or_introl eq_refl))) as [entry0 Hget0].
  rewrite Hget0.
  destruct (turn_raises env locationKey k0); [discriminate|].
  cbn [fst]. apply in_or_app.
  destruct Hin as [->|Hin].
  - left. rewrite Hget in Hget0. inversion Hget0; subst.
    now rewrite (restore_turn_calls_flag options env locationKey windowRestored false).
  - right. eapply IH; eauto. intros k' Hk'. apply Hkeys. now right.
Qed.

(** A restore whose lookups are all accepted makes the calls of every
    turn. *)
Lemma restore_calls_in_effects options env currentLocation w k entry call :
  window_defined env = true ->
  restore_accepts env (getKey' options currentLocation)
    (obj_keys (cached (state (cache w)))) = true ->
  obj_get k (cached (state (cache w))) = Some entry ->
  In call (fst (restore_turn options env (getKey' options currentLocation) false k entry)) ->
  exists w',
    restoreScrollPositions options env currentLocation w = Normal (tt, w')
    /\ (exists calls, effects w' = (effects w ++ calls)%list /\ In call calls)
    /\ next (state (cache w'))
       = match set (cache w) with SetPersist => [] | SetNoop => next (state (cache w)) end
    /\ frames w' = frames w.
Proof.
  intros Hwin Hacc Hget Hcall.
  assert (Hr := restore_accepts_true _ _ _ Hacc).
  rewrite restoreScrollPositions_run by assumption. rewrite Hr.
  eexists. split; [reflexivity|]. split; [|split].
  - eexists. split; [reflexivity|].
    unfold restore_effects. apply in_or_app. left.
    eapply restore_calls_incl; eauto.
    eapply obj_get_some_in_keys; eassumption.
  - unfold restored_cache. cbn [with_weakScrolledElements add_effects with_cache cache].
    destruct (set (cache w)) eqn:Hset; cbn; rewrite ?Hset; reflexivity.
  - reflexivity.
Qed.

(** X12: the round trip of an element. When every pending selector is
    accepted, a save under a location key that splits back cleanly
    commits, for a pending selector that holds no delimiter, the live
    offsets of the element; a restore for the same key then assigns these
    offsets to the element that the selector finds at the restore, when
    every selector that its loop looks up is accepted, and throws
    otherwise. *)
Theorem element_round_trip options env env' currentLocation newLocation w sel element :
  window_defined env = true ->
  window_defined env' = true ->
  set (cache w) = SetPersist ->
  obj_wf (next (state (cache w))) ->
  In sel (obj_keys (next (state (cache w)))) ->
  sel <> windowKey ->
  Js.truthy sel = true ->
  contains delimiter sel = false ->
  clean_key (getKey' options currentLocation) = true ->
  getKey' options newLocation = getKey' options currentLocation ->
  save_accepts env (next (state (cache w))) = true ->
  querySelector env' sel = Normal (Some element) ->
  exists w1,
    saveScrollPositions options env currentLocation w = Normal (tt, w1)
    /\ obj_get (composite (getKey' options currentLocation) sel)
               (cached (state (cache w1)))
       = Some (live_offsets env sel)
    /\ if restore_accepts env' (getKey' options newLocation)
            (obj_keys (cached (state (cache w1))))
       then
         exists w2 calls,
           restoreScrollPositions options env' newLocation w1 = Normal (tt, w2)
           /\ effects w2 = (effects w1 ++ calls)%list
           /\ In (SetScrollLeft (node_id element) (scrollX (live_offsets env sel))) calls
           /\ In (SetScrollTop (node_id element) (scrollY (live_offsets env sel))) calls
       else
         exists e w2,
           restoreScrollPositions options env' newLocation w1 = Throw (e, w2).
Proof.
  intros Hwin Hwin' Hset Hwf Hpending Hnw Htruthy Hfree Hclean Hkey Hacc Hfound.
  destruct (obj_get_in_keys _ _ Hpending) as [entry Hentry].
  apply obj_get_some_in in Hentry.
  destruct (save_accepts_all _ _ Hacc) as (Hraise & _ & Hdone).
  destruct (saveScrollPositions_outcome options env currentLocation w Hwin)
    as (w1 & Hsave & _ & Hcached & _); [unfold cache_ok; congruence|assumption|].
  rewrite Hraise in Hsave. exists w1. split; [exact Hsave|].
  assert (Hget : obj_get (composite (getKey' options currentLocation) sel)
                         (cached (state (cache w1)))
                 = Some (live_offsets env sel)).
  { rewrite Hcached. rewrite <- Hdone in Hentry.
    rewrite (proj2 (committed_pending env _ _ Hwf _ _ _ Hentry)). now rewrite Htruthy. }
  split; [exact Hget|].
  destruct (restore_accepts env' (getKey' options newLocation)
              (obj_keys (cached (state (cache w1))))) eqn:Ha.
  - assert (Hturn :
      fst (restore_turn options env' (getKey' options newLocation) false
             (composite (getKey' options currentLocation) sel) (live_offsets env sel))
      = [SetScrollLeft (node_id element) (scrollX (live_offsets env sel));
         SetScrollTop (node_id element) (scrollY (live_offsets env sel))]).
    { unfold restore_turn. rewrite split_composite_plain by assumption.
      rewrite Hkey, String.eqb_refl.
      destruct (String.eqb_spec sel windowKey); [contradiction|].
      now rewrite Htruthy, Hfound. }
    assert (Hr := restore_accepts_true _ _ _ Ha).
    rewrite restoreScrollPositions_run by assumption. rewrite Hr.
    eexists. eexists. split; [reflexivity|]. split; [reflexivity|].
    assert (Hincl : forall call,
      In call [SetScrollLeft (node_id element) (scrollX (live_offsets env sel));
               SetScrollTop (node_id element) (scrollY (live_offsets env sel))] ->
      In call (restore_effects options env' (getKey' options newLocation) (cache w1))).
    { intros call Hcall. unfold restore_effects. apply in_or_app. left.
      eapply restore_calls_incl; [auto|exact Hr| |exact Hget|rewrite Hturn; exact Hcall].
      eapply obj_get_some_in_keys; exact Hget. }
    split; apply Hincl; cbn; auto.
  - destruct (restore_aborts options env' newLocation w1 Hwin' Ha) as (e & w2 & Hrun & _).
    exists e, w2. exact Hrun.
Qed.

Lemma element_round_trip_witness :
  exists w1,
    saveScrollPositions Scenario.no_options Visit.on_list (Scenario.page "/list")
                        Visit.list_pending = Normal (tt, w1)
    /\ obj_get (composite "/list" (element_selector "list")) (cached (state (cache w1)))
       = Some {| scrollX := Num 7; scrollY := Num 9 |}
    /\ exists w2 calls,
         restoreScrollPositions Scenario.no_options Visit.on_list (Scenario.page "/list") w1
         = Normal (tt, w2)
         /\ effects w2 = (effects w1 ++ calls)%list
         /\ In (SetScrollLeft 4 (Num 7)) calls
         /\ In (SetScrollTop 4 (Num 9)) calls.
Proof.
  destruct (element_round_trip Scenario.no_options Visit.on_list Visit.on_list
              (Scenario.page "/list") (Scenario.page "/list") Visit.list_pending
              (element_selector "list") Scenario.list_div
              eq_refl eq_refl eq_refl (wf_one _ _) (or_introl eq_refl))
    as (w1 & Hsave & Hget & Hif); try reflexivity; [discriminate|].
  exists w1. split; [exact Hsave|]. split; [exact Hget|].
  assert (Hw1 : restore_accepts Visit.on_list "/list"
                  (obj_keys (cached (state (cache w1)))) = true).
  { revert Hsave. vm_compute. intros [= <-]. reflexivity. }
  change (getKey' Scenario.no_options (Scenario.page "/list")) with "/list" in Hif.
  rewrite Hw1 in Hif. exact Hif.
Defined.

(** * Navigation end to end *)

Lemma location_changed_same l : location_changed l l = false.
Proof. unfold location_changed. now rewrite !String.eqb_refl. Qed.

(** X13: checking the URL again, when nothing has changed since the
    last check, does nothing: no save, no callback, no frame request. *)
Theorem popstate_again_is_idle options env w :
  window_defined env = true ->
  cache_ok (cache w) ->
  obj_wf (next (state (cache w))) ->
  exists w1,
    handlePopState options env w = Normal (tt, w1)
    /\ handlePopState options env w1 = Normal (tt, w1).
Proof.
  intros Hwin Hok Hwf.
  destruct (location_changed (window_location env) (lastLocation w)) eqn:Hchanged.
  - destruct (handlePopState_changed options env w Hwin Hok Hwf Hchanged)
      as (w_saved & w1 & _ & Hrun & _ & Hlast & _).
    exists w1. split; [exact Hrun|].
    apply checkForUrlChange_unchanged.
    unfold defaultGetCurrentLocation. rewrite Hwin, Hlast. apply location_changed_same.
  - assert (Hidle : handlePopState options env w = Normal (tt, w)).
    { apply checkForUrlChange_unchanged.
      unfold defaultGetCurrentLocation. now rewrite Hwin. }
    exists w. auto.
Qed.

Lemma popstate_again_is_idle_witness :
  exists w1,
    handlePopState Scenario.no_options
      (Scenario.browser 100 200 (Scenario.page "/page2") Scenario.nothing_found)
      Scenario.pending_window = Normal (tt, w1)
    /\ handlePopState Scenario.no_options
         (Scenario.browser 100 200 (Scenario.page "/page2") Scenario.nothing_found)
         w1 = Normal (tt, w1).
Proof.
  apply (popstate_again_is_idle Scenario.no_options
           (Scenario.browser 100 200 (Scenario.page "/page2") Scenario.nothing_found)
           Scenario.pending_window).
  - reflexivity.
  - apply persisting_ok.
  - apply wf_one.
Defined.

Lemma restore_accepts_app env locationKey a b :
  restore_accepts env locationKey (a ++ b)
  = restore_accepts env locationKey a && restore_accepts env locationKey b.
Proof. unfold restore_accepts. apply forallb_app. Qed.

Lemma restore_query_composite_other A B sel :
  clean_key A = true -> A <> B -> restore_query B (composite A sel) = None.
Proof.
  intros Hclean Hne. apply (restore_query_other A B); auto.
  unfold saved_under. rewrite composite_eq, <- append_assoc. apply prefix_of_append.
Qed.

(** A save under one clean location key adds nothing that a restore
    for another key looks up. *)
Lemma restore_accepts_committed env env' A B pending :
  clean_key A = true ->
  A <> B ->
  forall c,
    restore_accepts env' B (obj_keys (committed env A pending c))
    = restore_accepts env' B (obj_keys c).
Proof.
  intros Hclean Hne. induction pending as [|[sel e] rest IH]; intros c; [reflexivity|].
  cbn [committed]. destruct (read_offsets env sel e) as [entry|x]; [|reflexivity].
  rewrite IH.
  destruct (in_dec string_dec (composite A sel) (obj_keys c)) as [Hp|Ha].
  - now rewrite obj_keys_set_present.
  - rewrite obj_keys_set_absent by assumption. rewrite restore_accepts_app.
    unfold restore_accepts at 2. cbn [forallb].
    rewrite (restore_query_composite_other A B sel Hclean Hne).
    now rewrite andb_true_r.
Qed.

(** With the callback of a navigation alone in the frame queue, the
    first animation frame only queues the restore and the second one
    runs it, for the location the pointer holds. *)
Lemma two_frames_then_restore options env1 env2 w :
  frames w = [FrameOuter] ->
  exists w1,
    animation_frame options env1 w = Normal (tt, w1)
    /\ frames w1 = [FrameRestore]
    /\ locationRef w1 = locationRef w
    /\ cache w1 = cache w
    /\ animation_frame options env2 w1
       = (report (restoreScrollPositions options env2 (locationRef w)) ;;; ret tt)
           (with_frames [] w1).
Proof.
  intros Hframes.
  unfold animation_frame. rewrite Hframes.
  cbn [run_frames run_frame].
  unfold report, requestAnimationFrame, bind, emit, push_frame, ret.
  eexists. split; [reflexivity|].
  cbn [with_frames add_effects frames locationRef cache app].
  repeat split; reflexivity.
Qed.

(** X14: a navigation end to end: when the committed map holds a window
    entry for the location the page moves to, the old and the new
    location keys are distinct keys that split back cleanly, and
    [document.querySelector] accepts every selector that is committed
    under the new key, then the history change followed by two animation
    frames scrolls the window to that entry, whatever the save for the
    old location met. *)
Theorem navigation_restores_window options env env1 env2 w entry :
  window_defined env = true ->
  window_defined env2 = true ->
  set (cache w) = SetPersist ->
  obj_wf (next (state (cache w))) ->
  frames w = [] ->
  location_changed (window_location env) (lastLocation w) = true ->
  clean_key (getKey' options (locationRef w)) = true ->
  clean_key (getKey' options (getCurrentLocation' options env)) = true ->
  getKey' options (locationRef w) <> getKey' options (getCurrentLocation' options env) ->
  obj_get (composite (getKey' options (getCurrentLocation' options env)) windowKey)
          (cached (state (cache w))) = Some entry ->
  restore_accepts env2 (getKey' options (getCurrentLocation' options env))
    (obj_keys (cached (state (cache w)))) = true ->
  exists w',
    run options [PopState env; AnimationFrame env1; AnimationFrame env2] w
    = Normal (tt, w')
    /\ In (ScrollToOptions (scrollY entry) (scrollX entry) (scrollBehavior options))
          (effects w')
    /\ next (state (cache w')) = []
    /\ frames w' = [].
Proof.
  intros Hwin Hwin2 Hset Hwf Hidle Hchanged Hold Hnew Hne Hentry Hacc.
  assert (Hok : cache_ok (cache w)) by (unfold cache_ok; congruence).
  destruct (dispatch_save options env w Hwin Hok Hwf)
    as (w_saved & Hsave & _ & Hcached & Hsets & _).
  destruct (handlePopState_changed options env w Hwin Hok Hwf Hchanged)
    as (w_saved' & w1 & Hsave' & Hrun1 & Hcache1 & _ & Href1 & Hframes1 & _).
  rewrite Hsave in Hsave'. inversion Hsave'; subst w_saved'. clear Hsave'.
  rewrite Hidle in Hframes1. cbn [app] in Hframes1.
  assert (Hentry1 :
    obj_get (composite (getKey' options (getCurrentLocation' options env)) windowKey)
            (cached (state (cache w1))) = Some entry).
  { rewrite Hcache1, Hcached.
    rewrite committed_other; [exact Hentry|].
    intros sel _ Heq. apply Hne. eapply composite_clean_inj; eassumption. }
  assert (Hset1 : set (cache w1) = SetPersist) by (rewrite Hcache1; congruence).
  assert (Hacc1 : restore_accepts env2 (getKey' options (getCurrentLocation' options env))
                    (obj_keys (cached (state (cache w1)))) = true).
  { rewrite Hcache1, Hcached. now rewrite restore_accepts_committed. }
  destruct (two_frames_then_restore options env1 env2 w1 Hframes1)
    as (w2 & Hrun2 & _ & Href2 & Hcache2 & Hrun3).
  destruct (restore_calls_in_effects options env2 (locationRef w1) (with_frames [] w2)
              (composite (getKey' options (getCurrentLocation' options env)) windowKey)
              entry
              (ScrollToOptions (scrollY entry) (scrollX entry) (scrollBehavior options))
              Hwin2)
    as (w3 & Hrun4 & (calls & Heff & Hin) & Hnext3 & Hframes3).
  { cbn [with_frames cache]. now rewrite Hcache2, Href1. }
  { cbn [with_frames cache]. now rewrite Hcache2. }
  { rewrite Href1. unfold restore_turn.
    rewrite split_composite by assumption.
    cbn [Js.split windowKey delimiter Js.split_from prefix].
    rewrite !String.eqb_refl. cbn. auto. }
  exists w3. cbn [run act]. unfold bind at 1. rewrite Hrun1.
  unfold bind at 1. rewrite Hrun2.
  unfold bind at 1. rewrite Hrun3. unfold bind at 1, report. rewrite Hrun4.
  unfold bind, ret. split; [reflexivity|].
  split; [rewrite Heff; apply in_or_app; now right|].
  split.
  - rewrite Hnext3. cbn [with_frames cache]. now rewrite Hcache2, Hset1.
  - exact Hframes3.
Qed.

Lemma navigation_restores_window_witness :
  exists w',
    run Scenario.no_options
        [PopState Back.at_page2; AnimationFrame Back.at_page2; AnimationFrame Back.at_page2]
        Back.on_page1 = Normal (tt, w')
    /\ In (ScrollToOptions (Num 250) (Num 150) None) (effects w')
    /\ next (state (cache w')) = []
    /\ frames w' = [].
Proof.
  apply (navigation_restores_window Scenario.no_options Back.at_page2 Back.at_page2
           Back.at_page2 Back.on_page1 {| scrollX := Num 150; scrollY := Num 250 |});
    try reflexivity.
  - apply wf_one.
  - discriminate.
Defined.

Lemma sound_handlePopState options env w w1 :
  sound w -> handlePopState options env w = Normal (tt, w1) -> sound w1.
Proof.
  intros Hs Hrun. destruct (steady_handlePopState options env w Hs) as (w' & Hrun' & Hs' & _).
  rewrite Hrun in Hrun'. now inversion Hrun'; subst.
Qed.

Lemma report_locationRef (m : M unit) w w' :
  (forall r, m w = r -> locationRef (world_after r) = locationRef w) ->
  report m w = Normal (tt, w') ->
  locationRef w' = locationRef w.
Proof.
  intros Hm. unfold report. specialize (Hm (m w) eq_refl).
  destruct (m w) as [[[] w1]|[e w1]]; cbn [world_after] in Hm; intros [= <-]; exact Hm.
Qed.

Lemma restore_locationRef options env currentLocation w r :
  restoreScrollPositions options env currentLocation w = r ->
  locationRef (world_after r) = locationRef w.
Proof.
  intros <-.
  destruct (restoreScrollPositions_frame options env currentLocation w)
    as (w' & _ & _ & Href & _ & _ & Hif).
  destruct (negb (window_defined env) || restore_accepts _ _ _).
  - destruct Hif as (-> & _). exact Href.
  - destruct Hif as (e & -> & _). exact Href.
Qed.

(** X15: overlapping navigations: when a second history change is
    handled before the frames of the first have run, the two restores
    that were requested both run in the second frame, each with its
    exception reported if it throws, and both for the location of the
    second change; none runs for the first. *)
Theorem overlapping_navigations options envB envC env1 env2 w :
  window_defined envB = true ->
  window_defined envC = true ->
  sound w ->
  frames w = [] ->
  location_changed (window_location envB) (lastLocation w) = true ->
  location_changed (window_location envC) (window_location envB) = true ->
  exists w2 w3,
    (handlePopState options envB ;;; handlePopState options envC) w = Normal (tt, w2)
    /\ animation_frame options env1 w2 = Normal (tt, w3)
    /\ frames w3 = [FrameRestore; FrameRestore]
    /\ animation_frame options env2 w3
       = (report (restoreScrollPositions options env2 (getCurrentLocation' options envC)) ;;;
          report (restoreScrollPositions options env2 (getCurrentLocation' options envC)) ;;;
          ret tt) (with_frames [] w3).
Proof.
  intros HwinB HwinC Hs Hidle HchangedB HchangedC.
  destruct Hs as (Hwf & Hwfc & Hok).
  destruct (handlePopState_changed options envB w HwinB Hok Hwf HchangedB)
    as (w_saved & w1 & _ & Hrun1 & _ & Hlast1 & _ & Hframes1 & _).
  assert (Hs1 : sound w1)
    by (eapply sound_handlePopState; [|exact Hrun1]; now repeat split).
  destruct Hs1 as (Hwf1 & _ & Hok1).
  rewrite <- Hlast1 in HchangedC.
  destruct (handlePopState_changed options envC w1 HwinC Hok1 Hwf1 HchangedC)
    as (w_saved2 & w2 & _ & Hrun2 & _ & _ & Href2 & Hframes2 & _).
  rewrite Hframes1, Hidle in Hframes2. cbn [app] in Hframes2.
  exists w2. eexists. unfold bind at 1. rewrite Hrun1. split; [exact Hrun2|].
  unfold animation_frame at 1. rewrite Hframes2.
  cbn [run_frames run_frame].
  unfold report at 1 2. unfold requestAnimationFrame, bind, emit, push_frame, ret.
  split; [reflexivity|].
  cbn [with_frames add_effects frames app]. split; [reflexivity|].
  unfold animation_frame. cbn [with_frames add_effects frames app run_frames run_frame].
  match goal with
  | |- (report ?m ;;; _) ?w0 = _ =>
      change (locationRef w0) with (locationRef w2); set (W0 := w0)
  end.
  rewrite <- Href2. unfold bind.
  change (report (fun w0 => restoreScrollPositions options env2 (locationRef w0) w0) W0)
    with (report (restoreScrollPositions options env2 (locationRef w2)) W0).
  destruct (report (restoreScrollPositions options env2 (locationRef w2)) W0)
    as [[[] w4]|ew] eqn:Hr; [|reflexivity].
  apply report_locationRef in Hr; [|intros r; apply restore_locationRef].
  change (locationRef W0) with (locationRef w2) in Hr.
  assert (Hsame :
    report (fun w5 => restoreScrollPositions options env2 (locationRef w5) w5) w4
    = report (restoreScrollPositions options env2 (locationRef w2)) w4).
  { unfold report. now rewrite Hr. }
  now rewrite Hsame.
Qed.

Lemma overlapping_navigations_witness :
  exists w2 w3,
    (handlePopState Scenario.no_options Back.at_page2 ;;;
     handlePopState Scenario.no_options Back.at_page3) Back.on_page1 = Normal (tt, w2)
    /\ animation_frame Scenario.no_options Back.at_page3 w2 = Normal (tt, w3)
    /\ frames w3 = [FrameRestore; FrameRestore]
    /\ animation_frame Scenario.no_options Back.at_page3 w3
       = (report (restoreScrollPositions Scenario.no_options Back.at_page3
                    (Scenario.page "/page3")) ;;;
          report (restoreScrollPositions Scenario.no_options Back.at_page3
                    (Scenario.page "/page3")) ;;;
          ret tt) (with_frames [] w3).
Proof.
  apply (overlapping_navigations Scenario.no_options Back.at_page2 Back.at_page3
           Back.at_page3 Back.at_page3 Back.on_page1); try reflexivity.
  apply sound_persisting; apply wf_one.
Defined.

(** * Edge behaviour *)

Lemma restore_query_no_delimiter locationKey k :
  contains delimiter k = false -> restore_query locationKey k = None.
Proof. intros H. unfold restore_query. now rewrite split_no_delimiter. Qed.

Lemma restore_calls_no_delimiter options env locationKey cachedObj keys :
  (forall k, In k keys -> contains delimiter k = false) ->
  forall windowRestored,
    restore_calls options env locationKey cachedObj keys windowRestored
    = ([], windowRestored)
    /\ restore_raises env locationKey keys = None.
Proof.
  induction keys as [|k rest IH]; intros Hfree windowRestored; [split; reflexivity|].
  cbn [restore_calls restore_raises]. unfold turn_raises.
  rewrite restore_query_no_delimiter by (apply Hfree; now left).
  destruct (IH (fun k' Hk' => Hfree k' (or_intror Hk')) windowRestored) as [IHc IHr].
  split; [|exact IHr].
  destruct (obj_get k cachedObj) as [entry|]; [|reflexivity].
  unfold restore_turn. rewrite split_no_delimiter by (apply Hfree; now left).
  cbn [fst snd app]. rewrite IHc. reflexivity.
Qed.

(** X16: a committed key that holds no delimiter is never applied and
    never looked up, whatever the location key, even when the key is the
    location key itself: with only such keys the restore scrolls the
    window to the origin and writes the cache. *)
Theorem restore_ignores_plain_keys options env currentLocation w :
  window_defined env = true ->
  (forall k, In k (obj_keys (cached (state (cache w)))) ->
             contains delimiter k = false) ->
  exists w',
    restoreScrollPositions options env currentLocation w = Normal (tt, w')
    /\ effects w'
       = (effects w ++ [ScrollToXY (Num 0) (Num 0)] ++ restore_write (cache w))%list.
Proof.
  intros Hwin Hfree.
  destruct (restore_calls_no_delimiter options env (getKey' options currentLocation)
              (cached (state (cache w))) _ Hfree false) as [Hcalls Hraise].
  rewrite restoreScrollPositions_run by assumption. rewrite Hraise.
  eexists. split; [reflexivity|].
  cbn [with_weakScrolledElements add_effects with_cache effects].
  unfold restore_effects. now rewrite Hcalls.
Qed.

(** X17: without a window, saving, restoring and the two exported
    triggers do nothing: the world is returned as it was. *)
Theorem no_window_no_effect options env currentLocation w :
  window_defined env = false ->
  saveScrollPositions options env currentLocation w = Normal (tt, w)
  /\ restoreScrollPositions options env currentLocation w = Normal (tt, w)
  /\ saveCurrentScrollPositions options env w = Normal (tt, w)
  /\ restoreScrollPositions_trigger options env w = Normal (tt, w).
Proof.
  intros Hwin.
  unfold saveScrollPositions, restoreScrollPositions, saveCurrentScrollPositions,
    restoreScrollPositions_trigger, Toplevel.saveCurrentScrollPositions,
    Toplevel.restoreScrollPositions.
  rewrite Hwin. repeat split; reflexivity.
Qed.

(** X18: with neither a usable identifier nor an element (no
    [getElement], or one that returns nothing), the element query
    returns [undefined], whatever the committed map holds. *)
Theorem element_query_without_element options env w :
  match id options with Some i => Js.truthy i | None => false end = false ->
  match getElement options with Some f => f env | None => None end = None ->
  useElementScrollRestoration options env w = Normal (None, w).
Proof.
  intros Hid Hel. rewrite element_query_by_element by assumption. now rewrite Hel.
Qed.

Lemma restore_ignores_plain_keys_witness :
  exists w',
    restoreScrollPositions Scenario.no_options
      (Scenario.browser 0 0 (Scenario.page "/page1") Scenario.strict)
      (Scenario.page "/page1") Edge.plain_keys = Normal (tt, w')
    /\ effects w'
       = (effects Edge.plain_keys ++ [ScrollToXY (Num 0) (Num 0)]
            ++ restore_write (cache Edge.plain_keys))%list.
Proof.
  apply (restore_ignores_plain_keys Scenario.no_options
           (Scenario.browser 0 0 (Scenario.page "/page1") Scenario.strict)
           (Scenario.page "/page1") Edge.plain_keys).
  - reflexivity.
  - intros k [<-|[]]. reflexivity.
Defined.

Lemma no_window_no_effect_witness :
  saveScrollPositions Scenario.no_options Edge.no_window (Scenario.page "/page1")
                      Scenario.pending_window = Normal (tt, Scenario.pending_window)
  /\ restoreScrollPositions Scenario.no_options Edge.no_window (Scenario.page "/page1")
                            Scenario.pending_window = Normal (tt, Scenario.pending_window)
  /\ saveCurrentScrollPositions Scenario.no_options Edge.no_window Scenario.pending_window
     = Normal (tt, Scenario.pending_window)
  /\ restoreScrollPositions_trigger Scenario.no_options Edge.no_window
                                    Scenario.pending_window
     = Normal (tt, Scenario.pending_window).
Proof.
  apply (no_window_no_effect Scenario.no_options Edge.no_window (Scenario.page "/page1")
           Scenario.pending_window).
  reflexivity.
Defined.

Lemma element_query_without_element_witness :
  useElementScrollRestoration Edge.no_element
    (Scenario.browser 0 0 (Scenario.page "/list") Scenario.nothing_found)
    Scenario.committed_list = Normal (None, Scenario.committed_list).
Proof.
  apply (element_query_without_element Edge.no_element
           (Scenario.browser 0 0 (Scenario.page "/list") Scenario.nothing_found)
           Scenario.committed_list); reflexivity.
Defined.

(** * Selectors *)

Lemma length_append (a b : string) :
  String.length (a ++ b) = String.length a + String.length b.
Proof. induction a; cbn; congruence. Qed.

Lemma append_inj_r (c a b : string) : a ++ c = b ++ c -> a = b.
Proof.
  revert b. induction a as [|x a IH]; intros b H.
  - destruct b as [|y b]; [reflexivity|].
    apply (f_equal String.length) in H. cbn in H. rewrite length_append in H. lia.
  - destruct b as [|y b].
    + apply (f_equal String.length) in H. cbn in H. rewrite length_append in H. lia.
    + cbn in H. inversion H. f_equal. now apply IH.
Qed.

Lemma element_selector_inj i j : element_selector i = element_selector j -> i = j.
Proof.
  unfold element_selector. intros H.
  apply append_inj_l in H. apply append_inj_l in H.
  now apply append_inj_r in H.
Qed.

(** X19: under one location key, the entries of two identified elements
    share a composite key only when the identifiers are the same, and
    the entry of an identified element is never the window entry. *)
Theorem identified_entries_do_not_collide locationKey i :
  String.eqb (composite locationKey (element_selector i))
             (composite locationKey windowKey) = false
  /\ forall j,
       composite locationKey (element_selector i)
       = composite locationKey (element_selector j) -> i = j.
Proof.
  split.
  - destruct (String.eqb_spec (composite locationKey (element_selector i))
                              (composite locationKey windowKey)) as [H|]; [|reflexivity].
    apply composite_inj in H. discriminate H.
  - intros j H. apply composite_inj in H. now apply element_selector_inj.
Qed.

Lemma toLowerCase_append a b :
  Js.toLowerCase (a ++ b) = Js.toLowerCase a ++ Js.toLowerCase b.
Proof. induction a; cbn; congruence. Qed.

Lemma toLowerCase_digits d :
  Js.toLowerCase (NilEmpty.string_of_uint d) = NilEmpty.string_of_uint d.
Proof. induction d; cbn [NilEmpty.string_of_uint Js.toLowerCase]; try rewrite IHd; reflexivity. Qed.

Lemma toLowerCase_of_nat n : Js.toLowerCase (Js.of_nat n) = Js.of_nat n.
Proof.
  unfold Js.of_nat, NilZero.string_of_uint.
  destruct (Nat.to_uint n); try reflexivity; apply toLowerCase_digits.
Qed.

Lemma of_nat_inj n m : Js.of_nat n = Js.of_nat m -> n = m.
Proof.
  unfold Js.of_nat. intros H.
  apply (f_equal NilZero.uint_of_string) in H.
  assert (Hn : forall k, NilZero.uint_of_string (NilZero.string_of_uint (Nat.to_uint k))
                         = Some (Nat.to_uint k)).
  { intros k. apply NilZero.usu. intros Hnil.
    assert (H0 := f_equal Nat.of_uint Hnil).
    rewrite DecimalNat.Unsigned.of_to in H0. cbn in H0. subst k. discriminate Hnil. }
  rewrite !Hn in H. inversion H. now apply DecimalNat.Unsigned.to_uint_inj.
Qed.

Lemma indexOf_found xs x :
  In x xs ->
  (0 <= Js.indexOf xs x)%Z
  /\ nth_error xs (Z.to_nat (Js.indexOf xs x)) = Some x.
Proof.
  induction xs as [|y ys IH]; intros Hin; [destruct Hin|].
  cbn [Js.indexOf]. destruct (Nat.eqb_spec y x) as [->|Hne].
  - split; [lia|reflexivity].
  - destruct Hin as [Heq|Hin]; [contradiction|].
    destruct (IH Hin) as [Hpos Hnth].
    destruct (Js.indexOf ys x) as [|p|p] eqn:Hi; try lia.
    + split; [lia|]. exact Hnth.
    + split; [lia|]. replace (Z.to_nat (Z.pos p + 1)) with (S (Z.to_nat (Z.pos p))) by lia.
      exact Hnth.
Qed.

Lemma join_snoc l x sep :
  Js.join (l ++ [x]) sep
  = match l with
    | [] => x
    | _ => Js.join l sep ++ sep ++ x
    end.
Proof.
  induction l as [|a l IH]; [reflexivity|].
  destruct l as [|b l]; [reflexivity|].
  change (Js.join ((a :: b :: l) ++ [x]) sep)
    with (a ++ sep ++ Js.join ((b :: l) ++ [x]) sep).
  rewrite IH. change (Js.join (a :: b :: l) sep) with (a ++ sep ++ Js.join (b :: l) sep).
  now rewrite !append_assoc.
Qed.

Lemma getCssSelector_child el parent :
  parentNode el = Some parent ->
  String.eqb (nodeName parent) "HTML" = false ->
  exists before,
    getCssSelector el
    = Js.toLowerCase (before ++ tagName el ++ ":nth-child(")
      ++ Js.of_nat (Z.to_nat (Js.indexOf (children parent) (node_id el) + 1))
      ++ ")"
    /\ before = match selector_levels parent with
                | [] => ""
                | _ => Js.join (selector_levels parent) " > " ++ " > "
                end.
Proof.
  intros Hp Hname. unfold getCssSelector. rewrite getCssSelector_loop_levels, app_nil_r.
  destruct el as [i name tag attr sl st ch p]. cbn in Hp. subst p.
  cbn [selector_levels]. rewrite Hname. rewrite join_snoc.
  eexists. split; [|reflexivity]. unfold nth_child_part. cbn [tagName children node_id].
  destruct (selector_levels parent);
    rewrite ?append_assoc, !toLowerCase_append, toLowerCase_of_nat, ?append_assoc;
    reflexivity.
Qed.

(** X20: two elements with the same tag name and the same parent, both
    among the children of that parent, get different selectors, unless
    the parent is the HTML element (whose children all get the empty
    selector). *)
Theorem sibling_selectors_differ a b parent :
  parentNode a = Some parent ->
  parentNode b = Some parent ->
  String.eqb (nodeName parent) "HTML" = false ->
  tagName a = tagName b ->
  In (node_id a) (children parent) ->
  In (node_id b) (children parent) ->
  Nat.eqb (node_id a) (node_id b) = false ->
  String.eqb (getCssSelector a) (getCssSelector b) = false.
Proof.
  intros Ha Hb Hname Htag Hina Hinb Hne.
  destruct (String.eqb_spec (getCssSelector a) (getCssSelector b)) as [Heq|]; [|reflexivity].
  exfalso.
  destruct (getCssSelector_child a parent Ha Hname) as (before & Hsa & Hbefore).
  destruct (getCssSelector_child b parent Hb Hname) as (before' & Hsb & Hbefore').
  rewrite Hsa, Hsb, Htag in Heq. subst before before'.
  apply append_inj_l in Heq. apply append_inj_r in Heq. apply of_nat_inj in Heq.
  destruct (indexOf_found _ _ Hina) as [Hpa Hntha].
  destruct (indexOf_found _ _ Hinb) as [Hpb Hnthb].
  assert (Hidx : Js.indexOf (children parent) (node_id a)
                 = Js.indexOf (children parent) (node_id b)) by lia.
  rewrite Hidx in Hntha. rewrite Hntha in Hnthb. inversion Hnthb as [Hid].
  rewrite Hid, Nat.eqb_refl in Hne. discriminate.
Qed.

(** Whereas the children of the HTML element all get the empty
    selector. *)
Lemma children_of_html_share_selector el parent :
  parentNode el = Some parent ->
  nodeName parent = "HTML" ->
  getCssSelector el = "".
Proof.
  intros Hp Hname. destruct el as [i name tag attr sl st ch p]. cbn in Hp. subst p.
  unfold getCssSelector. cbn [getCssSelector_loop]. now rewrite Hname.
Qed.

Lemma sibling_selectors_differ_witness :
  String.eqb (getCssSelector Siblings.first) (getCssSelector Siblings.second) = false.
Proof.
  apply (sibling_selectors_differ Siblings.first Siblings.second Siblings.main);
    try reflexivity.
  - left. reflexivity.
  - right. left. reflexivity.
Defined.

(** * throttle *)

Section ThrottleFacts.
Variable A : Type.
Variable wait : Z.

Lemma throttle_step_spaced e (h h' : Throttle.Host A) apps :
  Throttle.consistent A wait h ->
  Throttle.step A wait e h = Some (h', apps) ->
  Throttle.consistent A wait h'
  /\ (apps = []
      /\ Throttle.lastCallTime A (Throttle.closure A h')
         = Throttle.lastCallTime A (Throttle.closure A h)
      \/ exists args,
           apps = [(Throttle.clock A h', args)]
           /\ Throttle.lastCallTime A (Throttle.closure A h') = Throttle.clock A h'
           /\ (Throttle.lastCallTime A (Throttle.closure A h) + wait
               <= Throttle.clock A h')%Z).
Proof.
  intros (Hlast & Hdue) Hstep. destruct e as [now fresh args|now]; cbn in Hstep.
  - destruct (Z.ltb_spec now (Throttle.clock A h)) as [|Hclock]; [discriminate|].
    unfold Throttle.throttled in Hstep.
    assert (Htable :
      (Throttle.timeout A (Throttle.closure A h) = None /\ Throttle.due A h = None)
      \/ (exists timer,
            Throttle.timeout A (Throttle.closure A h) = Some timer
            /\ Throttle.due A h
               = Some (Throttle.lastCallTime A (Throttle.closure A h) + wait)%Z));
      [|clear Hdue].
    { destruct (Throttle.due A h) as [d|].
      - destruct Hdue as (Ht & -> & _).
        destruct (Throttle.timeout A (Throttle.closure A h)) as [timer|]; [|congruence].
        right. eauto.
      - left. auto. }
    destruct ((wait - (now - Throttle.lastCallTime A (Throttle.closure A h)) <=? 0)%Z
              || (wait <? wait - (now - Throttle.lastCallTime A (Throttle.closure A h)))%Z)
      eqn:Hnow.
    + apply orb_prop in Hnow.
      assert (Hgap : (Throttle.lastCallTime A (Throttle.closure A h) + wait <= now)%Z)
        by (destruct Hnow as [H|H]; lia).
      destruct Htable as [(Ht & Hd)|(timer & Ht & Hd)]; rewrite Ht, Hd in Hstep;
        inversion Hstep; subst; clear Hstep; unfold Throttle.consistent; cbn;
        (split; [split; [lia|reflexivity]|right; exists args; auto]).
    + apply orb_false_elim in Hnow. destruct Hnow as [H1 H2].
      destruct Htable as [(Ht & Hd)|(timer & Ht & Hd)]; rewrite Ht in Hstep;
        inversion Hstep; subst; clear Hstep; unfold Throttle.consistent; cbn;
        rewrite ?Hd; (split; [|left; auto]); (split; [lia|]);
        repeat split; try discriminate; lia.
  - destruct (Throttle.due A h) as [d|]; [|discriminate].
    destruct ((d <=? now)%Z && (Throttle.clock A h <=? now)%Z) eqn:Hfire; [|discriminate].
    apply andb_prop in Hfire. destruct Hfire as [Hd Hc].
    destruct Hdue as (_ & Hdeq & Hargs).
    unfold Throttle.timer_callback in Hstep.
    destruct (Throttle.lastArgs A (Throttle.closure A h)) as [args|] eqn:Hlastargs;
      [|congruence].
    inversion Hstep; subst; clear Hstep. unfold Throttle.consistent. cbn. split.
    + split; [lia|reflexivity].
    + right. exists args. repeat split. lia.
Qed.

Lemma throttle_play_spaced events :
  forall (h h' : Throttle.Host A) apps,
    Throttle.consistent A wait h ->
    Throttle.play A wait events h = Some (h', apps) ->
    Throttle.spaced wait (Throttle.lastCallTime A (Throttle.closure A h)) (map fst apps)
    /\ Throttle.consistent A wait h'.
Proof.
  induction events as [|e rest IH]; intros h h' apps Hc Hplay; cbn in Hplay.
  - inversion Hplay; subst. split; [exact I|exact Hc].
  - destruct (Throttle.step A wait e h) as [[h1 apps1]|] eqn:Hstep; [|discriminate].
    destruct (Throttle.play A wait rest h1) as [[h2 apps2]|] eqn:Hrest; [|discriminate].
    inversion Hplay; subst; clear Hplay.
    destruct (throttle_step_spaced e h h1 apps1 Hc Hstep) as (Hc1 & Hcase).
    destruct (IH h1 h' apps2 Hc1 Hrest) as (Hsp & Hc').
    split; [|exact Hc'].
    destruct Hcase as [(-> & Hsame)|(args & -> & Hnew & Hgap)].
    + cbn. now rewrite <- Hsame.
    + cbn. split; [exact Hgap|]. now rewrite <- Hnew.
Qed.

Lemma throttle_initial_consistent t0 :
  (0 <= t0)%Z ->
  Throttle.consistent A wait
    {| Throttle.closure := Throttle.initial A; Throttle.due := None; Throttle.clock := t0 |}.
Proof. intros H. split; [exact H|reflexivity]. Qed.

(** X21: the throttled function keeps applications of [func] apart: on
    a host whose clock does not go back and whose timer does not fire
    early, started at a time that is not negative, each application of
    [func] comes at least [wait] after the one before it, and the first
    one at least [wait] after time zero. *)
Theorem throttle_spaces_applications t0 events h apps :
  (0 <= t0)%Z ->
  Throttle.play A wait events
    {| Throttle.closure := Throttle.initial A; Throttle.due := None; Throttle.clock := t0 |}
  = Some (h, apps) ->
  Throttle.spaced wait 0 (map fst apps).
Proof.
  intros Ht0 Hplay.
  apply (throttle_play_spaced events _ h apps (throttle_initial_consistent t0 Ht0) Hplay).
Qed.

(** X22: no invocation is dropped: when the throttled function is
    called with some arguments, [func] is applied to them in the call,
    or a timer is pending whose callback, if it runs next, applies
    [func] to exactly these arguments. *)
Theorem throttle_keeps_last_arguments now fresh args (h h' : Throttle.Host A) apps :
  Throttle.consistent A wait h ->
  Throttle.step A wait (Throttle.Invoke A now fresh args) h = Some (h', apps) ->
  apps = [(now, args)]
  \/ (apps = []
      /\ exists d, Throttle.due A h' = Some d
         /\ forall t h'' apps',
              Throttle.step A wait (Throttle.Fire A t) h' = Some (h'', apps') ->
              apps' = [(t, args)]).
Proof.
  intros (Hlast & Hdue) Hstep. cbn in Hstep.
  destruct (Z.ltb_spec now (Throttle.clock A h)) as [|Hclock]; [discriminate|].
  unfold Throttle.throttled in Hstep.
  destruct ((wait - (now - Throttle.lastCallTime A (Throttle.closure A h)) <=? 0)%Z
            || (wait <? wait - (now - Throttle.lastCallTime A (Throttle.closure A h)))%Z).
  - left. inversion Hstep; subst.
    destruct (Throttle.timeout A (Throttle.closure A h)); reflexivity.
  - right.
    assert (Hfire : forall d s,
      Throttle.lastArgs A s = Some args ->
      forall t h'' apps',
        Throttle.step A wait (Throttle.Fire A t)
          {| Throttle.closure := s; Throttle.due := Some d; Throttle.clock := now |}
        = Some (h'', apps') -> apps' = [(t, args)]).
    { intros d s Hs t h'' apps' Hf. cbn in Hf.
      destruct ((d <=? t)%Z && (now <=? t)%Z); [|discriminate].
      unfold Throttle.timer_callback in Hf. rewrite Hs in Hf. now inversion Hf. }
    destruct (Throttle.timeout A (Throttle.closure A h)) as [timer|] eqn:Htimer.
    + inversion Hstep; subst; clear Hstep. cbn [Throttle.applications Throttle.timer_after].
      split; [reflexivity|].
      destruct (Throttle.due A h) as [d|] eqn:Hd; [|congruence].
      exists d. split; [reflexivity|]. apply Hfire. reflexivity.
    + inversion Hstep; subst; clear Hstep. cbn [Throttle.applications Throttle.timer_after].
      split; [reflexivity|]. eexists. split; [reflexivity|]. apply Hfire. reflexivity.
Qed.

End ThrottleFacts.

Lemma throttle_spaces_applications_witness :
  exists h,
    Throttle.play nat 100 Burst.events Burst.idle = Some (h, [(1000%Z, 7); (1100%Z, 9)])
    /\ Throttle.spaced 100 0 (map fst [(1000%Z, 7); (1100%Z, 9)]).
Proof.
  eexists. split.
  - vm_compute. reflexivity.
  - refine (throttle_spaces_applications nat 100 0 Burst.events _
              [(1000%Z, 7); (1100%Z, 9)] _ _).
    + lia.
    + vm_compute. reflexivity.
Defined.

Lemma throttle_keeps_last_arguments_witness :
  exists h',
    Throttle.step nat 100 (Throttle.Invoke nat 1060 3 9) Burst.waiting = Some (h', [])
    /\ ([] = [(1060%Z, 9)]
        \/ (@nil (Z * nat) = []
            /\ exists d, Throttle.due nat h' = Some d
               /\ forall t h'' apps',
                    Throttle.step nat 100 (Throttle.Fire nat t) h' = Some (h'', apps') ->
                    apps' = [(t, 9)])).
Proof.
  eexists. split.
  - vm_compute. reflexivity.
  - refine (throttle_keeps_last_arguments nat 100 1060 3 9 Burst.waiting _ [] _ _).
    + split; [vm_compute; discriminate|].
      cbn. repeat split; discriminate.
    + vm_compute. reflexivity.
Defined.

(** * The mutation observer of the default navigation listener *)

Lemma clearTimeout_single timer : Listener.clearTimeout timer [timer] = [].
Proof. unfold Listener.clearTimeout. cbn. now rewrite Nat.eqb_refl. Qed.

Lemma observer_callback_coherent fresh s :
  Listener.coherent s ->
  Listener.timers (Listener.observer_callback fresh s) = [fresh]
  /\ Listener.navigationTimeout (Listener.observer_callback fresh s) = Some fresh.
Proof.
  intros [Hempty|(timer & Htable & Hvar)]; unfold Listener.observer_callback; cbn.
  - rewrite Hempty. split; [|reflexivity].
    destruct (Listener.navigationTimeout s); reflexivity.
  - rewrite Hvar, Htable, clearTimeout_single. split; reflexivity.
Qed.

Lemma deliver_coherent options e s s' :
  sound (Listener.world s) ->
  Listener.coherent s ->
  Listener.deliver options e s = Normal s' ->
  Listener.coherent s' /\ sound (Listener.world s').
Proof.
  intros Hs Hc Hd. destruct e as [fresh|timer env|env|]; cbn in Hd.
  - destruct (Listener.observer_connected s); inversion Hd; subst; [|auto].
    split; [|exact Hs]. right. exists fresh. now apply observer_callback_coherent.
  - destruct (existsb (Nat.eqb timer) (Listener.timers s)) eqn:Hin;
      [|inversion Hd; subst; auto].
    unfold Listener.timer_callback in Hd. cbn in Hd.
    destruct (steady_checkForUrlChange options env (fun _ => handleNavigation options env)
                (fun l => steady_handleNavigation options env) (Listener.world s) Hs)
      as (w' & Hrun & Hs' & _).
    rewrite Hrun in Hd. inversion Hd; subst; clear Hd. cbn. split; [|exact Hs'].
    left. cbn. destruct Hc as [Hempty|(t & Htable & _)].
    + now rewrite Hempty.
    + rewrite Htable in *. cbn in Hin. rewrite orb_false_r in Hin.
      apply Nat.eqb_eq in Hin. subst. apply clearTimeout_single.
  - destruct (Listener.popstate_listener s); [|inversion Hd; subst; auto].
    destruct (steady_handlePopState options env (Listener.world s) Hs)
      as (w' & Hrun & Hs' & _).
    rewrite Hrun in Hd. inversion Hd; subst; clear Hd. cbn. split; [exact Hc|exact Hs'].
  - inversion Hd; subst; clear Hd. split; [|exact Hs]. left. cbn.
    destruct Hc as [Hempty|(t & Htable & Hvar)].
    + rewrite Hempty. now destruct (Listener.navigationTimeout s).
    + rewrite Hvar, Htable. apply clearTimeout_single.
Qed.

Lemma deliver_all_coherent options events :
  forall s s',
    sound (Listener.world s) ->
    Listener.coherent s ->
    Listener.deliver_all options events s = Normal s' ->
    Listener.coherent s' /\ sound (Listener.world s').
Proof.
  induction events as [|e rest IH]; intros s s' Hs Hc Hd; cbn in Hd.
  - inversion Hd; subst. auto.
  - destruct (Listener.deliver options e s) as [s1|] eqn:H1; [|discriminate].
    destruct (deliver_coherent options e s s1 Hs Hc H1) as (Hc1 & Hs1).
    now apply (IH s1 s').
Qed.

(** X23: mutations are debounced: after a batch of mutations is
    delivered to a connected observer, whatever was delivered before,
    exactly one timer is pending, the one just set; earlier timers have
    been cleared, so a burst leads to a single check of the URL. *)
Theorem mutations_leave_one_timer options events fresh w s :
  sound w ->
  Listener.deliver_all options events (Listener.mounted w) = Normal s ->
  Listener.observer_connected s = true ->
  Listener.deliver options (Listener.Mutations fresh) s
  = Normal (Listener.observer_callback fresh s)
  /\ Listener.timers (Listener.observer_callback fresh s) = [fresh].
Proof.
  intros Hs Hd Hconn.
  destruct (deliver_all_coherent options events (Listener.mounted w) s Hs
              (or_introl eq_refl) Hd) as (Hc & _).
  cbn. rewrite Hconn. split; [reflexivity|]. now apply observer_callback_coherent.
Qed.

Lemma detached_is_inert options later s0 :
  Listener.timers s0 = [] ->
  Listener.popstate_listener s0 = false ->
  Listener.observer_connected s0 = false ->
  Listener.deliver_all options later s0 = Normal s0.
Proof.
  intros Ht Hp Ho. induction later as [|e rest IH]; [reflexivity|].
  cbn [Listener.deliver_all].
  assert (He : Listener.deliver options e s0 = Normal s0).
  { destruct e as [fresh|timer env|env|]; cbn.
    - now rewrite Ho.
    - now rewrite Ht.
    - now rewrite Hp.
    - unfold Listener.cleanup. rewrite Ht.
      destruct s0 as [w nt ts p o]. cbn in *. subst.
      now destruct nt. }
  rewrite He. exact IH.
Qed.

(** X24: after the cleanup function has run, no timer of the listener
    is pending and its sources are detached: whatever the host has left
    to deliver (mutations, a timer that was set, history changes, a
    second cleanup), nothing changes any more, so no check of the URL
    happens after the unmount. *)
Theorem cleanup_cancels_pending_check options events later w s :
  sound w ->
  Listener.deliver_all options events (Listener.mounted w) = Normal s ->
  Listener.timers (Listener.cleanup s) = []
  /\ Listener.deliver_all options later (Listener.cleanup s)
     = Normal (Listener.cleanup s).
Proof.
  intros Hs Hd.
  destruct (deliver_all_coherent options events (Listener.mounted w) s Hs
              (or_introl eq_refl) Hd) as (Hc & _).
  assert (Ht : Listener.timers (Listener.cleanup s) = []).
  { cbn. destruct Hc as [Hempty|(t & Htable & Hvar)].
    - rewrite Hempty. now destruct (Listener.navigationTimeout s).
    - rewrite Hvar, Htable. apply clearTimeout_single. }
  split; [exact Ht|]. now apply detached_is_inert.
Qed.

Lemma sound_pending_window : sound Scenario.pending_window.
Proof. apply sound_persisting; [constructor|apply wf_one]. Qed.

Lemma mutations_leave_one_timer_witness :
  Listener.deliver Scenario.no_options (Listener.Mutations 13) Mutation.after_burst
  = Normal (Listener.observer_callback 13 Mutation.after_burst)
  /\ Listener.timers (Listener.observer_callback 13 Mutation.after_burst) = [13].
Proof.
  apply (mutations_leave_one_timer Scenario.no_options Mutation.burst 13
           Scenario.pending_window Mutation.after_burst).
  - exact sound_pending_window.
  - reflexivity.
  - reflexivity.
Defined.

Lemma cleanup_cancels_pending_check_witness :
  Listener.timers (Listener.cleanup Mutation.after_burst) = []
  /\ Listener.deliver_all Scenario.no_options Mutation.later
       (Listener.cleanup Mutation.after_burst)
     = Normal (Listener.cleanup Mutation.after_burst).
Proof.
  apply (cleanup_cancels_pending_check Scenario.no_options Mutation.burst Mutation.later
           Scenario.pending_window Mutation.after_burst).
  - exact sound_pending_window.
  - reflexivity.
Defined.

(** * Keys written by a save, and the exported triggers *)

Lemma committed_keys_origin env locationKey pending :
  forall c k,
    In k (obj_keys (committed env locationKey pending c)) ->
    In k (obj_keys c)
    \/ exists sel, In sel (obj_keys (migrated env pending)) /\ k = composite locationKey sel.
Proof.
  induction pending as [|[sel e] rest IH]; intros c k Hin; [now left|].
  cbn [committed migrated] in *.
  destruct (read_offsets env sel e) as [entry|x]; [|now left].
  destruct (IH _ _ Hin) as [Hold|(sel' & Hsel' & ->)].
  - destruct (in_dec string_dec (composite locationKey sel) (obj_keys c)) as [Hp|Ha].
    + rewrite obj_keys_set_present in Hold by assumption. now left.
    + rewrite obj_keys_set_absent in Hold by assumption.
      apply in_app_or in Hold. destruct Hold as [Hold|[<-|[]]]; [now left|].
      right. exists sel. split; [now left|reflexivity].
  - right. exists sel'. split; [now right|reflexivity].
Qed.

(** X25: every key that a save adds to the committed map, whether the
    save returns or stops at a rejected selector, is the key function's
    key for the location (the custom [getKey] when one is given, the
    default otherwise), then the delimiter, then a selector that was
    pending. *)
Theorem saved_keys_carry_location_key options env currentLocation w :
  window_defined env = true ->
  cache_ok (cache w) ->
  obj_wf (next (state (cache w))) ->
  exists w1,
    (saveScrollPositions options env currentLocation w = Normal (tt, w1)
     \/ exists e, saveScrollPositions options env currentLocation w = Throw (e, w1))
    /\ forall k,
         In k (obj_keys (cached (state (cache w1)))) ->
         In k (obj_keys (cached (state (cache w))))
         \/ (saved_under (getKey' options currentLocation) k = true
             /\ exists sel,
                  In sel (obj_keys (next (state (cache w))))
                  /\ k = composite (getKey' options currentLocation) sel).
Proof.
  intros Hwin Hok Hwf.
  destruct (saveScrollPositions_outcome options env currentLocation w Hwin Hok Hwf)
    as (w1 & Hsave & _ & Hcached & _).
  exists w1. split; [rewrite Hsave; apply finish_cases|].
  intros k Hin. rewrite Hcached in Hin.
  destruct (committed_keys_origin _ _ _ _ _ Hin) as [Hold|(sel & Hsel & ->)];
    [now left|].
  right. split.
  - unfold saved_under. rewrite composite_eq, <- append_assoc. apply prefix_of_append.
  - exists sel. split; [now apply (migrated_keys_in env)|reflexivity].
Qed.

Lemma is_window_entry_composite locationKey :
  clean_key locationKey = true ->
  is_window_entry_for locationKey (composite locationKey windowKey) = true.
Proof.
  intros Hclean. unfold is_window_entry_for. rewrite split_composite by assumption.
  cbn [Js.split windowKey delimiter Js.split_from prefix].
  now rewrite !String.eqb_refl.
Qed.

Lemma save_commits_window options env currentLocation w :
  window_defined env = true ->
  set (cache w) = SetPersist ->
  obj_wf (next (state (cache w))) ->
  save_accepts env (next (state (cache w))) = true ->
  forall sel,
    In sel (obj_keys (next (state (cache w)))) ->
    Js.truthy sel = true ->
    exists w1,
      saveScrollPositions options env currentLocation w = Normal (tt, w1)
      /\ obj_get (composite (getKey' options currentLocation) sel)
                 (cached (state (cache w1)))
         = Some (live_offsets env sel)
      /\ cached (state (cache w1))
         = committed env (getKey' options currentLocation)
             (next (state (cache w))) (cached (state (cache w)))
      /\ set (cache w1) = SetPersist
      /\ effects w1
         = (effects w ++ save_writes env (getKey' options currentLocation)
                           (next (state (cache w))) (cached (state (cache w))))%list
      /\ locationRef w1 = locationRef w.
Proof.
  intros Hwin Hset Hwf Hacc sel Hpending Htruthy.
  destruct (obj_get_in_keys _ _ Hpending) as [entry Hentry].
  apply obj_get_some_in in Hentry.
  destruct (save_accepts_all _ _ Hacc) as (Hraise & _ & Hdone).
  destruct (saveScrollPositions_outcome options env currentLocation w Hwin)
    as (w1 & Hsave & _ & Hcached & Hset1 & Heff & _ & Href & _);
    [unfold cache_ok; congruence|assumption|].
  rewrite Hraise in Hsave. exists w1. split; [exact Hsave|].
  split; [|repeat split; congruence].
  rewrite Hcached. rewrite <- Hdone in Hentry.
  rewrite (proj2 (committed_pending env _ _ Hwf _ _ _ Hentry)). now rewrite Htruthy.
Qed.

(** X26: the two exported triggers in sequence: with the window
    pending and a location key that splits back cleanly, when
    [document.querySelector] accepts every pending selector at the save
    and every selector that the restore looks up among the keys
    committed once the save has run, requesting a save and then a
    restore scrolls the window to the offsets it had at the save and
    leaves nothing pending. *)
Theorem save_signal_then_restore_signal options env env' w :
  window_defined env = true ->
  window_defined env' = true ->
  set (cache w) = SetPersist ->
  obj_wf (next (state (cache w))) ->
  In windowKey (obj_keys (next (state (cache w)))) ->
  clean_key (getKey' options (locationRef w)) = true ->
  save_accepts env (next (state (cache w))) = true ->
  restore_accepts env' (getKey' options (locationRef w))
    (obj_keys (committed env (getKey' options (locationRef w))
                 (next (state (cache w))) (cached (state (cache w))))) = true ->
  exists w',
    run options [SaveSignal env; RestoreSignal env'] w = Normal (tt, w')
    /\ In (ScrollToOptions (scrollY (live_offsets env windowKey))
                           (scrollX (live_offsets env windowKey))
                           (scrollBehavior options)) (effects w')
    /\ next (state (cache w')) = [].
Proof.
  intros Hwin Hwin' Hset Hwf Hpending Hclean Hacc Hacc'.
  pose (w0 := add_effects [DispatchEvent SCROLL_SAVE_EVENT] w).
  destruct (save_commits_window options env (locationRef w) w0 Hwin Hset Hwf Hacc
              windowKey Hpending eq_refl)
    as (w1 & Hsave & Hget & Hcached & Hset1 & Heff1 & Href1).
  assert (Hs : saveCurrentScrollPositions options env w = Normal (tt, w1)).
  { unfold saveCurrentScrollPositions, Toplevel.saveCurrentScrollPositions.
    rewrite Hwin. unfold dispatchEvent, bind, emit, report, handleScrollSave.
    fold w0. change (locationRef w0) with (locationRef w). now rewrite Hsave. }
  pose (w2 := add_effects [DispatchEvent SCROLL_RESTORE_EVENT] w1).
  assert (Hkey2 : locationRef w2 = locationRef w) by exact Href1.
  destruct (restore_window_call options env' (locationRef w) w2
              (live_offsets env windowKey) Hwin')
    with (k := composite (getKey' options (locationRef w)) windowKey)
    as (w3 & calls & Hrun & Heff & Hin & Hnext & _).
  { unfold w2. cbn [add_effects cache]. now rewrite Hcached. }
  { exact Hget. }
  { now apply is_window_entry_composite. }
  assert (Hr : restoreScrollPositions_trigger options env' w1 = Normal (tt, w3)).
  { unfold restoreScrollPositions_trigger, Toplevel.restoreScrollPositions.
    rewrite Hwin'. unfold dispatchEvent, bind, emit, report, handleScrollRestore.
    fold w2. rewrite Hkey2. now rewrite Hrun. }
  exists w3. cbn [run act]. unfold bind at 1. rewrite Hs.
  unfold bind at 1. rewrite Hr. unfold ret.
  split; [reflexivity|]. split.
  - rewrite Heff. apply in_or_app. now right.
  - rewrite Hnext. unfold w2. cbn [add_effects cache]. now rewrite Hset1.
Qed.

(** X27: a save and the element query agree on the composite key: when
    every pending selector is accepted, what a save commits for an
    identified element that is pending is what the query returns for
    the same identifier under the same location key. *)
Theorem query_returns_saved_offsets options query env env' currentLocation w i :
  window_defined env = true ->
  set (cache w) = SetPersist ->
  obj_wf (next (state (cache w))) ->
  In (element_selector i) (obj_keys (next (state (cache w)))) ->
  id query = Some i ->
  Js.truthy i = true ->
  query_key query env' = getKey' options currentLocation ->
  save_accepts env (next (state (cache w))) = true ->
  exists w1,
    saveScrollPositions options env currentLocation w = Normal (tt, w1)
    /\ useElementScrollRestoration query env' w1
       = Normal (Some (live_offsets env (element_selector i)), w1).
Proof.
  intros Hwin Hset Hwf Hpending Hid Htruthy Hkey Hacc.
  destruct (save_commits_window options env currentLocation w Hwin Hset Hwf Hacc
              (element_selector i) Hpending eq_refl)
    as (w1 & Hsave & Hget & _).
  exists w1. split; [exact Hsave|].
  rewrite (element_query_by_id query env' w1 i Hid Htruthy). now rewrite Hkey, Hget.
Qed.

(** X28: the round trip of the window for any location key that holds
    no delimiter and does not end with an underscore: when every pending
    selector is accepted, a save with the window pending commits the
    live window offsets; a restore for a location with the same key then
    scrolls the window to them when every selector that its loop looks
    up is accepted, and throws otherwise. *)
Theorem window_round_trip options env env' currentLocation newLocation w :
  window_defined env = true ->
  window_defined env' = true ->
  set (cache w) = SetPersist ->
  obj_wf (next (state (cache w))) ->
  In windowKey (obj_keys (next (state (cache w)))) ->
  clean_key (getKey' options currentLocation) = true ->
  getKey' options newLocation = getKey' options currentLocation ->
  save_accepts env (next (state (cache w))) = true ->
  exists w1,
    saveScrollPositions options env currentLocation w = Normal (tt, w1)
    /\ obj_get (composite (getKey' options currentLocation) windowKey)
               (cached (state (cache w1)))
       = Some (live_offsets env windowKey)
    /\ if restore_accepts env' (getKey' options newLocation)
            (obj_keys (cached (state (cache w1))))
       then
         exists w2 calls,
           restoreScrollPositions options env' newLocation w1 = Normal (tt, w2)
           /\ effects w2 = (effects w1 ++ calls)%list
           /\ In (ScrollToOptions (scrollY (live_offsets env windowKey))
                                  (scrollX (live_offsets env windowKey))
                                  (scrollBehavior options)) calls
       else
         exists e w2,
           restoreScrollPositions options env' newLocation w1 = Throw (e, w2).
Proof.
  intros Hwin Hwin' Hset Hwf Hpending Hclean Hkey Hacc.
  destruct (save_commits_window options env currentLocation w Hwin Hset Hwf Hacc
              windowKey Hpending eq_refl)
    as (w1 & Hsave & Hget & _).
  exists w1. split; [exact Hsave|]. split; [exact Hget|].
  destruct (restore_accepts env' (getKey' options newLocation)
              (obj_keys (cached (state (cache w1))))) eqn:Ha.
  - destruct (restore_window_call options env' newLocation w1 _ Hwin' Ha _ Hget)
      as (w2 & calls & Hrun & Heff & Hin & _).
    { rewrite Hkey. now apply is_window_entry_composite. }
    exists w2, calls. auto.
  - destruct (restore_aborts options env' newLocation w1 Hwin' Ha) as (e & w2 & Hrun & _).
    exists e, w2. exact Hrun.
Qed.

Lemma saved_keys_carry_location_key_witness :
  exists w1,
    (saveScrollPositions Custom.options Custom.at_page1 (Scenario.page "/page1")
                         Scenario.pending_window = Normal (tt, w1)
     \/ exists e,
          saveScrollPositions Custom.options Custom.at_page1 (Scenario.page "/page1")
                              Scenario.pending_window = Throw (e, w1))
    /\ forall k,
         In k (obj_keys (cached (state (cache w1)))) ->
         In k (obj_keys (cached (state (cache Scenario.pending_window))))
         \/ (saved_under "custom-/page1" k = true
             /\ exists sel,
                  In sel (obj_keys (next (state (cache Scenario.pending_window))))
                  /\ k = composite "custom-/page1" sel).
Proof.
  apply (saved_keys_carry_location_key Custom.options Custom.at_page1
           (Scenario.page "/page1") Scenario.pending_window).
  - reflexivity.
  - apply persisting_ok.
  - apply wf_one.
Defined.

Lemma save_signal_then_restore_signal_witness :
  exists w',
    run Custom.options [SaveSignal Custom.at_page1; RestoreSignal Custom.at_page1]
        Scenario.pending_window = Normal (tt, w')
    /\ In (ScrollToOptions (Num 200) (Num 100) (Some "smooth")) (effects w')
    /\ next (state (cache w')) = [].
Proof.
  apply (save_signal_then_restore_signal Custom.options Custom.at_page1 Custom.at_page1
           Scenario.pending_window); try reflexivity.
  - apply wf_one.
  - left. reflexivity.
Defined.

Lemma query_returns_saved_offsets_witness :
  exists w1,
    saveScrollPositions Custom.options Custom.at_page1 (Scenario.page "/page1")
                        Custom.list_pending = Normal (tt, w1)
    /\ useElementScrollRestoration Custom.list_query Custom.at_page1 w1
       = Normal (Some {| scrollX := Num 7; scrollY := Num 9 |}, w1).
Proof.
  apply (query_returns_saved_offsets Custom.options Custom.list_query Custom.at_page1
           Custom.at_page1 (Scenario.page "/page1") Custom.list_pending "list");
    try reflexivity.
  - apply wf_one.
  - left. reflexivity.
Defined.

Lemma window_round_trip_witness :
  exists w1,
    saveScrollPositions Custom.options Custom.at_page1 (Scenario.page "/page1")
                        Scenario.pending_window = Normal (tt, w1)
    /\ obj_get (composite "custom-/page1" windowKey) (cached (state (cache w1)))
       = Some {| scrollX := Num 100; scrollY := Num 200 |}
    /\ exists w2 calls,
         restoreScrollPositions Custom.options Custom.at_page1 (Scenario.page "/page1") w1
         = Normal (tt, w2)
         /\ effects w2 = (effects w1 ++ calls)%list
         /\ In (ScrollToOptions (Num 200) (Num 100) (Some "smooth")) calls.
Proof.
  destruct (window_round_trip Custom.options Custom.at_page1 Custom.at_page1
              (Scenario.page "/page1") (Scenario.page "/page1") Scenario.pending_window
              eq_refl eq_refl eq_refl (wf_one _ _) (or_introl eq_refl)
              eq_refl eq_refl eq_refl)
    as (w1 & Hsave & Hget & Hif).
  exists w1. split; [exact Hsave|]. split; [exact Hget|].
  assert (Hw1 : restore_accepts Custom.at_page1 "custom-/page1"
                  (obj_keys (cached (state (cache w1)))) = true).
  { revert Hsave. vm_compute. intros [= <-]. reflexivity. }
  change (getKey' Custom.options (Scenario.page "/page1")) with "custom-/page1" in Hif.
  rewrite Hw1 in Hif. exact Hif.
Defined.
